(** * maxpar: the precedence-and-conflict scheduling engine

    A shallow embedding of [maxpar.py] (classes [Task] and [TaskSystem]) and
    the properties of its construction-time validation, its dependency
    resolution and its two execution strategies.

    Conventions of the embedding.
    - A Python [dict] is an association list in insertion order whose keys are
      pairwise distinct ([dict_wf]); [get] is [dict.get].
    - A Python [set] of names is a list of names without repetition. The
      source iterates over a set in one place, the traversal of the cycle
      check, where the model takes the order of insertion; the outcome is
      shown not to depend on that order ([check_roots_iteration_order]).
    - A thread is a task together with a flag that tells whether its target
      has returned; the action of a task takes effect on the globals in one
      step, when the target returns. When targets return and when threads
      are found dead is not decided by the program: the parallel run takes it
      as an argument, one [schedule_step] per iteration of its loop.
    - The module-level globals the task actions read and write are a [Store],
      a map from variable names to integers; an action is a function on it.
    - Recursion of the source is bounded by a fuel argument; running out of
      fuel is the result [OutOfFuel], kept apart from every raised exception.
      The interpreter's own recursion limit is not modelled. *)

From Stdlib Require Import String List Bool Arith ZArith Lia Relations.
From Stdlib Require Import Permutation.
Import ListNotations.
Local Open Scope string_scope.
Local Open Scope list_scope.

(** ** Exceptions and results *)

Inductive error : Type :=
| TaskNotFoundError (task_name : string)
| DuplicateTaskError (task_name : string)
| NoTaskPrecedenceError (task_name : string)
| InvalidPrecedenceDictError (msg : string)
| KeyError (key : string)
| TypeError
| AttributeError.

Inductive result (A : Type) : Type :=
| Ok (a : A)
| Raise (e : error)
| OutOfFuel.

Arguments Ok {A} a.
Arguments Raise {A} e.
Arguments OutOfFuel {A}.

Definition bind {A B : Type} (r : result A) (k : A -> result B) : result B :=
  match r with
  | Ok a => k a
  | Raise e => Raise e
  | OutOfFuel => OutOfFuel
  end.

Notation "x <- c ;; k" := (bind c (fun x => k))
  (at level 61, c at next level, right associativity).
Notation "' p <- c ;; k" := (bind c (fun p => k))
  (at level 61, p pattern, c at next level, right associativity).

(** ** Dictionaries and sets of names *)

Definition dict (V : Type) : Type := list (string * V).

Fixpoint get {V : Type} (d : dict V) (k : string) : option V :=
  match d with
  | [] => None
  | (k', v) :: d' => if String.eqb k' k then Some v else get d' k
  end.

Definition keys {V : Type} (d : dict V) : list string := map fst d.

Definition dict_wf {V : Type} (d : dict V) : Prop := NoDup (keys d).

Definition mem (x : string) (s : list string) : bool :=
  existsb (String.eqb x) s.

(** [s.add(x)] *)
Definition set_add (x : string) (s : list string) : list string :=
  if mem x s then s else s ++ [x].

(** [s.remove(x)] for an [x] known to be in [s] *)
Definition set_remove (x : string) (s : list string) : list string :=
  filter (fun y => negb (String.eqb x y)) s.

(** [set(a) & set(b)] is non-empty *)
Definition intersects (a b : list string) : bool :=
  existsb (fun x => mem x b) a.

(** [set(a).issubset(b)] *)
Definition issubset (a b : list string) : bool :=
  forallb (fun x => mem x b) a.

(** ** Tasks *)

Definition Store : Type := string -> Z.

Record Task : Type := mkTask {
  name : string;
  reads : list string;
  writes : list string;
  run : option (Store -> Store)
}.

Definition precedence_dict : Type := dict (list string).

Record TaskSystem : Type := mkTaskSystem {
  tasks : dict Task;
  precedence : precedence_dict;
  LOGING : bool
}.

(** ** Construction: [TaskSystem.__init__] *)

(** The first loop of [__init__]: per task, the precedence entry is looked up,
    then the name is checked against the names seen so far. *)
Fixpoint register_tasks (prec : precedence_dict) (ts : list Task)
    (task_names : list string) (table : dict Task) : result (dict Task) :=
  match ts with
  | [] => Ok table
  | task :: rest =>
      match get prec (name task) with
      | None => Raise (NoTaskPrecedenceError (name task))
      | Some _ =>
          if mem (name task) task_names
          then Raise (DuplicateTaskError (name task))
          else register_tasks prec rest (set_add (name task) task_names)
                 (table ++ [(name task, task)])
      end
  end.

(** The second loop: every key of the precedence dictionary is a task. *)
Fixpoint check_precedence_keys (table : dict Task) (ks : list string)
    : result unit :=
  match ks with
  | [] => Ok tt
  | task_name :: rest =>
      match get table task_name with
      | None => Raise (TaskNotFoundError task_name)
      | Some _ => check_precedence_keys table rest
      end
  end.

(** *** [__validate_precedence_dict] *)

Definition add_node (k : string) (deps : dict (list string))
    : dict (list string) :=
  match get deps k with
  | Some _ => deps
  | None => deps ++ [(k, [])]
  end.

(** [dependencies[k].add(x)] *)
Fixpoint add_to (k x : string) (deps : dict (list string))
    : dict (list string) :=
  match deps with
  | [] => []
  | (k', s) :: deps' =>
      if String.eqb k' k then (k', set_add x s) :: deps'
      else (k', s) :: add_to k x deps'
  end.

Fixpoint add_dependents (task : string) (dependent_tasks : list string)
    (deps : dict (list string)) : dict (list string) :=
  match dependent_tasks with
  | [] => deps
  | dependent_task :: rest =>
      add_dependents task rest (add_to dependent_task task (add_node dependent_task deps))
  end.

Fixpoint build_dependencies (items : precedence_dict)
    (deps : dict (list string)) : result (dict (list string)) :=
  match items with
  | [] => Ok deps
  | (task, dependent_tasks) :: rest =>
      if mem task dependent_tasks
      then Raise (InvalidPrecedenceDictError
                    ("Task " ++ task ++ " cannot depend on itself"))
      else build_dependencies rest
             (add_dependents task dependent_tasks (add_node task deps))
  end.

(** *** [__dfs_cycle_check]

    The state threaded through the traversal is the pair of the sets
    [visited] and [stack], both shared by all the calls. *)

Definition dfs_state : Type := (list string * list string)%type.

Fixpoint dfs_successors
    (rec : string -> dfs_state -> result (bool * dfs_state))
    (task_name : string) (succs : list string) (st : dfs_state)
    : result (bool * dfs_state) :=
  match succs with
  | [] => Ok (false, (fst st, set_remove task_name (snd st)))
  | dependent_task :: rest =>
      if negb (mem dependent_task (fst st)) then
        ' (found, st') <- rec dependent_task st ;;
        if found then Ok (true, st')
        else dfs_successors rec task_name rest st'
      else if mem dependent_task (snd st) then Ok (true, st)
      else dfs_successors rec task_name rest st
  end.

Fixpoint dfs_cycle_check (fuel : nat) (dependencies : dict (list string))
    (task_name : string) (st : dfs_state) : result (bool * dfs_state) :=
  match fuel with
  | O => OutOfFuel
  | S fuel' =>
      let st1 := (set_add task_name (fst st), set_add task_name (snd st)) in
      match get dependencies task_name with
      | None => Raise (KeyError task_name)
      | Some succs =>
          dfs_successors (dfs_cycle_check fuel' dependencies)
            task_name succs st1
      end
  end.

(** The loop over the keys of [dependencies] at the end of
    [__validate_precedence_dict]. *)
Fixpoint check_roots (fuel : nat) (dependencies : dict (list string))
    (roots : list string) (st : dfs_state) : result unit :=
  match roots with
  | [] => Ok tt
  | task :: rest =>
      if negb (mem task (fst st)) then
        ' (found, st') <- dfs_cycle_check fuel dependencies task st ;;
        if found
        then Raise (InvalidPrecedenceDictError
                      "Precedence dictionary contains a cycle")
        else check_roots fuel dependencies rest st'
      else check_roots fuel dependencies rest st
  end.

Definition validate_precedence_dict (precedence_dict : precedence_dict)
    : result unit :=
  dependencies <- build_dependencies precedence_dict [] ;;
  check_roots (S (length dependencies)) dependencies (keys dependencies)
    ([], []).

Definition TaskSystem_init (ts : list Task) (prec : precedence_dict)
    : result TaskSystem :=
  table <- register_tasks prec ts [] [] ;;
  _ <- check_precedence_keys table (keys prec) ;;
  _ <- validate_precedence_dict prec ;;
  Ok (mkTaskSystem table prec true).

(** ** Dependency resolution: [get_dependencies] *)

(** The state of [__r__get_dependencies]: the list [dependencies] and the set
    [visited], both mutated in place by every call. *)
Definition deps_state : Type := (list string * list string)%type.

Fixpoint each_sub_dependency
    (rec : string -> deps_state -> result deps_state)
    (sub_dependencies : list string) (st : deps_state) : result deps_state :=
  match sub_dependencies with
  | [] => Ok st
  | sub_task_name :: rest =>
      st' <- rec sub_task_name st ;;
      each_sub_dependency rec rest st'
  end.

(** [len(None)] is a [TypeError]: the lookup of a name with no entry in the
    precedence dictionary. *)
Fixpoint r_get_dependencies (fuel : nat) (prec : precedence_dict)
    (task_name : string) (st : deps_state) : result deps_state :=
  match fuel with
  | O => OutOfFuel
  | S fuel' =>
      if negb (mem task_name (snd st)) then
        match get prec task_name with
        | None => Raise TypeError
        | Some [] => Ok (fst st ++ [task_name], set_add task_name (snd st))
        | Some sub_dependencies =>
            st' <- each_sub_dependency (r_get_dependencies fuel' prec)
                     sub_dependencies st ;;
            Ok (fst st' ++ [task_name], set_add task_name (snd st'))
        end
      else Ok st
  end.

Definition get_dependencies (sys : TaskSystem) (task_name : string)
    : result (list string) :=
  match get (precedence sys) task_name with
  | Some _ =>
      st <- r_get_dependencies (S (length (precedence sys)))
              (precedence sys) task_name ([], []) ;;
      Ok (removelast (fst st))
  | None => Raise (TaskNotFoundError task_name)
  end.

(** ** The execution queue: [__r___get_tasks_queue] *)

(** The queue holds what [self.tasks.get] returned, which is [None] for a
    name that is not registered. *)
Definition queue_state : Type := (list (option Task) * list string)%type.

Fixpoint each_dependency
    (rec : string -> queue_state -> result queue_state)
    (dependencies : list string) (st : queue_state) : result queue_state :=
  match dependencies with
  | [] => Ok st
  | dependency :: rest =>
      st' <- rec dependency st ;;
      each_dependency rec rest st'
  end.

Fixpoint r_get_tasks_queue (fuel : nat) (sys : TaskSystem)
    (task_name : string) (st : queue_state) : result queue_state :=
  match fuel with
  | O => OutOfFuel
  | S fuel' =>
      if mem task_name (snd st) then Ok st
      else
        dependencies <- get_dependencies sys task_name ;;
        st' <- (if negb (Nat.eqb (length dependencies) 0
                         || forallb (fun d => mem d (snd st)) dependencies)
                then each_dependency (r_get_tasks_queue fuel' sys)
                       dependencies st
                else Ok st) ;;
        Ok (fst st' ++ [get (tasks sys) task_name],
            set_add task_name (snd st'))
  end.

(** The loop [for task_name in self.tasks] shared by [run_seq] and [run]. *)
Fixpoint queue_all (sys : TaskSystem) (task_names : list string)
    (st : queue_state) : result queue_state :=
  match task_names with
  | [] => Ok st
  | task_name :: rest =>
      st' <- r_get_tasks_queue (S (length (precedence sys))) sys task_name st ;;
      queue_all sys rest st'
  end.

Definition tasks_queue (sys : TaskSystem) : result (list (option Task)) :=
  st <- queue_all sys (keys (tasks sys)) ([], []) ;;
  Ok (fst st).

(** ** The world the actions run in *)

Inductive event : Type :=
| Start (t : Task)     (* the action of [t] has been invoked *)
| Finish (t : Task).   (* the action of [t] has returned *)

Record World : Type := mkWorld {
  store : Store;              (* the globals *)
  stdout : list string;       (* the names printed by the logging lines *)
  trace : list event          (* what has happened, oldest first *)
}.

Definition log (sys : TaskSystem) (t : Task) (w : World) : World :=
  if LOGING sys
  then mkWorld (store w) (stdout w ++ [name t]) (trace w)
  else w.

Definition emit (e : event) (w : World) : World :=
  mkWorld (store w) (stdout w) (trace w ++ [e]).

Definition apply_action (f : Store -> Store) (w : World) : World :=
  mkWorld (f (store w)) (stdout w) (trace w).

(** ** Sequential execution: [run_seq] *)

(** [task.run()]: calling [None] is a [TypeError]; reading an attribute of
    [None] is an [AttributeError]. *)
Fixpoint run_sequence (sys : TaskSystem) (sequence : list (option Task))
    (w : World) : World * result unit :=
  match sequence with
  | [] => (w, Ok tt)
  | None :: _ => (w, Raise AttributeError)
  | Some task :: rest =>
      let w1 := log sys task w in
      match run task with
      | None => (w1, Raise TypeError)
      | Some action =>
          run_sequence sys rest
            (emit (Finish task) (apply_action action (emit (Start task) w1)))
      end
  end.

Definition run_seq (sys : TaskSystem) (w : World) : World * result unit :=
  match tasks_queue sys with
  | Ok sequence => run_sequence sys sequence w
  | Raise e => (w, Raise e)
  | OutOfFuel => (w, OutOfFuel)
  end.

(** ** Parallel execution: [run] *)

(** The conflict test of line 291, between the polled task and one task of
    [processes]. *)
Definition conflicts (task p : Task) : bool :=
  intersects (reads task) (writes p) || intersects (writes task) (reads p).

(** A thread of [processes] with the task it runs; the flag tells whether its
    target has returned. *)
Definition thread : Type := (Task * bool)%type.

Record run_state : Type := mkRunState {
  queue : list (option Task);
  processes : list thread;
  executed : list string
}.

(** What the threads do during one iteration of the scheduling loop, which
    the scheduler does not control: the threads whose target returns, in the
    order they return, and the threads the closing poll finds not alive (a
    thread is not alive only once its target has returned). *)
Record schedule_step : Type := mkStep {
  returning : list string;
  dead : list string
}.

(** [Thread.run] calls the target unless it is [None]. *)
Definition thread_body (t : Task) (w : World) : World :=
  emit (Finish t)
    (match run t with
     | Some action => apply_action action w
     | None => w
     end).

Fixpoint return_thread (n : string) (procs : list thread) (w : World)
    : list thread * World :=
  match procs with
  | [] => ([], w)
  | (t, returned) :: rest =>
      if String.eqb (name t) n && negb returned
      then ((t, true) :: rest, thread_body t w)
      else let (rest', w') := return_thread n rest w in
           ((t, returned) :: rest', w')
  end.

Fixpoint return_threads (ns : list string) (procs : list thread) (w : World)
    : list thread * World :=
  match ns with
  | [] => (procs, w)
  | n :: rest =>
      let (procs', w') := return_thread n procs w in
      return_threads rest procs' w'
  end.

(** The poll [for p in processes.copy(): if not p.is_alive(): ...]. *)
Fixpoint reap (dead_names : list string) (procs : list thread)
    (done : list string) : list thread * list string :=
  match procs with
  | [] => ([], done)
  | (t, returned) :: rest =>
      if returned && mem (name t) dead_names
      then reap dead_names rest (set_add (name t) done)
      else let (rest', done') := reap dead_names rest done in
           ((t, returned) :: rest', done')
  end.

(** One iteration of [while not queue.empty()]. *)
Definition run_iter (sys : TaskSystem) (env : schedule_step)
    (s : run_state) (w : World) : World * result run_state :=
  match queue s with
  | [] => (w, Ok s)
  | None :: _ => (w, Raise AttributeError)
  | Some task :: rest =>
      let can_run_simultaneously :=
        negb (existsb (fun p => conflicts task (fst p)) (processes s)) in
      match get_dependencies sys (name task) with
      | Raise e => (w, Raise e)
      | OutOfFuel => (w, OutOfFuel)
      | Ok dependencies =>
          let can_run_simultaneously :=
            if negb (issubset dependencies (executed s)) then false
            else can_run_simultaneously in
          let '(q, procs, w1) :=
            if can_run_simultaneously
            then (rest, processes s ++ [(task, false)],
                  log sys task (emit (Start task) w))
            else (rest ++ [Some task], processes s, w) in
          let (procs2, w2) := return_threads (returning env) procs w1 in
          let (procs3, done) := reap (dead env) procs2 (executed s) in
          (w2, Ok (mkRunState q procs3 done))
      end
  end.

(** [for p in processes: p.join()]: the threads still running return, in an
    order the scheduler does not control. *)
Definition join_all (envs : list schedule_step) (procs : list thread)
    (w : World) : World :=
  let first := match envs with e :: _ => returning e | [] => [] end in
  snd (return_threads (first ++ map (fun p => name (fst p)) procs) procs w).

(** The scheduling loop; the list of [schedule_step]s bounds the number of
    iterations, as the loop polls for as long as nothing can be started. *)
Fixpoint run_loop (sys : TaskSystem) (envs : list schedule_step)
    (s : run_state) (w : World) : World * result unit :=
  match queue s with
  | [] => (join_all envs (processes s) w, Ok tt)
  | _ :: _ =>
      match envs with
      | [] => (w, OutOfFuel)
      | env :: envs' =>
          match run_iter sys env s w with
          | (w', Ok s') => run_loop sys envs' s' w'
          | (w', Raise e) => (w', Raise e)
          | (w', OutOfFuel) => (w', OutOfFuel)
          end
      end
  end.

Definition parallel_run (sys : TaskSystem) (envs : list schedule_step)
    (w : World) : World * result unit :=
  match tasks_queue sys with
  | Ok q => run_loop sys envs (mkRunState q [] []) w
  | Raise e => (w, Raise e)
  | OutOfFuel => (w, OutOfFuel)
  end.

(** ** Logging: [set_logging] *)

Definition set_logging (sys : TaskSystem) (state : bool) : TaskSystem :=
  mkTaskSystem (tasks sys) (precedence sys) state.

(** ** The precedence relation and the invariants of the data model *)

(** [direct_pred prec a b]: [b] is listed in the entry of [a], that is, [b]
    must complete before [a] starts. *)
Definition direct_pred (prec : precedence_dict) (a b : string) : Prop :=
  exists preds, get prec a = Some preds /\ In b preds.

(** [trans_pred prec a b]: [b] is a transitive predecessor of [a]. *)
Definition trans_pred (prec : precedence_dict) : string -> string -> Prop :=
  clos_trans string (direct_pred prec).

Definition cyclic (prec : precedence_dict) : Prop :=
  exists a, trans_pred prec a a.

Definition acyclic (prec : precedence_dict) : Prop :=
  forall a, ~ trans_pred prec a a.

Definition registered (ts : list Task) (n : string) : Prop :=
  In n (map name ts).

(** Every task has an entry in the precedence dictionary. *)
Definition all_have_entry (ts : list Task) (prec : precedence_dict) : Prop :=
  forall t, In t ts -> get prec (name t) <> None.

(** No task name repeats. *)
Definition names_distinct (ts : list Task) : Prop := NoDup (map name ts).

(** Every key of the precedence dictionary is a registered task. *)
Definition keys_registered (ts : list Task) (prec : precedence_dict) : Prop :=
  forall k, In k (keys prec) -> registered ts k.

(** Every name listed as a predecessor is a registered task. *)
Definition preds_registered (ts : list Task) (prec : precedence_dict) : Prop :=
  forall a b, direct_pred prec a b -> registered ts b.

(** ** The successor graph of the cycle check *)

(** [successor deps u v]: [v] is in the set [dependencies[u]]. *)
Definition successor (deps : dict (list string)) (u v : string) : Prop :=
  exists l, get deps u = Some l /\ In v l.

(** A name is black once its traversal is over: visited and off the stack. *)
Definition black (st : dfs_state) (x : string) : Prop :=
  In x (fst st) /\ ~ In x (snd st).

(** What holds of [visited] and [stack] between two calls of
    [__dfs_cycle_check]. *)
Record dfs_inv (deps : dict (list string)) (st : dfs_state) : Prop := {
  inv_stack_visited : incl (snd st) (fst st);
  inv_stack_nodup : NoDup (snd st);
  inv_stack_keys : incl (snd st) (keys deps);
  inv_black_closed :
    forall x y, black st x -> successor deps x y -> black st y;
  inv_black_acyclic :
    forall x, black st x -> ~ clos_trans string (successor deps) x x
}.

(** The contract of one call of [__dfs_cycle_check] on [u]: what it needs of
    the sets it is given, and what it returns. *)
Definition dfs_pre (deps : dict (list string)) (fuel : nat) (u : string)
    (st : dfs_state) : Prop :=
  dfs_inv deps st /\ In u (keys deps) /\ ~ In u (fst st) /\
  (forall s, In s (snd st) -> clos_refl_trans string (successor deps) s u) /\
  length (keys deps) < fuel + length (snd st).

Definition dfs_post (deps : dict (list string)) (u : string) (st : dfs_state)
    (r : result (bool * dfs_state)) : Prop :=
  exists found st', r = Ok (found, st') /\
    (found = true -> exists x, clos_trans string (successor deps) x x) /\
    (found = false ->
       dfs_inv deps st' /\ snd st' = snd st /\
       incl (fst st) (fst st') /\ In u (fst st')).

(** The table [self.tasks] that [__init__] builds from a list of tasks with
    pairwise distinct names. *)
Definition task_table (ts : list Task) : dict Task :=
  map (fun t => (name t, t)) ts.

(** The invariants of the data model, which construction is to enforce. *)
Record valid_input (ts : list Task) (prec : precedence_dict) : Prop := {
  vi_dict : dict_wf prec;
  vi_entry : all_have_entry ts prec;
  vi_distinct : names_distinct ts;
  vi_keys : keys_registered ts prec;
  vi_preds : preds_registered ts prec;
  vi_acyclic : acyclic prec
}.

(** ** Dependency-consistent orders *)

(** In [l], the transitive predecessors of every element occur strictly
    before it. *)
Definition dependency_ordered (prec : precedence_dict) (l : list string)
    : Prop :=
  forall l1 x l2, l = l1 ++ x :: l2 ->
  forall y, trans_pred prec x y -> In y l1.

(** Every name listed as a predecessor has an entry of its own. *)
Definition preds_have_entry (prec : precedence_dict) : Prop :=
  forall a b, direct_pred prec a b -> get prec b <> None.

(** What holds of [dependencies] and [visited] between two calls of
    [__r__get_dependencies]. *)
Definition deps_inv (prec : precedence_dict) (st : deps_state) : Prop :=
  (forall x, In x (snd st) <-> In x (fst st)) /\
  NoDup (fst st) /\
  dependency_ordered prec (fst st).

(** The contract of one call of [__r__get_dependencies] on [u], made while
    the calls on the names of [anc] are in progress. *)
Definition deps_pre (prec : precedence_dict) (fuel : nat) (u : string)
    (anc : list string) (st : deps_state) : Prop :=
  deps_inv prec st /\ get prec u <> None /\
  NoDup anc /\ incl anc (keys prec) /\
  (forall a, In a anc -> trans_pred prec a u) /\
  length (keys prec) <= fuel + length anc.

Definition deps_post (prec : precedence_dict) (u : string) (st : deps_state)
    (r : result deps_state) : Prop :=
  exists new V',
    r = Ok (fst st ++ new, V') /\
    deps_inv prec (fst st ++ new, V') /\
    (forall x, In x new -> x = u \/ trans_pred prec u x) /\
    In u (fst st ++ new) /\
    (~ In u (fst st) -> exists new', new = new' ++ [u]).

(** ** The contract of the queue construction, and what the runs do *)

(** What holds of [sequence] and [visited] between two calls of
    [__r___get_tasks_queue]; [N] lists the names queued so far. *)
Definition queue_inv (sys : TaskSystem) (N : list string) (st : queue_state)
    : Prop :=
  fst st = map (get (tasks sys)) N /\
  (forall x, In x (snd st) <-> In x N) /\
  NoDup N /\
  dependency_ordered (precedence sys) N /\
  (forall x, In x N -> get (precedence sys) x <> None).

Definition queue_post (sys : TaskSystem) (u : string) (N : list string)
    (r : result queue_state) : Prop :=
  exists new st',
    r = Ok st' /\ queue_inv sys (N ++ new) st' /\
    In u (N ++ new) /\
    (forall x, In x new -> x = u \/ trans_pred (precedence sys) u x).

Definition queue_pre (sys : TaskSystem) (fuel : nat) (u : string)
    (anc : list string) (N : list string) (st : queue_state) : Prop :=
  queue_inv sys N st /\ get (precedence sys) u <> None /\
  NoDup anc /\ incl anc (keys (precedence sys)) /\
  (forall a, In a anc -> trans_pred (precedence sys) a u) /\
  length (keys (precedence sys)) <= fuel + length anc.

(** The tasks whose action has been invoked, in the order of invocation. *)
Definition started (tr : list event) : list Task :=
  flat_map (fun e => match e with Start t => [t] | Finish _ => [] end) tr.

(** The effect of a task on the globals; a task with no action has none. *)
Definition action_of (t : Task) : Store -> Store :=
  match run t with
  | Some action => action
  | None => fun st => st
  end.

(** The globals after the actions of [order] ran one after the other. *)
Definition run_actions (order : list Task) (st : Store) : Store :=
  fold_left (fun st t => action_of t st) order st.

(** The declared sets of a task are accurate: its action changes only the
    variables it declares as written, and what it writes depends only on the
    variables it declares as read. *)
Definition accurate (t : Task) : Prop :=
  (forall st x, ~ In x (writes t) -> action_of t st x = st x) /\
  (forall st st', (forall x, In x (reads t) -> st x = st' x) ->
                  forall x, In x (writes t) ->
                  action_of t st x = action_of t st' x).


(** ** What a trace says about a parallel run *)

(** The tasks running after the events of [tr]: started, not yet finished. *)
Definition running (tr : list event) : list Task :=
  fold_left
    (fun acc e =>
       match e with
       | Start t => acc ++ [t]
       | Finish t => filter (fun u => negb (String.eqb (name u) (name t))) acc
       end)
    tr [].

(** No two different tasks of [l] conflict. *)
Definition compatible (l : list Task) : Prop :=
  forall a b, In a l -> In b l -> a <> b -> conflicts a b = false.

(** At no moment of [tr] were two conflicting tasks running. *)
Definition always_safe (tr : list event) : Prop :=
  forall tr1 tr2, tr = tr1 ++ tr2 -> compatible (running tr1).

(** Every start in [tr] comes after the finish of all the dependencies of
    the task started, as [get_dependencies] lists them. *)
Definition deps_respected (sys : TaskSystem) (tr : list event) : Prop :=
  forall tr1 t tr2, tr = tr1 ++ Start t :: tr2 ->
  exists deps,
    get_dependencies sys (name t) = Ok deps /\
    forall d, In d deps -> exists td, name td = d /\ In (Finish td) tr1.

(** What holds of [processes], [executed] and the events so far at every
    point of the scheduling loop. *)
Record par_inv (sys : TaskSystem) (procs : list thread)
    (done : list string) (tr : list event) : Prop := {
  pi_running : forall x, In x (running tr) -> In (x, false) procs;
  pi_compat : compatible (map fst procs);
  pi_returned : forall t, In (t, true) procs -> In (Finish t) tr;
  pi_executed :
    forall n, In n done -> exists t, name t = n /\ In (Finish t) tr;
  pi_safe : always_safe tr;
  pi_deps : deps_respected sys tr
}.




(** The schedule in which every thread returns, and is found dead, in the
    iteration that started it. *)
Definition eager_step (ts : list Task) : schedule_step :=
  mkStep (map name ts) (map name ts).

(** What starting a thread for [t] and letting it return does to the
    world. *)
Definition thread_effect (sys : TaskSystem) (t : Task) (w : World) : World :=
  thread_body t (log sys t (emit (Start t) w)).

(** ** The scenario of the test suite *)

Module Scenario.

Definition upd (x : string) (v : Z) (st : Store) : Store :=
  fun y => if String.eqb x y then v else st y.

Definition init : Store := fun _ => 0%Z.

Definition t1 := mkTask "T1" [] ["X"] (Some (fun st => upd "X" 5%Z st)).
Definition t2 := mkTask "T2" [] ["Y"] (Some (fun st => upd "Y" 3%Z st)).
Definition t3 := mkTask "T3" ["X"; "Y"] ["Y"; "X"]
  (Some (fun st => let st1 := upd "X" (st "X" * st "X")%Z st in
                   upd "Y" (st1 "Y" * st1 "Y")%Z st1)).
Definition t4 := mkTask "T4" [] ["Z"] (Some (fun st => upd "Z" 10%Z st)).
Definition t5 := mkTask "T5" ["X"; "Y"; "Z"] ["Z"]
  (Some (fun st => upd "Z" (st "Z" + (st "X" + st "Y"))%Z st)).
Definition t6 := mkTask "T6" ["Z"] ["Z"]
  (Some (fun st => upd "Z" (st "Z" + 5)%Z st)).

Definition all_tasks : list Task := [t1; t2; t3; t4; t5; t6].

Definition prec : precedence_dict :=
  [("T1", []); ("T2", []); ("T3", ["T1"; "T2"]); ("T4", []);
   ("T5", ["T3"; "T4"]); ("T6", ["T5"])].

Definition world0 : World := mkWorld init [] [].

Definition system : TaskSystem :=
  mkTaskSystem (task_table all_tasks) prec true.

(** Every thread returns, and is found dead, in the iteration that started
    it. *)
Definition eager : schedule_step := eager_step all_tasks.

Definition schedule : list schedule_step := repeat eager 8.

End Scenario.

(** ** Inputs on which construction is evaluated *)

Module Inputs.

Definition upd := Scenario.upd.

(** One task whose only predecessor is not a task. *)
Definition lone : Task :=
  mkTask "T1" [] ["X"] (Some (fun st => upd "X" 5%Z st)).
Definition dangling_prec : precedence_dict := [("T1", ["T9"])].

(** A name repeated ahead of a task that has no entry. *)
Definition ta : Task := mkTask "A" [] [] (Some (fun st => st)).
Definition tb : Task := mkTask "B" [] [] (Some (fun st => st)).
Definition repeated_then_missing : list Task := [ta; ta; tb].
Definition prec_a : precedence_dict := [("A", [])].

End Inputs.

(** ** Inputs on which the two runs are compared *)

Module Races.

Definition upd := Scenario.upd.

(** Two independent tasks that write the same variable and read nothing. *)
Definition w1 : Task := mkTask "T1" [] ["X"] (Some (fun st => upd "X" 1%Z st)).
Definition w2 : Task := mkTask "T2" [] ["X"] (Some (fun st => upd "X" 2%Z st)).
Definition ww_prec : precedence_dict := [("T1", []); ("T2", [])].

(** Both threads are started; the thread of T2 returns first. *)
Definition ww_schedule : list schedule_step :=
  [mkStep [] []; mkStep ["T2"; "T1"] ["T1"; "T2"]].

(** Three independent tasks: A reads X, B writes X, C reads X. *)
Definition ra : Task :=
  mkTask "A" ["X"] ["W"] (Some (fun st => upd "W" (st "X") st)).
Definition rb : Task := mkTask "B" [] ["X"] (Some (fun st => upd "X" 1%Z st)).
Definition rc : Task :=
  mkTask "C" ["X"] ["Y"] (Some (fun st => upd "Y" (st "X") st)).
Definition rw_prec : precedence_dict := [("A", []); ("B", []); ("C", [])].

(** A is started; B conflicts with it and is put back; C is started and
    returns, then A returns; B is started last. *)
Definition rw_schedule : list schedule_step :=
  [mkStep [] []; mkStep [] []; mkStep ["C"; "A"] ["C"; "A"];
   mkStep ["B"] ["B"]].

(** A task constructed without an action. *)
Definition idle : Task := mkTask "T" [] [] None.
Definition idle_prec : precedence_dict := [("T", [])].

End Races.

(** ** Two successor graphs that differ in iteration order only *)

Module Orders.

Definition graph1 : dict (list string) :=
  [("T1", ["T3"; "T4"]); ("T3", ["T4"]); ("T4", [])].

Definition graph2 : dict (list string) :=
  [("T4", []); ("T1", ["T4"; "T3"]); ("T3", ["T4"])].

End Orders.

(** ** The contract of the dependency resolution on any acyclic dictionary *)

(** The state of [__r__get_dependencies] when names may lack an entry: as
    [deps_inv], and every name listed so far has an entry. *)
Definition deps_inv_entries (prec : precedence_dict) (st : deps_state)
    : Prop :=
  deps_inv prec st /\ forall x, In x (fst st) -> get prec x <> None.

Definition deps_pre_any (prec : precedence_dict) (fuel : nat)
    (anc : list string) (st : deps_state) : Prop :=
  deps_inv_entries prec st /\
  NoDup anc /\ incl anc (keys prec) /\
  length (keys prec) < fuel + length anc.

(** A call on [u] either extends the list as [deps_post] says, or raises
    [TypeError] because [u] or one of its transitive predecessors has no
    entry. *)
Definition deps_post_any (prec : precedence_dict) (u : string)
    (st : deps_state) (r : result deps_state) : Prop :=
  (exists new V',
     r = Ok (fst st ++ new, V') /\
     deps_inv_entries prec (fst st ++ new, V') /\
     (forall x, In x new -> x = u \/ trans_pred prec u x) /\
     In u (fst st ++ new) /\
     (~ In u (fst st) -> exists new', new = new' ++ [u]))
  \/
  (r = Raise TypeError /\
   exists x, (x = u \/ trans_pred prec u x) /\ get prec x = None).

(** ** Counting what a parallel run starts and finishes *)

(** The tasks whose action has returned, in the order of return. *)
Definition finished (tr : list event) : list Task :=
  flat_map (fun e => match e with Start _ => [] | Finish t => [t] end) tr.

(** The tasks of the threads whose target has not returned yet. *)
Definition unreturned (procs : list thread) : list Task :=
  map fst (filter (fun p => negb (snd p)) procs).

(** What holds of the queue [qt], of [processes] and of the events so far
    when the queue was built as [order]: every task is queued or started,
    never both, and every started task is running or finished, never
    both. *)
Record count_inv (order : list Task) (procs : list thread)
    (qt : list Task) (tr : list event) : Prop := {
  ci_queue : Permutation (started tr ++ qt) order;
  ci_finished : Permutation (finished tr ++ unreturned procs) (started tr);
  ci_names : NoDup (map (fun p => name (fst p)) procs);
  ci_procs : forall p, In p procs -> In (fst p) (started tr)
}.

(** ** Interference, and orders that respect the precedence *)

(** One of the two tasks writes a variable that the other reads or
    writes. *)
Definition interferes (a b : Task) : Prop :=
  exists x, (In x (reads a) /\ In x (writes b)) \/
            (In x (writes a) /\ In x (reads b)) \/
            (In x (writes a) /\ In x (writes b)).

(** Any two tasks that interfere are ordered by the precedence
    dictionary. *)
Definition interference_ordered (ts : list Task) (prec : precedence_dict)
    : Prop :=
  forall a b, In a ts -> In b ts -> name a <> name b -> interferes a b ->
  trans_pred prec (name a) (name b) \/ trans_pred prec (name b) (name a).

(** No task of [l] depends on a task that comes after it in [l]. *)
Fixpoint respects (prec : precedence_dict) (l : list Task) : Prop :=
  match l with
  | [] => True
  | a :: l' =>
      (forall b, In b l' -> ~ trans_pred prec (name a) (name b)) /\
      respects prec l'
  end.

(** Two stores hold the same values. *)
Definition same_store (st st' : Store) : Prop := forall x, st x = st' x.

(** What holds of [processes], [executed] and the tasks finished so far:
    the tasks finished in a dependency-consistent order, and the transitive
    predecessors of every task that has a thread finished before it was
    started. *)
Record order_inv (prec : precedence_dict) (procs : list thread)
    (done : list string) (tr : list event) : Prop := {
  oi_ordered : dependency_ordered prec (map name (finished tr));
  oi_preds :
    forall p d, In p procs -> trans_pred prec (name (fst p)) d ->
                In d (map name (finished tr));
  oi_returned :
    forall t, In (t, true) procs -> In (name t) (map name (finished tr));
  oi_executed : forall n, In n done -> In n (map name (finished tr))
}.

(** The list [get_dependencies] returns for [n], the empty list when it
    raises. *)
Definition dependencies_of (sys : TaskSystem) (n : string) : list string :=
  match get_dependencies sys n with
  | Ok l => l
  | _ => []
  end.

(** [interferes], decided. *)
Definition interferesb (a b : Task) : bool :=
  intersects (reads a) (writes b) || intersects (writes a) (reads b)
  || intersects (writes a) (writes b).

(** Every two tasks of [ts] with different names that interfere are listed
    one in the dependencies of the other. *)
Definition interference_orderedb (sys : TaskSystem) (ts : list Task) : bool :=
  forallb
    (fun a =>
       forallb
         (fun b =>
            String.eqb (name a) (name b) || negb (interferesb a b)
            || mem (name b) (dependencies_of sys (name a))
            || mem (name a) (dependencies_of sys (name b)))
         ts)
    ts.

(** ** Printing, and [par_cost] *)

(** [print(line)] *)
Definition print (line : string) (w : World) : World :=
  mkWorld (store w) (stdout w ++ [line]) (trace w).

(** [par_cost]: the sequential run, then the parallel run on the globals the
    first one left. The two durations it prints are readings of the clock,
    which the program does not decide: they are arguments, [d1] and [d2],
    already rounded and formatted. The first duration is printed with a
    line feed of its own, hence the empty line. An exception raised by a
    run leaves [par_cost] at once. *)
Definition par_cost (sys : TaskSystem) (envs : list schedule_step)
    (d1 d2 : string) (w : World) : World * result unit :=
  let w0 := print "[maxpar] Starting TaskSystem.run_seq()" w in
  match run_seq sys w0 with
  | (w1, Ok _) =>
      let w2 := print "[maxpar] Starting TaskSystem.run()"
                  (print ""
                     (print ("Execution time: " ++ d1 ++ " seconds") w1)) in
      match parallel_run sys envs w2 with
      | (w3, Ok _) =>
          (print ("Execution time: " ++ d2 ++ " seconds") w3, Ok tt)
      | (w3, r) => (w3, r)
      end
  | (w1, r) => (w1, r)
  end.

(** Two worlds that differ in what has been printed only. *)
Definition same_but_stdout (w1 w2 : World) : Prop :=
  store w1 = store w2 /\ trace w1 = trace w2.

(** The names the logging lines print for the tasks of [l]. *)
Definition logged (sys : TaskSystem) (l : list Task) : list string :=
  if LOGING sys then map name l else [].

(** * Properties *)

(** ** Names, sets and dictionaries *)

Lemma mem_In (x : string) (s : list string) : mem x s = true <-> In x s.
Proof.
  unfold mem. rewrite existsb_exists. split.
  - intros [y [Hy He]]. apply String.eqb_eq in He. now subst.
  - intros H. exists x. split; [assumption | apply String.eqb_refl].
Qed.

Lemma mem_false (x : string) (s : list string) : mem x s = false <-> ~ In x s.
Proof.
  rewrite <- mem_In. destruct (mem x s); split; congruence.
Qed.

Lemma set_add_In (x y : string) (s : list string) :
  In y (set_add x s) <-> y = x \/ In y s.
Proof.
  unfold set_add. destruct (mem x s) eqn:E.
  - apply mem_In in E. split; [now right | intros [-> | H]; assumption].
  - rewrite in_app_iff. simpl. intuition congruence.
Qed.

Lemma set_add_new (x : string) (s : list string) :
  ~ In x s -> set_add x s = s ++ [x].
Proof.
  intros H. unfold set_add. apply mem_false in H. now rewrite H.
Qed.

Lemma set_remove_In (x y : string) (s : list string) :
  In y (set_remove x s) <-> In y s /\ y <> x.
Proof.
  unfold set_remove. rewrite filter_In, negb_true_iff, String.eqb_neq.
  intuition congruence.
Qed.

Lemma set_remove_last (x : string) (s : list string) :
  ~ In x s -> set_remove x (s ++ [x]) = s.
Proof.
  intros H. unfold set_remove. rewrite filter_app. simpl.
  rewrite String.eqb_refl. simpl. rewrite app_nil_r.
  induction s as [|y s IH]; simpl; [reflexivity|].
  destruct (String.eqb x y) eqn:E.
  - apply String.eqb_eq in E. subst. exfalso. apply H. now left.
  - simpl. f_equal. apply IH. intros Hin. apply H. now right.
Qed.

Lemma issubset_incl (a b : list string) : issubset a b = true <-> incl a b.
Proof.
  unfold issubset, incl. rewrite forallb_forall.
  split; intros H x Hx; apply mem_In; auto.
Qed.

Lemma get_In {V : Type} (d : dict V) (k : string) (v : V) :
  get d k = Some v -> In (k, v) d.
Proof.
  induction d as [|[k' v'] d IH]; simpl; [discriminate|].
  destruct (String.eqb k' k) eqn:E.
  - apply String.eqb_eq in E. intros [= ->]. subst. now left.
  - intros H. right. auto.
Qed.

Lemma get_None {V : Type} (d : dict V) (k : string) :
  get d k = None <-> ~ In k (keys d).
Proof.
  induction d as [|[k' v'] d IH]; simpl; [tauto|].
  destruct (String.eqb k' k) eqn:E.
  - apply String.eqb_eq in E. subst. split; [discriminate | tauto].
  - apply String.eqb_neq in E. rewrite IH. tauto.
Qed.

Lemma get_Some_key {V : Type} (d : dict V) (k : string) :
  In k (keys d) <-> exists v, get d k = Some v.
Proof.
  destruct (get d k) eqn:E.
  - split; [eauto|]. intros _. apply get_In in E.
    unfold keys. apply in_map_iff. now exists (k, v).
  - apply get_None in E. split; [tauto | intros [v Hv]; discriminate].
Qed.

Lemma In_get {V : Type} (d : dict V) (k : string) (v : V) :
  dict_wf d -> In (k, v) d -> get d k = Some v.
Proof.
  unfold dict_wf, keys.
  induction d as [|[k' v'] d IH]; simpl; [tauto|].
  intros Hnd Hin. inversion Hnd as [|? ? Hni Hnd']; subst.
  destruct Hin as [[= -> ->] | Hin].
  - now rewrite String.eqb_refl.
  - destruct (String.eqb k' k) eqn:E.
    + apply String.eqb_eq in E. subst. exfalso. apply Hni.
      apply in_map_iff. now exists (k, v).
    + auto.
Qed.

Lemma get_app {V : Type} (d d' : dict V) (k : string) :
  get (d ++ d') k = match get d k with Some v => Some v | None => get d' k end.
Proof.
  induction d as [|[k' v'] d IH]; simpl; [reflexivity|].
  now destruct (String.eqb k' k).
Qed.

Lemma bind_Ok {A B : Type} (r : result A) (k : A -> result B) (b : B) :
  bind r k = Ok b -> exists a, r = Ok a /\ k a = Ok b.
Proof.
  destruct r; simpl; try discriminate. eauto.
Qed.

(** ** Construction: the two loops of [__init__] *)

Lemma register_tasks_app (prec : precedence_dict) (ts1 rest : list Task) :
  forall (task_names : list string) (table : dict Task),
  all_have_entry ts1 prec ->
  NoDup (task_names ++ map name ts1) ->
  register_tasks prec (ts1 ++ rest) task_names table =
  register_tasks prec rest (task_names ++ map name ts1)
    (table ++ map (fun t => (name t, t)) ts1).
Proof.
  induction ts1 as [|t ts1 IH]; intros task_names table He Hnd; simpl.
  - now rewrite !app_nil_r.
  - destruct (get prec (name t)) eqn:E.
    2:{ exfalso. apply (He t); [now left | assumption]. }
    assert (Hni : ~ In (name t) task_names).
    { simpl in Hnd. apply NoDup_remove_2 in Hnd. intros H. apply Hnd.
      apply in_app_iff. now left. }
    pose proof Hni as Hm. apply mem_false in Hm. rewrite Hm.
    rewrite (set_add_new _ _ Hni). rewrite IH.
    + now rewrite <- !app_assoc.
    + intros u Hu. apply He. now right.
    + rewrite <- app_assoc. exact Hnd.
Qed.

Lemma register_tasks_Ok (prec : precedence_dict) (ts : list Task) :
  all_have_entry ts prec -> names_distinct ts ->
  register_tasks prec ts [] [] = Ok (map (fun t => (name t, t)) ts).
Proof.
  intros He Hnd.
  pose proof (register_tasks_app prec ts [] [] [] He Hnd) as H.
  now rewrite app_nil_r in H.
Qed.

Lemma register_tasks_inv (prec : precedence_dict) (ts : list Task) :
  forall (task_names : list string) (table table' : dict Task),
  register_tasks prec ts task_names table = Ok table' ->
  NoDup task_names ->
  table' = table ++ map (fun t => (name t, t)) ts /\
  all_have_entry ts prec /\ NoDup (task_names ++ map name ts).
Proof.
  induction ts as [|t ts IH]; intros task_names table table' H Hnd; simpl in *.
  - injection H as <-. rewrite !app_nil_r. repeat split; [|assumption].
    intros t [].
  - destruct (get prec (name t)) eqn:E; [|discriminate].
    destruct (mem (name t) task_names) eqn:Em; [discriminate|].
    apply mem_false in Em. rewrite (set_add_new _ _ Em) in H.
    apply IH in H.
    + destruct H as (-> & He & Hnd'). rewrite <- !app_assoc in *.
      repeat split; [|assumption].
      intros u [<- | Hu]; [congruence | now apply He].
    + apply NoDup_app; [assumption | repeat constructor; intros [] |].
      intros x Hx [<- | []]. contradiction.
Qed.

Lemma keys_table (ts : list Task) :
  keys (map (fun t => (name t, t)) ts) = map name ts.
Proof.
  unfold keys. rewrite map_map. reflexivity.
Qed.

Lemma check_precedence_keys_Ok (table : dict Task) (ks : list string) :
  (forall k, In k ks -> In k (keys table)) ->
  check_precedence_keys table ks = Ok tt.
Proof.
  induction ks as [|k ks IH]; intros H; simpl; [reflexivity|].
  destruct (get table k) eqn:E.
  - apply IH. intros k' Hk'. apply H. now right.
  - apply get_None in E. exfalso. apply E, H. now left.
Qed.

Lemma check_precedence_keys_inv (table : dict Task) (ks : list string) :
  check_precedence_keys table ks = Ok tt ->
  forall k, In k ks -> In k (keys table).
Proof.
  induction ks as [|k ks IH]; simpl; intros H k' Hk'; [contradiction|].
  destruct (get table k) eqn:E; [|discriminate].
  destruct Hk' as [<- | Hk']; [|now apply IH].
  apply get_Some_key. eauto.
Qed.

(** ** The depth-first cycle check *)

Section CycleCheck.

Variable deps : dict (list string).

(** Every member of a set of [dependencies] is itself a key. *)
Hypothesis deps_closed :
  forall u v, successor deps u v -> In v (keys deps).

Local Abbreviation succ := (successor deps).
Local Notation "x -->+ y" := (clos_trans string (successor deps) x y)
  (at level 70).
Local Notation "x -->* y" := (clos_refl_trans string (successor deps) x y)
  (at level 70).

Lemma black_reach (st : dfs_state) (x y : string) :
  dfs_inv deps st -> black st x -> x -->+ y -> black st y.
Proof.
  intros Hinv Hb Hp. induction Hp as [x y H | x y z _ IH1 _ IH2].
  - eapply inv_black_closed; eassumption.
  - auto.
Qed.

Lemma black_mono (st st' : dfs_state) (x : string) :
  incl (fst st) (fst st') -> snd st' = snd st -> black st x -> black st' x.
Proof.
  unfold black. intros Hi He [H1 H2]. rewrite He. split; auto.
Qed.

(** Entering a node: it joins [visited] and [stack]; no node turns black. *)
Lemma dfs_inv_enter (u : string) (st : dfs_state) :
  dfs_inv deps st -> In u (keys deps) -> ~ In u (fst st) ->
  dfs_inv deps (fst st ++ [u], snd st ++ [u]) /\
  (forall x, black (fst st ++ [u], snd st ++ [u]) x <-> black st x).
Proof.
  intros Hinv Hk Hv.
  assert (Hs : ~ In u (snd st)).
  { intros H. apply Hv. now apply (inv_stack_visited _ _ Hinv). }
  assert (Hb : forall x, black (fst st ++ [u], snd st ++ [u]) x <-> black st x).
  { intros x. unfold black. simpl. rewrite !in_app_iff. simpl.
    split.
    - intros [[H1 | [<- | []]] H2]; [tauto|]. exfalso. apply H2. tauto.
    - intros [H1 H2]. split; [tauto|].
      intros [H | [<- | []]]; tauto. }
  split; [|exact Hb].
  constructor; simpl.
  - intros x Hx. apply in_app_iff in Hx. apply in_app_iff.
    destruct Hx as [Hx | Hx]; [left | now right].
    now apply (inv_stack_visited _ _ Hinv).
  - apply NoDup_app; [apply (inv_stack_nodup _ _ Hinv)
                     | repeat constructor; intros [] |].
    intros x Hx [<- | []]. contradiction.
  - intros x Hx. apply in_app_iff in Hx.
    destruct Hx as [Hx | [<- | []]]; [|assumption].
    now apply (inv_stack_keys _ _ Hinv).
  - intros x y Hx Hxy. apply Hb. apply Hb in Hx.
    eapply inv_black_closed; eassumption.
  - intros x Hx. apply Hb in Hx. now apply (inv_black_acyclic _ _ Hinv).
Qed.

(** Leaving a node all of whose successors are black: it turns black, and
    no cycle runs through it. *)
Lemma dfs_inv_leave (u : string) (V S : list string) :
  dfs_inv deps (V, S ++ [u]) -> ~ In u S ->
  (forall v, succ u v -> black (V, S ++ [u]) v) ->
  dfs_inv deps (V, S).
Proof.
  intros Hinv Hu Hsucc.
  assert (HuV : In u V).
  { apply (inv_stack_visited _ _ Hinv). simpl. apply in_app_iff.
    right. now left. }
  assert (Hb : forall x, black (V, S) x <-> black (V, S ++ [u]) x \/ x = u).
  { intros x. unfold black. simpl. rewrite in_app_iff. simpl.
    destruct (string_dec x u) as [-> | Hne]; [tauto|].
    split.
    - intros [H1 H2]. left. split; [assumption|].
      intros [H | [H | []]]; [tauto | congruence].
    - intros [[H1 H2] | H]; [tauto | contradiction]. }
  constructor; simpl.
  - intros x Hx. apply (inv_stack_visited _ _ Hinv). simpl.
    apply in_app_iff. now left.
  - pose proof (inv_stack_nodup _ _ Hinv) as H. simpl in H.
    now apply NoDup_app_remove_r in H.
  - intros x Hx. apply (inv_stack_keys _ _ Hinv). simpl.
    apply in_app_iff. now left.
  - intros x y Hx Hxy. apply Hb. left. apply Hb in Hx.
    destruct Hx as [Hx | ->]; [|now apply Hsucc].
    eapply inv_black_closed; eassumption.
  - intros x Hx Hcyc. apply Hb in Hx. destruct Hx as [Hx | ->].
    + now apply (inv_black_acyclic _ _ Hinv x).
    + apply clos_trans_t1n in Hcyc.
      assert (Hnb : ~ black (V, S ++ [u]) u).
      { unfold black. simpl. rewrite in_app_iff. simpl. tauto. }
      inversion Hcyc as [y H | y z H Hrest]; subst.
      * apply Hnb. now apply Hsucc.
      * apply Hnb. apply (black_reach _ y u Hinv); [now apply Hsucc|].
        now apply clos_t1n_trans.
Qed.

Lemma dfs_successors_correct (f : nat) (u : string) (S : list string)
    (IH : forall v st, dfs_pre deps f v st ->
                       dfs_post deps v st (dfs_cycle_check f deps v st)) :
  ~ In u S -> In u (keys deps) ->
  (forall s, In s (S ++ [u]) -> s -->* u) ->
  length (keys deps) < f + length (S ++ [u]) ->
  forall (succs : list string) (st1 : dfs_state),
  dfs_inv deps st1 -> snd st1 = S ++ [u] ->
  (forall v, In v succs -> succ u v) ->
  (forall v, succ u v -> In v succs \/ black st1 v) ->
  exists found st',
    dfs_successors (dfs_cycle_check f deps) u succs st1 = Ok (found, st') /\
    (found = true -> exists x, x -->+ x) /\
    (found = false ->
       dfs_inv deps st' /\ snd st' = S /\ incl (fst st1) (fst st')).
Proof.
  intros HuS Huk Hpath Hfuel.
  induction succs as [|v rest IHl]; intros st1 Hinv Hst Hin Hall; simpl.
  - exists false, (fst st1, set_remove u (snd st1)).
    split; [reflexivity|]. split; [discriminate|]. intros _.
    rewrite Hst, (set_remove_last _ _ HuS). simpl.
    split; [|split; [reflexivity | apply incl_refl]].
    apply dfs_inv_leave with (u := u); [|assumption|].
    + rewrite <- Hst. now destruct st1.
    + intros v Hv. destruct (Hall v Hv) as [[] | Hb].
      rewrite <- Hst. now destruct st1.
  - assert (Huv : succ u v) by (apply Hin; now left).
    destruct (mem v (fst st1)) eqn:Ev; simpl.
    + apply mem_In in Ev.
      destruct (mem v (snd st1)) eqn:Es.
      * apply mem_In in Es. exists true, st1.
        split; [reflexivity|]. split; [|discriminate]. intros _.
        exists v. rewrite Hst in Es.
        eapply clos_rt_t; [apply Hpath; exact Es | now apply t_step].
      * apply mem_false in Es. apply IHl; try assumption.
        -- intros w Hw. apply Hin. now right.
        -- intros w Hw. destruct (Hall w Hw) as [[<- | Hw'] | Hb]; auto.
           right. split; assumption.
    + apply mem_false in Ev.
      assert (Hpre : dfs_pre deps f v st1).
      { split; [assumption|]. split; [eapply deps_closed; eassumption|].
        split; [assumption|]. split; [|now rewrite Hst].
        intros s Hs. rewrite Hst in Hs.
        eapply rt_trans; [apply Hpath; exact Hs | now apply rt_step]. }
      destruct (IH v st1 Hpre) as (found & st' & -> & Ht & Hf). simpl.
      destruct found.
      * exists true, st'. split; [reflexivity|]. split; [auto | discriminate].
      * destruct (Hf eq_refl) as (Hinv' & Hst' & Hincl & Hv').
        destruct (IHl st') as (found & st'' & -> & Ht' & Hf');
          try assumption.
        -- now rewrite Hst'.
        -- intros w Hw. apply Hin. now right.
        -- intros w Hw. destruct (Hall w Hw) as [[<- | Hw'] | Hb]; auto.
           ++ right. split; [assumption|]. rewrite Hst'.
              intros Hc. apply Ev.
              now apply (inv_stack_visited _ _ Hinv).
           ++ right. eapply black_mono; eassumption.
        -- exists found, st''. split; [reflexivity|]. split; [assumption|].
           intros E. destruct (Hf' E) as (? & ? & ?).
           split; [assumption|]. split; [assumption|].
           eapply incl_tran; eassumption.
Qed.

Lemma dfs_cycle_check_correct (fuel : nat) :
  forall u st, dfs_pre deps fuel u st ->
               dfs_post deps u st (dfs_cycle_check fuel deps u st).
Proof.
  induction fuel as [|f IH]; intros u st (Hinv & Huk & Huv & Hpath & Hfuel).
  - exfalso.
    assert (HuS : ~ In u (snd st)).
    { intros H. apply Huv. now apply (inv_stack_visited _ _ Hinv). }
    destruct (dfs_inv_enter u st Hinv Huk Huv) as [Hinv1 _].
    pose proof (NoDup_incl_length (inv_stack_nodup _ _ Hinv1)
                  (inv_stack_keys _ _ Hinv1)) as Hlen.
    simpl in Hlen. rewrite length_app in Hlen. simpl in *. lia.
  - assert (HuS : ~ In u (snd st)).
    { intros H. apply Huv. now apply (inv_stack_visited _ _ Hinv). }
    destruct (dfs_inv_enter u st Hinv Huk Huv) as [Hinv1 Hb1].
    simpl. rewrite (set_add_new _ _ Huv), (set_add_new _ _ HuS).
    destruct (get deps u) as [succs|] eqn:E.
    2:{ apply get_None in E. contradiction. }
    destruct (dfs_successors_correct f u (snd st) IH HuS Huk) with
      (succs := succs) (st1 := (fst st ++ [u], snd st ++ [u]))
      as (found & st' & -> & Ht & Hf); try assumption; try reflexivity.
    + intros s Hs. apply in_app_iff in Hs.
      destruct Hs as [Hs | [<- | []]]; [now apply Hpath | apply rt_refl].
    + rewrite length_app. simpl. lia.
    + intros v Hv. exists succs. now split.
    + intros v [l [Hl Hv]]. left. congruence.
    + exists found, st'. split; [reflexivity|]. split; [assumption|].
      intros Ef. destruct (Hf Ef) as (Hinv' & Hst' & Hincl).
      simpl in Hincl.
      split; [assumption|]. split; [assumption|]. split.
      * intros x Hx. apply Hincl, in_app_iff. now left.
      * apply Hincl, in_app_iff. right. now left.
Qed.

Lemma dfs_inv_init : dfs_inv deps ([], []).
Proof.
  constructor; simpl.
  - intros x [].
  - constructor.
  - intros x [].
  - intros x y [[] _].
  - intros x [[] _].
Qed.

Lemma check_roots_correct (fuel : nat) :
  length (keys deps) < fuel ->
  forall (roots : list string) (st : dfs_state),
  dfs_inv deps st -> snd st = [] -> incl roots (keys deps) ->
  (check_roots fuel deps roots st =
     Raise (InvalidPrecedenceDictError "Precedence dictionary contains a cycle")
   /\ exists x, x -->+ x)
  \/
  (check_roots fuel deps roots st = Ok tt /\
   exists st', dfs_inv deps st' /\ snd st' = [] /\
               incl (fst st) (fst st') /\ incl roots (fst st')).
Proof.
  intros Hfuel.
  induction roots as [|r roots IH]; intros st Hinv Hst Hk; simpl.
  - right. split; [reflexivity|]. exists st.
    split; [assumption|]. split; [assumption|].
    split; [apply incl_refl | intros x []].
  - assert (Hk' : incl roots (keys deps)).
    { intros x Hx. apply Hk. now right. }
    destruct (mem r (fst st)) eqn:Er; simpl.
    + apply mem_In in Er.
      destruct (IH st Hinv Hst Hk') as [H | (H & st' & H1 & H2 & H3 & H4)];
        [now left | right].
      split; [assumption|]. exists st'.
      split; [assumption|]. split; [assumption|]. split; [assumption|].
      intros x [<- | Hx]; [now apply H3 | now apply H4].
    + apply mem_false in Er.
      assert (Hpre : dfs_pre deps fuel r st).
      { split; [assumption|]. split; [apply Hk; now left|].
        split; [assumption|]. rewrite Hst. split; [intros s []|].
        simpl. lia. }
      destruct (dfs_cycle_check_correct fuel r st Hpre)
        as (found & st1 & -> & Ht & Hf). simpl.
      destruct found.
      * left. split; [reflexivity | auto].
      * destruct (Hf eq_refl) as (Hinv1 & Hst1 & Hincl & Hr).
        rewrite Hst in Hst1.
        destruct (IH st1 Hinv1 Hst1 Hk')
          as [H | (H & st' & H1 & H2 & H3 & H4)]; [now left | right].
        split; [assumption|]. exists st'.
        split; [assumption|]. split; [assumption|]. split.
        -- eapply incl_tran; eassumption.
        -- intros x [<- | Hx]; [now apply H3 | now apply H4].
Qed.

(** The loop over the roots either reports a cycle that exists, or ends
    normally on a graph that has none. *)
Lemma check_roots_cases :
  (check_roots (S (length deps)) deps (keys deps) ([], []) =
     Raise (InvalidPrecedenceDictError "Precedence dictionary contains a cycle")
   /\ exists x, x -->+ x)
  \/
  (check_roots (S (length deps)) deps (keys deps) ([], []) = Ok tt /\
   forall x, ~ x -->+ x).
Proof.
  assert (Hlen : length (keys deps) < S (length deps)).
  { unfold keys. rewrite length_map. lia. }
  destruct (check_roots_correct _ Hlen (keys deps) ([], []) dfs_inv_init
              eq_refl (incl_refl _))
    as [[H Hc] | (H & st' & Hinv & Hst & _ & Hall)].
  - left. now split.
  - right. split; [assumption|]. intros x Hx.
    apply (inv_black_acyclic _ _ Hinv x); [|assumption].
    split; [|rewrite Hst; intros []].
    apply Hall. apply clos_trans_t1n in Hx.
    apply get_Some_key.
    inversion Hx as [y [l [Hl _]] | y z [l [Hl _]] _]; eauto.
Qed.

(** The loop over the roots raises exactly when the graph has a cycle. *)
Lemma check_roots_decides :
  ((exists x, x -->+ x) ->
   check_roots (S (length deps)) deps (keys deps) ([], []) =
   Raise (InvalidPrecedenceDictError "Precedence dictionary contains a cycle"))
  /\
  ((forall x, ~ x -->+ x) ->
   check_roots (S (length deps)) deps (keys deps) ([], []) = Ok tt).
Proof.
  destruct check_roots_cases as [[H Hc] | [H Ha]].
  - split; [intros _; exact H|]. intros Hac. destruct Hc as [x Hx].
    now apply Hac in Hx.
  - split; [|intros _; exact H]. intros [x Hx]. now apply Ha in Hx.
Qed.

End CycleCheck.

(** ** Building the successor graph *)

Lemma get_add_node (k k' : string) (d : dict (list string)) :
  get (add_node k d) k' =
  match get d k' with
  | Some s => Some s
  | None => if String.eqb k k' then Some [] else None
  end.
Proof.
  unfold add_node. destruct (get d k) eqn:E.
  - destruct (get d k') eqn:E'; [reflexivity|].
    destruct (String.eqb k k') eqn:Ek; [|reflexivity].
    apply String.eqb_eq in Ek. congruence.
  - rewrite get_app. simpl. now destruct (get d k').
Qed.

Lemma get_add_to (k x k' : string) (d : dict (list string)) :
  get (add_to k x d) k' =
  if String.eqb k k' then option_map (set_add x) (get d k') else get d k'.
Proof.
  induction d as [|[k1 s] d IH]; simpl.
  - now destruct (String.eqb k k').
  - destruct (String.eqb k1 k) eqn:E1; simpl.
    + apply String.eqb_eq in E1. subst k1.
      now destruct (String.eqb k k').
    + rewrite IH. destruct (String.eqb k1 k') eqn:E2; [|reflexivity].
      apply String.eqb_eq in E2. subst k1. now rewrite String.eqb_sym, E1.
Qed.

Lemma successor_add (k x u v : string) (d : dict (list string)) :
  successor (add_to k x (add_node k d)) u v <->
  successor d u v \/ (u = k /\ v = x).
Proof.
  unfold successor. rewrite get_add_to, get_add_node.
  destruct (String.eqb k u) eqn:E.
  - apply String.eqb_eq in E. subst u.
    destruct (get d k) as [s|]; simpl.
    + split.
      * intros [l [[= <-] Hv]]. apply set_add_In in Hv.
        destruct Hv as [-> | Hv]; [now right | left; eauto].
      * intros [[l [[= <-] Hv]] | [_ ->]];
          (eexists; split; [reflexivity|]); apply set_add_In; auto.
    + split.
      * intros [l [[= <-] Hv]]. apply set_add_In in Hv.
        destruct Hv as [-> | []]. now right.
      * intros [[l [[=] _]] | [_ ->]].
        eexists; split; [reflexivity|]. apply set_add_In. now left.
  - apply String.eqb_neq in E.
    destruct (get d u) as [s|]; split; try tauto.
    + intros [H | [H _]]; [assumption | congruence].
    + intros [H | [H _]]; [assumption | congruence].
Qed.

Lemma key_add (k x k' : string) (d : dict (list string)) :
  In k' (keys (add_to k x (add_node k d))) <-> In k' (keys d) \/ k' = k.
Proof.
  rewrite !get_Some_key, get_add_to, get_add_node.
  destruct (String.eqb k k') eqn:E.
  - apply String.eqb_eq in E. subst k'.
    destruct (get d k); simpl; split; eauto.
  - apply String.eqb_neq in E.
    destruct (get d k'); split; eauto.
    + intros [[v [=]] | H]; congruence.
Qed.

Lemma key_add_node (k k' : string) (d : dict (list string)) :
  In k' (keys (add_node k d)) <-> In k' (keys d) \/ k' = k.
Proof.
  rewrite !get_Some_key, get_add_node.
  destruct (get d k') eqn:E'.
  - split; eauto.
  - destruct (String.eqb k k') eqn:E.
    + apply String.eqb_eq in E. split; eauto.
    + apply String.eqb_neq in E. split.
      * intros [v [=]].
      * intros [[v [=]] | H]. congruence.
Qed.

Lemma successor_add_node (k u v : string) (d : dict (list string)) :
  successor (add_node k d) u v <-> successor d u v.
Proof.
  unfold successor. rewrite get_add_node.
  destruct (get d u); [tauto|].
  destruct (String.eqb k u); split.
  - intros [l [[= <-] []]].
  - intros [l [[=] _]].
  - intros [l [[=] _]].
  - intros [l [[=] _]].
Qed.

Lemma add_dependents_spec (task : string) (ps : list string) :
  forall d : dict (list string),
  (forall u v, successor (add_dependents task ps d) u v <->
               successor d u v \/ (In u ps /\ v = task)) /\
  (forall k, In k (keys (add_dependents task ps d)) <->
             In k (keys d) \/ In k ps).
Proof.
  induction ps as [|p ps IH]; intros d; simpl.
  - split; intros; tauto.
  - destruct (IH (add_to p task (add_node p d))) as [IH1 IH2]. split.
    + intros u v. rewrite IH1, successor_add. intuition (subst; auto).
    + intros k. rewrite IH2, key_add. intuition (subst; auto).
Qed.

(** [__validate_precedence_dict] up to the traversal: either an entry lists
    its own key and the self-dependency is reported, or the successor graph
    is the reverse of the entries. *)
Lemma build_dependencies_spec (items : precedence_dict) :
  forall d : dict (list string),
  (exists t ps,
     In (t, ps) items /\ In t ps /\
     build_dependencies items d =
     Raise (InvalidPrecedenceDictError
              ("Task " ++ t ++ " cannot depend on itself")))
  \/
  ((forall t ps, In (t, ps) items -> ~ In t ps) /\
   exists d', build_dependencies items d = Ok d' /\
     (forall u v, successor d' u v <->
                  successor d u v \/ exists ps, In (v, ps) items /\ In u ps) /\
     (forall k, In k (keys d') <->
                In k (keys d) \/ In k (keys items) \/
                exists t ps, In (t, ps) items /\ In k ps)).
Proof.
  induction items as [|[t ps] items IH]; intros d; simpl.
  - right. split; [intros t ps []|]. exists d. split; [reflexivity|].
    split.
    + intros u v. split; [tauto | intros [H | [ps [[] _]]]; assumption].
    + intros k. split; [tauto|].
      intros [H | [[] | (t & ps & [] & _)]]. assumption.
  - destruct (mem t ps) eqn:E.
    + apply mem_In in E. left. exists t, ps. auto.
    + apply mem_false in E.
      destruct (add_dependents_spec t ps (add_node t d)) as [A1 A2].
      destruct (IH (add_dependents t ps (add_node t d)))
        as [(t' & ps' & H1 & H2 & H3) | (Hns & d' & H1 & H2 & H3)].
      * left. exists t', ps'. auto.
      * right. split.
        { intros t' ps' [[= <- <-] | H]; [assumption | now apply Hns]. }
        exists d'. split; [assumption|]. split.
        -- intros u v. rewrite H2, A1, successor_add_node. split.
           ++ intros [[H | [H ->]] | (ps' & H & H')]; eauto.
           ++ intros [H | (ps' & [[= <- <-] | H] & H')]; eauto.
        -- intros k. rewrite H3, A2, key_add_node. split.
           ++ intros [[[H | ->] | H] | [H | (t' & ps' & H & H')]]; eauto 7.
           ++ intros [H | [[<- | H] | (t' & ps' & [[= <- <-] | H] & H')]];
                eauto 7.
Qed.

Lemma direct_pred_In (prec : precedence_dict) (a b : string) :
  dict_wf prec ->
  (direct_pred prec a b <-> exists ps, In (a, ps) prec /\ In b ps).
Proof.
  intros Hwf. unfold direct_pred. split; intros (ps & H & Hb); exists ps.
  - split; [now apply get_In | assumption].
  - split; [now apply In_get | assumption].
Qed.

Lemma cycle_transp (R : relation string) (x : string) :
  clos_trans string (fun u v => R v u) x x <-> clos_trans string R x x.
Proof.
  pose proof (clos_trans_transp_permute string R x x) as H.
  unfold transp in H. symmetry. exact H.
Qed.

Lemma clos_trans_ext (R R' : relation string) :
  (forall x y, R x y <-> R' x y) ->
  forall x y, clos_trans string R x y <-> clos_trans string R' x y.
Proof.
  intros H x y. split; intros Hc;
    (induction Hc; [apply t_step; now apply H | eapply t_trans; eassumption]).
Qed.

(** [__validate_precedence_dict] raises exactly on the cyclic dictionaries. *)
Lemma validate_precedence_dict_spec (prec : precedence_dict) :
  dict_wf prec ->
  (cyclic prec ->
   exists msg,
     validate_precedence_dict prec = Raise (InvalidPrecedenceDictError msg))
  /\ (acyclic prec -> validate_precedence_dict prec = Ok tt).
Proof.
  intros Hwf. unfold validate_precedence_dict.
  destruct (build_dependencies_spec prec [])
    as [(t & ps & H1 & H2 & ->) | (Hns & d' & -> & Hs & Hk)]; simpl.
  - split; [eauto|]. intros Hac. exfalso. apply (Hac t).
    apply t_step. apply direct_pred_In; eauto.
  - assert (Hrel : forall u v, successor d' u v <-> direct_pred prec v u).
    { intros u v. rewrite Hs, direct_pred_In by assumption.
      split; [intros [[l [[=] _]] | H]; assumption | auto]. }
    assert (Hclosed : forall u v, successor d' u v -> In v (keys d')).
    { intros u v Huv. apply Hk. right. left.
      apply Hrel in Huv. destruct Huv as (ps & Hg & _).
      apply get_Some_key. eauto. }
    assert (Hcyc : forall x, clos_trans string (successor d') x x <->
                             trans_pred prec x x).
    { intros x. unfold trans_pred. rewrite <- cycle_transp.
      apply clos_trans_ext. intros a b. apply Hrel. }
    destruct (check_roots_decides d' Hclosed) as [Hc Ha]. split.
    + intros [x Hx]. rewrite Hc; [eauto|]. exists x. now apply Hcyc.
    + intros Hac. apply Ha. intros x Hx. apply (Hac x). now apply Hcyc.
Qed.

(** The outcome of the traversal does not depend on the order in which the
    keys of [dependencies] and the members of its sets are iterated: two
    dictionaries that describe the same graph give the same outcome. *)
Lemma check_roots_iteration_order (d d' : dict (list string)) :
  (forall u v, successor d u v -> In v (keys d)) ->
  (forall u v, successor d' u v -> In v (keys d')) ->
  (forall u v, successor d u v <-> successor d' u v) ->
  check_roots (S (length d)) d (keys d) ([], []) =
  check_roots (S (length d')) d' (keys d') ([], []).
Proof.
  intros Hc Hc' Hsame.
  assert (Hcyc : forall x, clos_trans string (successor d) x x <->
                           clos_trans string (successor d') x x).
  { intros x. now apply clos_trans_ext. }
  destruct (check_roots_cases d Hc) as [[-> [x Hx]] | [-> Ha]];
    destruct (check_roots_decides d' Hc') as [Hr Ho].
  - symmetry. apply Hr. exists x. now apply Hcyc.
  - symmetry. apply Ho. intros x Hx. apply (Ha x). now apply Hcyc.
Qed.

(** ** Construction as a whole *)

Lemma init_Ok (ts : list Task) (prec : precedence_dict) :
  dict_wf prec -> all_have_entry ts prec -> names_distinct ts ->
  keys_registered ts prec -> acyclic prec ->
  TaskSystem_init ts prec = Ok (mkTaskSystem (task_table ts) prec true).
Proof.
  intros Hwf He Hd Hk Ha. unfold TaskSystem_init.
  rewrite (register_tasks_Ok _ _ He Hd). simpl.
  rewrite check_precedence_keys_Ok.
  2:{ intros k Hin. rewrite keys_table. now apply Hk. }
  simpl. destruct (validate_precedence_dict_spec prec Hwf) as [_ H].
  now rewrite (H Ha).
Qed.


Lemma check_precedence_keys_Raise (table : dict Task) (ks : list string) :
  (exists k, In k ks /\ ~ In k (keys table)) ->
  exists k, In k ks /\ ~ In k (keys table) /\
            check_precedence_keys table ks = Raise (TaskNotFoundError k).
Proof.
  induction ks as [|k ks IH]; intros (k' & Hin & Hk'); [destruct Hin|].
  simpl. destruct (get table k) eqn:E.
  - destruct IH as (k1 & H1 & H2 & H3).
    { destruct Hin as [<- | Hin]; [|eauto].
      exfalso. apply Hk', get_Some_key. eauto. }
    exists k1. split; [now right | now split].
  - exists k. apply get_None in E. split; [now left | now split].
Qed.

(** A key of the precedence dictionary that is not a task is reported. *)
Lemma init_unregistered_key (ts : list Task) (prec : precedence_dict) :
  all_have_entry ts prec -> names_distinct ts ->
  (exists k, In k (keys prec) /\ ~ registered ts k) ->
  exists k, In k (keys prec) /\ ~ registered ts k /\
            TaskSystem_init ts prec = Raise (TaskNotFoundError k).
Proof.
  intros He Hd Hk. unfold TaskSystem_init.
  rewrite (register_tasks_Ok _ _ He Hd). simpl.
  destruct (check_precedence_keys_Raise (task_table ts) (keys prec))
    as (k & H1 & H2 & H3).
  { destruct Hk as (k & H1 & H2). exists k. split; [assumption|].
    now rewrite keys_table. }
  exists k. unfold task_table in H3. rewrite H3. simpl.
  rewrite keys_table in H2. auto.
Qed.

(** What a successful construction tells about its arguments. *)
Lemma init_inv (ts : list Task) (prec : precedence_dict) (sys : TaskSystem) :
  dict_wf prec -> TaskSystem_init ts prec = Ok sys ->
  sys = mkTaskSystem (task_table ts) prec true /\
  all_have_entry ts prec /\ names_distinct ts /\
  keys_registered ts prec /\ acyclic prec.
Proof.
  intros Hwf H. unfold TaskSystem_init in H.
  apply bind_Ok in H. destruct H as (table & Hr & H).
  apply bind_Ok in H. destruct H as ([] & Hc & H).
  apply bind_Ok in H. destruct H as ([] & Hv & [= <-]).
  apply register_tasks_inv in Hr; [|constructor].
  destruct Hr as (-> & He & Hd). simpl in *.
  repeat split; try assumption.
  - intros k Hin. unfold registered. rewrite <- keys_table.
    eapply check_precedence_keys_inv; eassumption.
  - intros a Hcyc.
    destruct (validate_precedence_dict_spec prec Hwf) as [Hraise _].
    destruct Hraise as [msg Hmsg]; [now exists a | congruence].
Qed.

Lemma validate_Ok_acyclic (prec : precedence_dict) :
  dict_wf prec -> validate_precedence_dict prec = Ok tt -> acyclic prec.
Proof.
  intros Hwf H a Hcyc.
  destruct (validate_precedence_dict_spec prec Hwf) as [Hraise _].
  destruct Hraise as [msg Hmsg]; [now exists a | congruence].
Qed.

Lemma dict_wf_decide {V : Type} (d : dict V) :
  (fix distinct (l : list string) : bool :=
     match l with
     | [] => true
     | x :: l' => negb (mem x l') && distinct l'
     end) (keys d) = true -> dict_wf d.
Proof.
  unfold dict_wf. induction (keys d) as [|x l IH]; intros H.
  - constructor.
  - apply andb_prop in H. destruct H as [H1 H2].
    apply negb_true_iff, mem_false in H1. constructor; auto.
Qed.

(** The scenario of the test suite satisfies the invariants. *)
Lemma scenario_valid : valid_input Scenario.all_tasks Scenario.prec.
Proof.
  assert (Hwf : dict_wf Scenario.prec) by (now apply dict_wf_decide).
  constructor.
  - exact Hwf.
  - intros t Ht. simpl in Ht.
    repeat (destruct Ht as [<- | Ht]; [discriminate|]). destruct Ht.
  - apply (dict_wf_decide (task_table Scenario.all_tasks)). reflexivity.
  - intros k Hk. exact Hk.
  - intros a b (ps & Hg & Hb). apply get_In in Hg. simpl in Hg.
    unfold registered. simpl.
    repeat (destruct Hg as [[= <- <-] | Hg]; [simpl in Hb; tauto|]).
    destruct Hg.
  - now apply validate_Ok_acyclic.
Qed.

(** ** Dependency resolution *)

Lemma snoc_split {A : Type} (l l1 l2 : list A) (a x : A) :
  l ++ [a] = l1 ++ x :: l2 ->
  (l2 = [] /\ l = l1 /\ a = x) \/
  (exists l2', l2 = l2' ++ [a] /\ l = l1 ++ x :: l2').
Proof.
  destruct l2 as [|y l2] using rev_ind.
  - intros H. left. apply app_inj_tail in H. tauto.
  - clear IHl2. intros H. right. exists l2.
    change (l1 ++ x :: l2 ++ [y]) with (l1 ++ (x :: l2) ++ [y]) in H.
    rewrite app_assoc in H. apply app_inj_tail in H.
    destruct H as [-> ->]. auto.
Qed.

Lemma NoDup_app_inv {A : Type} (l1 l2 : list A) :
  NoDup (l1 ++ l2) ->
  NoDup l1 /\ NoDup l2 /\ forall a, In a l1 -> ~ In a l2.
Proof.
  induction l1 as [|x l1 IH]; simpl; intros H.
  - split; [constructor|]. split; [assumption | intros a []].
  - inversion H as [|? ? Hx Hnd]; subst.
    destruct (IH Hnd) as (H1 & H2 & H3).
    split; [|split; [assumption|]].
    + constructor; [|assumption]. intros Hin. apply Hx, in_app_iff. now left.
    + intros a [<- | Ha]; [|now apply H3].
      intros Hin. apply Hx, in_app_iff. now right.
Qed.

Lemma ordered_nil (prec : precedence_dict) : dependency_ordered prec [].
Proof.
  intros l1 x l2 H. now destruct l1.
Qed.

Lemma ordered_prefix (prec : precedence_dict) (l l' : list string) :
  dependency_ordered prec (l ++ l') -> dependency_ordered prec l.
Proof.
  intros H l1 x l2 -> y Hy. apply (H l1 x (l2 ++ l')); [|assumption].
  now rewrite <- app_assoc.
Qed.

Lemma ordered_closed (prec : precedence_dict) (l : list string) (x y : string) :
  dependency_ordered prec l -> In x l -> trans_pred prec x y -> In y l.
Proof.
  intros H Hx Hy. apply in_split in Hx. destruct Hx as (l1 & l2 & ->).
  apply in_app_iff. left. eapply H; eauto.
Qed.

Lemma ordered_snoc (prec : precedence_dict) (l : list string) (u : string) :
  dependency_ordered prec l ->
  (forall y, trans_pred prec u y -> In y l) ->
  dependency_ordered prec (l ++ [u]).
Proof.
  intros H Hu l1 x l2 E y Hy.
  apply snoc_split in E. destruct E as [(_ & -> & ->) | (l2' & _ & ->)].
  - now apply Hu.
  - eapply H; eauto.
Qed.

(** Positions in a duplicate-free dependency-consistent order: nothing
    depends on what comes after it. *)
Lemma ordered_before (prec : precedence_dict) (l1 l2 l3 : list string)
    (a b : string) :
  NoDup (l1 ++ a :: l2 ++ b :: l3) ->
  dependency_ordered prec (l1 ++ a :: l2 ++ b :: l3) ->
  ~ trans_pred prec a b.
Proof.
  intros Hnd Ho Hab.
  assert (Hb : In b l1) by (eapply Ho; eauto).
  apply NoDup_app_inv in Hnd.
  destruct Hnd as (_ & _ & Hdisj). apply (Hdisj b Hb).
  right. apply in_app_iff. right. now left.
Qed.

Lemma trans_pred_first (prec : precedence_dict) (x y : string) :
  trans_pred prec x y ->
  exists p, direct_pred prec x p /\ (p = y \/ trans_pred prec p y).
Proof.
  intros H. apply clos_trans_t1n in H.
  destruct H as [y H | p y H Hrest]; exists p || exists y; split; auto.
  right. now apply clos_t1n_trans.
Qed.

Lemma r_get_dependencies_unfold (f : nat) (prec : precedence_dict)
    (u : string) (st : deps_state) :
  r_get_dependencies (S f) prec u st =
  if negb (mem u (snd st)) then
    match get prec u with
    | None => Raise TypeError
    | Some subs =>
        st' <- each_sub_dependency (r_get_dependencies f prec) subs st ;;
        Ok (fst st' ++ [u], set_add u (snd st'))
    end
  else Ok st.
Proof.
  simpl. destruct (negb (mem u (snd st))); [|reflexivity].
  destruct (get prec u) as [[|p subs]|]; reflexivity.
Qed.

Section Resolver.

Variable prec : precedence_dict.
Hypothesis prec_acyclic : acyclic prec.
Hypothesis prec_closed : preds_have_entry prec.

Lemma each_sub_dependency_correct (f : nat) (u : string) (anc : list string)
    (IH : forall p st, deps_pre prec f p (u :: anc) st ->
                       deps_post prec p st (r_get_dependencies f prec p st)) :
  NoDup (u :: anc) -> incl (u :: anc) (keys prec) ->
  (forall a, In a anc -> trans_pred prec a u) ->
  length (keys prec) <= f + length (u :: anc) ->
  forall (subs : list string) (st : deps_state),
  deps_inv prec st ->
  (forall p, In p subs -> direct_pred prec u p) ->
  exists new V',
    each_sub_dependency (r_get_dependencies f prec) subs st =
      Ok (fst st ++ new, V') /\
    deps_inv prec (fst st ++ new, V') /\
    (forall x, In x new -> trans_pred prec u x) /\
    (forall p, In p subs -> In p (fst st ++ new)).
Proof.
  intros Hnd Hincl Hanc Hfuel.
  induction subs as [|p subs IHl]; intros st Hinv Hsubs; simpl.
  - exists [], (snd st). rewrite app_nil_r.
    split; [now destruct st|]. split; [now destruct st|].
    split; intros x [].
  - assert (Hup : direct_pred prec u p) by (apply Hsubs; now left).
    assert (Hpre : deps_pre prec f p (u :: anc) st).
    { split; [assumption|]. split; [eapply prec_closed; eassumption|].
      split; [assumption|]. split; [assumption|]. split; [|assumption].
      intros a [<- | Ha]; [now apply t_step|].
      eapply t_trans; [now apply Hanc | now apply t_step]. }
    destruct (IH p st Hpre) as (new1 & V1 & -> & Hinv1 & Hnew1 & Hp & _).
    simpl.
    destruct (IHl (fst st ++ new1, V1) Hinv1)
      as (new2 & V2 & E & Hinv2 & Hnew2 & Hall).
    { intros q Hq. apply Hsubs. now right. }
    simpl in *. rewrite <- app_assoc in *.
    exists (new1 ++ new2), V2. split; [assumption|]. split; [assumption|].
    split.
    + intros x Hx. apply in_app_iff in Hx. destruct Hx as [Hx | Hx]; auto.
      destruct (Hnew1 x Hx) as [-> | Hx']; [now apply t_step|].
      eapply t_trans; [apply t_step; eassumption | assumption].
    + intros q [<- | Hq]; [|now apply Hall].
      rewrite app_assoc. apply in_app_iff. now left.
Qed.

Lemma r_get_dependencies_correct (fuel : nat) :
  forall u anc st, deps_pre prec fuel u anc st ->
                   deps_post prec u st (r_get_dependencies fuel prec u st).
Proof.
  induction fuel as [|f IH];
    intros u anc st (Hinv & Hentry & Hnd & Hincl & Hanc & Hfuel).
  - exfalso.
    assert (Hu : ~ In u anc).
    { intros H. apply (prec_acyclic u). now apply Hanc. }
    assert (Hlen : length (u :: anc) <= length (keys prec)).
    { apply NoDup_incl_length; [now constructor|].
      intros x [<- | Hx]; [|now apply Hincl].
      apply get_Some_key. destruct (get prec u); [eauto | congruence]. }
    simpl in *. lia.
  - rewrite r_get_dependencies_unfold.
    destruct (mem u (snd st)) eqn:Ev; simpl.
    + apply mem_In in Ev. exists [], (snd st). rewrite app_nil_r.
      destruct Hinv as (HV & HD & HO).
      split; [now destruct st|]. split; [now split|].
      split; [intros x []|]. split; [now apply HV|].
      intros Hn. exfalso. now apply Hn, HV.
    + apply mem_false in Ev.
      assert (Hu : ~ In u anc).
      { intros H. apply (prec_acyclic u). now apply Hanc. }
      assert (HuD : ~ In u (fst st)).
      { intros H. apply Ev. now apply Hinv. }
      destruct (get prec u) as [subs|] eqn:E; [|congruence].
      destruct (each_sub_dependency_correct f u anc (fun p => IH p (u :: anc)))
        with (subs := subs) (st := st)
        as (new & V' & -> & (HV & HD & HO) & Hnew & Hall); try assumption.
      * now constructor.
      * intros x [<- | Hx]; [|now apply Hincl].
        apply get_Some_key. eauto.
      * simpl. lia.
      * intros p Hp. exists subs. now split.
      * simpl in *.
        assert (HuD' : ~ In u (fst st ++ new)).
        { intros H. apply in_app_iff in H. destruct H as [H | H]; [tauto|].
          apply (prec_acyclic u). now apply Hnew. }
        exists (new ++ [u]), (set_add u V'). rewrite app_assoc.
        split; [reflexivity|]. split; [|split; [|split]].
        -- split; [|split]; simpl.
           ++ intros x. rewrite set_add_In, HV, !in_app_iff. simpl.
              intuition congruence.
           ++ apply NoDup_app; [assumption | repeat constructor; intros [] |].
              intros x Hx [<- | []]. contradiction.
           ++ apply ordered_snoc; [assumption|].
              intros y Hy. apply trans_pred_first in Hy.
              destruct Hy as (p & (ps & Hps & Hp) & Hy).
              assert (Hin : In p (fst st ++ new)).
              { apply Hall. congruence. }
              destruct Hy as [<- | Hy]; [assumption|].
              eapply ordered_closed; eassumption.
        -- intros x Hx. apply in_app_iff in Hx.
           destruct Hx as [Hx | [<- | []]]; auto.
        -- apply in_app_iff. right. now left.
        -- intros _. now exists new.
Qed.

(** [get_dependencies] on a name with an entry: the transitive predecessors,
    each once, in a dependency-consistent order. *)
Lemma get_dependencies_correct (table : dict Task) (logging : bool)
    (u : string) :
  get prec u <> None ->
  exists l,
    get_dependencies (mkTaskSystem table prec logging) u = Ok l /\
    NoDup l /\ ~ In u l /\
    (forall x, In x l <-> trans_pred prec u x) /\
    dependency_ordered prec l.
Proof.
  intros Hentry. unfold get_dependencies. cbn [precedence].
  destruct (get prec u) as [entry|] eqn:E; [clear Hentry | congruence].
  assert (Hpre : deps_pre prec (S (length prec)) u [] ([], [])).
  { split.
    { split; [tauto|]. split; [constructor | apply ordered_nil]. }
    split; [congruence|]. split; [constructor|]. split; [intros x []|].
    split; [intros a []|]. unfold keys. rewrite length_map. simpl. lia. }
  destruct (r_get_dependencies_correct _ u [] ([], []) Hpre)
    as (new & V' & -> & (HV & HD & HO) & Hnew & Hin & Hlast).
  cbn [bind fst snd app] in *. destruct Hlast as [l ->]; [tauto|].
  exists l. rewrite removelast_last. split; [reflexivity|].
  pose proof HD as HD'. apply NoDup_app_inv in HD'.
  destruct HD' as (Hl & _ & Hdisj).
  assert (Hul : ~ In u l).
  { intros H. apply (Hdisj u H). now left. }
  split; [assumption|]. split; [assumption|]. split.
  - intros x. split.
    + intros Hx. destruct (Hnew x) as [-> | H]; [|contradiction|assumption].
      apply in_app_iff. now left.
    + intros Hx. apply (HO l u [] eq_refl x Hx).
  - eapply ordered_prefix; eassumption.
Qed.

End Resolver.

(** ** The execution queue *)

Lemma trans_pred_entry (prec : precedence_dict) (u x : string) :
  preds_have_entry prec -> trans_pred prec u x -> get prec x <> None.
Proof.
  intros Hc H. apply clos_trans_tn1 in H.
  destruct H as [x H | x z H _]; eapply Hc; eassumption.
Qed.

Section Queue.

Variable sys : TaskSystem.
Hypothesis prec_acyclic : acyclic (precedence sys).
Hypothesis prec_closed : preds_have_entry (precedence sys).

Local Abbreviation prec := (precedence sys).

Lemma get_dependencies_sys (u : string) :
  get prec u <> None ->
  exists l,
    get_dependencies sys u = Ok l /\
    NoDup l /\ ~ In u l /\
    (forall x, In x l <-> trans_pred prec u x) /\
    dependency_ordered prec l.
Proof.
  intros H.
  destruct (get_dependencies_correct prec prec_acyclic prec_closed
              (tasks sys) (LOGING sys) u H) as (l & Hl & Hrest).
  exists l. split; [|assumption]. now destruct sys.
Qed.

Lemma each_dependency_correct (f : nat) (u : string) (anc : list string)
    (IH : forall d N st, queue_pre sys f d (u :: anc) N st ->
                         queue_post sys d N (r_get_tasks_queue f sys d st)) :
  NoDup (u :: anc) -> incl (u :: anc) (keys prec) ->
  (forall a, In a anc -> trans_pred prec a u) ->
  length (keys prec) <= f + length (u :: anc) ->
  forall (ds : list string) (N : list string) (st : queue_state),
  queue_inv sys N st ->
  (forall d, In d ds -> trans_pred prec u d) ->
  exists new st',
    each_dependency (r_get_tasks_queue f sys) ds st = Ok st' /\
    queue_inv sys (N ++ new) st' /\
    (forall x, In x new -> trans_pred prec u x) /\
    (forall d, In d ds -> In d (N ++ new)).
Proof.
  intros Hnd Hincl Hanc Hfuel.
  induction ds as [|d ds IHl]; intros N st Hinv Hds; simpl.
  - exists [], st. rewrite app_nil_r.
    split; [reflexivity|]. split; [assumption|]. split; intros x [].
  - assert (Hud : trans_pred prec u d) by (apply Hds; now left).
    assert (Hpre : queue_pre sys f d (u :: anc) N st).
    { split; [assumption|].
      split; [eapply trans_pred_entry; eassumption|].
      split; [assumption|]. split; [assumption|]. split; [|assumption].
      intros a [<- | Ha]; [assumption|].
      eapply t_trans; [now apply Hanc | assumption]. }
    destruct (IH d N st Hpre) as (new1 & st1 & -> & Hinv1 & Hd & Hnew1).
    simpl.
    destruct (IHl (N ++ new1) st1 Hinv1)
      as (new2 & st2 & E & Hinv2 & Hnew2 & Hall).
    { intros q Hq. apply Hds. now right. }
    rewrite <- app_assoc in *.
    exists (new1 ++ new2), st2. split; [assumption|]. split; [assumption|].
    split.
    + intros x Hx. apply in_app_iff in Hx. destruct Hx as [Hx | Hx]; auto.
      destruct (Hnew1 x Hx) as [-> | Hx']; [assumption|].
      eapply t_trans; eassumption.
    + intros q [<- | Hq]; [|now apply Hall].
      rewrite app_assoc. apply in_app_iff. now left.
Qed.

Lemma r_get_tasks_queue_correct (fuel : nat) :
  forall u anc N st, queue_pre sys fuel u anc N st ->
                     queue_post sys u N (r_get_tasks_queue fuel sys u st).
Proof.
  induction fuel as [|f IH];
    intros u anc N st (Hinv & Hentry & Hnd & Hincl & Hanc & Hfuel).
  - exfalso.
    assert (Hu : ~ In u anc).
    { intros H. apply (prec_acyclic u). now apply Hanc. }
    assert (Hlen : length (u :: anc) <= length (keys prec)).
    { apply NoDup_incl_length; [now constructor|].
      intros x [<- | Hx]; [|now apply Hincl].
      apply get_Some_key. destruct (get prec u); [eauto | congruence]. }
    simpl in *. lia.
  - cbn [r_get_tasks_queue].
    destruct (mem u (snd st)) eqn:Ev.
    + apply mem_In in Ev. exists [], st. rewrite app_nil_r.
      split; [reflexivity|]. split; [assumption|].
      split; [now apply Hinv | intros x []].
    + apply mem_false in Ev.
      assert (Hu : ~ In u anc).
      { intros H. apply (prec_acyclic u). now apply Hanc. }
      assert (HuN : ~ In u N).
      { intros H. apply Ev. now apply Hinv. }
      destruct (get_dependencies_sys u Hentry)
        as (l & -> & Hl & Hul & Hiff & Hord).
      cbn [bind].
      assert (Hloop : exists new st',
                (if negb (Nat.eqb (length l) 0
                          || forallb (fun d => mem d (snd st)) l)
                 then each_dependency (r_get_tasks_queue f sys) l st
                 else Ok st) = Ok st' /\
                queue_inv sys (N ++ new) st' /\
                (forall x, In x new -> trans_pred prec u x) /\
                (forall d, In d l -> In d (N ++ new))).
      { destruct (negb (Nat.eqb (length l) 0
                        || forallb (fun d => mem d (snd st)) l)) eqn:Ec.
        - apply (each_dependency_correct f u anc (fun d => IH d (u :: anc)));
            try assumption.
          + now constructor.
          + intros x [<- | Hx]; [|now apply Hincl].
            apply get_Some_key. destruct (get prec u); [eauto | congruence].
          + simpl. lia.
          + intros d Hd. now apply Hiff.
        - exists [], st. rewrite app_nil_r.
          split; [reflexivity|]. split; [assumption|].
          split; [intros x []|].
          apply negb_false_iff, orb_true_iff in Ec.
          destruct Ec as [Ec | Ec].
          + apply Nat.eqb_eq in Ec. destruct l; [intros d [] | discriminate].
          + rewrite forallb_forall in Ec. intros d Hd.
            apply Hinv, mem_In. now apply Ec. }
      destruct Hloop as (new & st' & -> & (HQ & HV & HD & HO & HE) & Hnew & Hall).
      cbn [bind].
      assert (HuN' : ~ In u (N ++ new)).
      { intros H. apply in_app_iff in H. destruct H as [H | H]; [tauto|].
        apply (prec_acyclic u). now apply Hnew. }
      exists (new ++ [u]), (fst st' ++ [get (tasks sys) u], set_add u (snd st')).
      rewrite app_assoc.
      split; [reflexivity|]. split; [|split].
      * split; [|split; [|split; [|split]]]; cbn [fst snd].
        -- rewrite HQ, (map_app _ (N ++ new)). reflexivity.
        -- intros x. rewrite set_add_In, HV, !in_app_iff. simpl.
           intuition congruence.
        -- apply NoDup_app; [assumption | repeat constructor; intros [] |].
           intros x Hx [<- | []]. contradiction.
        -- apply ordered_snoc; [assumption|].
           intros y Hy. apply Hall. now apply Hiff.
        -- intros x Hx. apply in_app_iff in Hx.
           destruct Hx as [Hx | [<- | []]]; [now apply HE | assumption].
      * apply in_app_iff. right. now left.
      * intros x Hx. apply in_app_iff in Hx.
        destruct Hx as [Hx | [<- | []]]; auto.
Qed.

Lemma queue_all_correct :
  forall (names : list string) (N : list string) (st : queue_state),
  queue_inv sys N st ->
  (forall n, In n names -> get prec n <> None) ->
  exists new st',
    queue_all sys names st = Ok st' /\
    queue_inv sys (N ++ new) st' /\
    (forall n, In n names -> In n (N ++ new)).
Proof.
  induction names as [|n names IHl]; intros N st Hinv Hentry;
    cbn [queue_all].
  - exists [], st. rewrite app_nil_r.
    split; [reflexivity|]. split; [assumption | intros n []].
  - assert (Hpre : queue_pre sys (S (length prec)) n [] N st).
    { split; [assumption|]. split; [apply Hentry; now left|].
      split; [constructor|]. split; [intros x []|]. split; [intros a []|].
      unfold keys. rewrite length_map. simpl. lia. }
    destruct (r_get_tasks_queue_correct _ n [] N st Hpre)
      as (new1 & st1 & -> & Hinv1 & Hn & _).
    cbn [bind].
    destruct (IHl (N ++ new1) st1 Hinv1)
      as (new2 & st2 & E & Hinv2 & Hall).
    { intros m Hm. apply Hentry. now right. }
    rewrite <- app_assoc in *.
    exists (new1 ++ new2), st2. split; [assumption|]. split; [assumption|].
    intros m [<- | Hm]; [|now apply Hall].
    rewrite app_assoc. apply in_app_iff. now left.
Qed.

End Queue.

(** ** The queue of a valid system *)

Lemma get_task_table (ts : list Task) (t : Task) :
  names_distinct ts -> In t ts -> get (task_table ts) (name t) = Some t.
Proof.
  intros Hd Hin. apply In_get.
  - unfold dict_wf. now rewrite keys_table.
  - unfold task_table. apply in_map_iff. now exists t.
Qed.

Lemma get_task_table_name (ts : list Task) (n : string) (t : Task) :
  get (task_table ts) n = Some t -> name t = n /\ In t ts.
Proof.
  intros H. apply get_In in H. unfold task_table in H.
  apply in_map_iff in H. destruct H as (t' & [= <- <-] & Hin). auto.
Qed.

Lemma map_get_names (ts : list Task) :
  names_distinct ts ->
  forall l, incl l ts -> map (get (task_table ts)) (map name l) = map Some l.
Proof.
  intros Hd. induction l as [|t l IH]; intros Hl; simpl; [reflexivity|].
  rewrite get_task_table; [|assumption | apply Hl; now left].
  f_equal. apply IH. intros x Hx. apply Hl. now right.
Qed.

Lemma map_get_Some (ts : list Task) :
  forall (N : list string) (order : list Task),
  map (get (task_table ts)) N = map Some order -> map name order = N.
Proof.
  induction N as [|n N IH]; intros [|t order]; simpl; try discriminate.
  - reflexivity.
  - intros [= H1 H2]. apply get_task_table_name in H1.
    destruct H1 as [-> _]. f_equal. now apply IH.
Qed.

Lemma valid_preds_have_entry (ts : list Task) (prec : precedence_dict) :
  valid_input ts prec -> preds_have_entry prec.
Proof.
  intros Hv a b Hab.
  apply (vi_preds _ _ Hv) in Hab. unfold registered in Hab.
  apply in_map_iff in Hab. destruct Hab as (t & <- & Ht).
  now apply (vi_entry _ _ Hv).
Qed.

Lemma registered_entry (ts : list Task) (prec : precedence_dict) (n : string) :
  valid_input ts prec -> (registered ts n <-> get prec n <> None).
Proof.
  intros Hv. split.
  - intros H. apply in_map_iff in H. destruct H as (t & <- & Ht).
    now apply (vi_entry _ _ Hv).
  - intros H. apply (vi_keys _ _ Hv). apply get_Some_key.
    destruct (get prec n); [eauto | congruence].
Qed.

(** The queue shared by [run_seq] and [run]: every task once, in a
    dependency-consistent order. *)
Lemma tasks_queue_valid (ts : list Task) (prec : precedence_dict)
    (sys : TaskSystem) :
  valid_input ts prec ->
  tasks sys = task_table ts -> precedence sys = prec ->
  exists order,
    tasks_queue sys = Ok (map Some order) /\
    Permutation order ts /\
    NoDup (map name order) /\
    dependency_ordered prec (map name order).
Proof.
  intros Hv Ht Hp.
  assert (Hac : acyclic (precedence sys)) by (rewrite Hp; apply Hv).
  assert (Hcl : preds_have_entry (precedence sys)).
  { rewrite Hp. eapply valid_preds_have_entry; eassumption. }
  destruct (queue_all_correct sys Hac Hcl (keys (tasks sys)) [] ([], []))
    as (N & st' & E & (HQ & HV & HD & HO & HE) & Hall).
  { split; [reflexivity|]. split; [tauto|]. split; [constructor|].
    split; [apply ordered_nil | intros x []]. }
  { intros n Hn. rewrite Ht, keys_table in Hn. rewrite Hp.
    now apply (registered_entry ts prec n Hv). }
  simpl in *. rewrite Ht, keys_table in Hall. rewrite Hp in *.
  assert (Hperm : Permutation N (map name ts)).
  { apply NoDup_Permutation; [assumption | apply Hv|].
    intros x. split; [|apply Hall].
    intros Hx. now apply (registered_entry ts prec x Hv), HE. }
  assert (Hq : Permutation (fst st') (map Some ts)).
  { rewrite HQ, Ht, <- (map_get_names ts (vi_distinct _ _ Hv) ts (incl_refl _)).
    now apply Permutation_map. }
  apply Permutation_map_inv in Hq. destruct Hq as (order & Hq & Hperm').
  exists order. unfold tasks_queue. rewrite E. simpl. rewrite Hq.
  split; [reflexivity|]. split; [now apply Permutation_sym|].
  rewrite HQ, Ht in Hq. apply map_get_Some in Hq. rewrite Hq. auto.
Qed.

(** ** Sequential execution *)

Lemma started_app (tr tr' : list event) :
  started (tr ++ tr') = started tr ++ started tr'.
Proof.
  unfold started. apply flat_map_app.
Qed.

Lemma log_trace (sys : TaskSystem) (t : Task) (w : World) :
  trace (log sys t w) = trace w /\ store (log sys t w) = store w.
Proof.
  unfold log. now destruct (LOGING sys).
Qed.

Lemma run_sequence_all (sys : TaskSystem) (order : list Task) :
  forall w : World,
  (forall t, In t order -> run t <> None) ->
  exists w',
    run_sequence sys (map Some order) w = (w', Ok tt) /\
    started (trace w') = started (trace w) ++ order /\
    store w' = run_actions order (store w).
Proof.
  induction order as [|t order IH]; intros w Hrun; simpl.
  - exists w. now rewrite app_nil_r.
  - destruct (run t) as [action|] eqn:E.
    2:{ exfalso. apply (Hrun t); [now left | assumption]. }
    destruct (IH (emit (Finish t)
                    (apply_action action (emit (Start t) (log sys t w)))))
      as (w' & -> & Htr & Hst).
    { intros u Hu. apply Hrun. now right. }
    exists w'. split; [reflexivity|].
    destruct (log_trace sys t w) as [Hlt Hls].
    simpl in Htr, Hst. rewrite Hlt in Htr. rewrite Hls in Hst.
    rewrite !started_app in Htr. simpl in Htr.
    rewrite app_nil_r, <- app_assoc in Htr.
    split; [exact Htr|].
    assert (Ha : action_of t = action) by (unfold action_of; now rewrite E).
    rewrite Hst. unfold run_actions. simpl. now rewrite Ha.
Qed.

(** The sequence stops at the first task with no action, which is not
    invoked, nor is any task after it. *)
Lemma run_sequence_no_action (sys : TaskSystem) (pre : list Task) (t : Task)
    (post : list (option Task)) :
  forall w : World,
  (forall u, In u pre -> run u <> None) -> run t = None ->
  exists w',
    run_sequence sys (map Some pre ++ Some t :: post) w =
      (w', Raise TypeError) /\
    started (trace w') = started (trace w) ++ pre /\
    store w' = run_actions pre (store w).
Proof.
  induction pre as [|p pre IH]; intros w Hrun Ht; simpl.
  - rewrite Ht. exists (log sys t w).
    destruct (log_trace sys t w) as [-> ->].
    now rewrite app_nil_r.
  - destruct (run p) as [action|] eqn:E.
    2:{ exfalso. apply (Hrun p); [now left | assumption]. }
    destruct (IH (emit (Finish p)
                    (apply_action action (emit (Start p) (log sys p w)))))
      as (w' & -> & Htr & Hst); [|assumption|].
    { intros u Hu. apply Hrun. now right. }
    exists w'. split; [reflexivity|].
    destruct (log_trace sys p w) as [Hlt Hls].
    simpl in Htr, Hst. rewrite Hlt in Htr. rewrite Hls in Hst.
    rewrite !started_app in Htr. simpl in Htr.
    rewrite app_nil_r, <- app_assoc in Htr.
    split; [exact Htr|].
    assert (Ha : action_of p = action) by (unfold action_of; now rewrite E).
    rewrite Hst. unfold run_actions. simpl. now rewrite Ha.
Qed.

Lemma set_logging_fields (sys : TaskSystem) (b : bool) :
  tasks (set_logging sys b) = tasks sys /\
  precedence (set_logging sys b) = precedence sys.
Proof.
  split; reflexivity.
Qed.

Lemma scenario_init :
  TaskSystem_init Scenario.all_tasks Scenario.prec = Ok Scenario.system.
Proof.
  reflexivity.
Qed.

(** ** Parallel execution: the safety invariant *)

Lemma intersects_true (a b : list string) :
  intersects a b = true <-> exists x, In x a /\ In x b.
Proof.
  unfold intersects. rewrite existsb_exists.
  split; intros [x [H1 H2]]; exists x; split; auto; now apply mem_In.
Qed.

Lemma intersects_sym (a b : list string) : intersects a b = intersects b a.
Proof.
  destruct (intersects a b) eqn:E1, (intersects b a) eqn:E2; try reflexivity.
  - apply intersects_true in E1. destruct E1 as [x [H1 H2]].
    assert (H : intersects b a = true) by (apply intersects_true; eauto).
    congruence.
  - apply intersects_true in E2. destruct E2 as [x [H1 H2]].
    assert (H : intersects a b = true) by (apply intersects_true; eauto).
    congruence.
Qed.

Lemma conflicts_sym (a b : Task) : conflicts a b = conflicts b a.
Proof.
  unfold conflicts.
  rewrite (intersects_sym (reads a)), (intersects_sym (writes a)).
  apply orb_comm.
Qed.

Lemma running_start (tr : list event) (t : Task) :
  running (tr ++ [Start t]) = running tr ++ [t].
Proof.
  unfold running. now rewrite fold_left_app.
Qed.

Lemma running_finish (tr : list event) (t : Task) :
  running (tr ++ [Finish t]) =
  filter (fun u => negb (String.eqb (name u) (name t))) (running tr).
Proof.
  unfold running. now rewrite fold_left_app.
Qed.

Lemma always_safe_snoc (tr : list event) (e : event) :
  always_safe tr -> compatible (running (tr ++ [e])) ->
  always_safe (tr ++ [e]).
Proof.
  intros Hs Hc tr1 tr2 E. symmetry in E.
  destruct tr2 as [|e' tr2] using rev_ind.
  - rewrite app_nil_r in E. now subst.
  - clear IHtr2. rewrite app_assoc in E. apply app_inj_tail in E.
    destruct E as [E _]. eapply Hs. symmetry. exact E.
Qed.

Lemma deps_respected_finish (sys : TaskSystem) (tr : list event) (t : Task) :
  deps_respected sys tr -> deps_respected sys (tr ++ [Finish t]).
Proof.
  intros H tr1 u tr2 E.
  apply snoc_split in E. destruct E as [(_ & _ & [=]) | (tr2' & _ & E)].
  eapply H; eassumption.
Qed.

Lemma deps_respected_start (sys : TaskSystem) (tr : list event) (t : Task)
    (deps : list string) :
  deps_respected sys tr ->
  get_dependencies sys (name t) = Ok deps ->
  (forall d, In d deps -> exists td, name td = d /\ In (Finish td) tr) ->
  deps_respected sys (tr ++ [Start t]).
Proof.
  intros H Hd Hf tr1 u tr2 E.
  apply snoc_split in E. destruct E as [(_ & -> & [= ->]) | (tr2' & _ & E)].
  - exists deps. auto.
  - eapply H; eassumption.
Qed.

Lemma par_inv_init (sys : TaskSystem) : par_inv sys [] [] [].
Proof.
  constructor; simpl.
  - intros x [].
  - intros a b [].
  - intros t [].
  - intros n [].
  - intros tr1 tr2 E. symmetry in E. apply app_eq_nil in E.
    destruct E as [-> _]. intros a b [].
  - intros tr1 t tr2 E. now destruct tr1.
Qed.

(** Starting a thread for a task that passed both tests. *)
Lemma par_inv_start (sys : TaskSystem) (procs : list thread)
    (done : list string) (tr : list event) (task : Task)
    (deps : list string) :
  par_inv sys procs done tr ->
  existsb (fun p => conflicts task (fst p)) procs = false ->
  get_dependencies sys (name task) = Ok deps ->
  issubset deps done = true ->
  par_inv sys (procs ++ [(task, false)]) done (tr ++ [Start task]).
Proof.
  intros Hinv Hc Hd Hsub.
  assert (Hcompat : compatible (map fst (procs ++ [(task, false)]))).
  { rewrite map_app. simpl. intros a b Ha Hb Hne.
    apply in_app_iff in Ha. apply in_app_iff in Hb.
    assert (Hnew : forall p, In p (map fst procs) -> conflicts task p = false).
    { intros p Hp. apply in_map_iff in Hp. destruct Hp as ([p' r] & <- & Hp).
      simpl. destruct (conflicts task p') eqn:E; [|reflexivity].
      assert (existsb (fun p => conflicts task (fst p)) procs = true).
      { apply existsb_exists. exists (p', r). auto. }
      congruence. }
    destruct Ha as [Ha | [<- | []]], Hb as [Hb | [<- | []]].
    - now apply (pi_compat _ _ _ _ Hinv).
    - rewrite conflicts_sym. now apply Hnew.
    - now apply Hnew.
    - congruence. }
  assert (Hrun : forall x, In x (running (tr ++ [Start task])) ->
                           In (x, false) (procs ++ [(task, false)])).
  { intros x Hx. rewrite running_start in Hx. apply in_app_iff in Hx.
    apply in_app_iff. destruct Hx as [Hx | [<- | []]].
    - left. now apply (pi_running _ _ _ _ Hinv).
    - right. now left. }
  constructor.
  - exact Hrun.
  - exact Hcompat.
  - intros t Ht. apply in_app_iff in Ht. apply in_app_iff. left.
    destruct Ht as [Ht | [[=] | []]]. now apply (pi_returned _ _ _ _ Hinv).
  - intros n Hn. destruct (pi_executed _ _ _ _ Hinv n Hn) as (t & Ht & Hin).
    exists t. split; [assumption|]. apply in_app_iff. now left.
  - apply always_safe_snoc; [apply Hinv|].
    intros a b Ha Hb. apply Hcompat; apply in_map_iff.
    + exists (a, false). split; [reflexivity | now apply Hrun].
    + exists (b, false). split; [reflexivity | now apply Hrun].
  - eapply deps_respected_start; [apply Hinv | eassumption |].
    intros d Hd'. apply (pi_executed _ _ _ _ Hinv).
    apply issubset_incl in Hsub. now apply Hsub.
Qed.

Lemma return_thread_spec (n : string) (procs : list thread) :
  forall (w : World) (procs' : list thread) (w' : World),
  return_thread n procs w = (procs', w') ->
  (procs' = procs /\ w' = w) \/
  (exists l1 t l2,
     procs = l1 ++ (t, false) :: l2 /\ procs' = l1 ++ (t, true) :: l2 /\
     w' = thread_body t w).
Proof.
  induction procs as [|[t r] procs IH]; intros w procs' w' H; simpl in H.
  - injection H as <- <-. now left.
  - destruct (String.eqb (name t) n && negb r) eqn:E.
    + injection H as <- <-. right.
      apply andb_prop in E. destruct E as [_ Er].
      apply negb_true_iff in Er. subst r. now exists [], t, procs.
    + destruct (return_thread n procs w) as [rest' w1] eqn:Er.
      injection H as <- <-.
      destruct (IH _ _ _ Er) as [(-> & ->) | (l1 & u & l2 & -> & -> & ->)].
      * now left.
      * right. now exists ((t, r) :: l1), u, l2.
Qed.

(** The target of a thread returns. *)
Lemma par_inv_return (sys : TaskSystem) (l1 l2 : list thread) (t : Task)
    (done : list string) (tr : list event) :
  par_inv sys (l1 ++ (t, false) :: l2) done tr ->
  par_inv sys (l1 ++ (t, true) :: l2) done (tr ++ [Finish t]).
Proof.
  intros Hinv.
  assert (Hsub : forall x, In x (running (tr ++ [Finish t])) ->
                           In x (running tr) /\ name x <> name t).
  { intros x Hx. rewrite running_finish in Hx. apply filter_In in Hx.
    destruct Hx as [Hx Hn]. split; [assumption|].
    now apply negb_true_iff, String.eqb_neq in Hn. }
  constructor.
  - intros x Hx. apply Hsub in Hx. destruct Hx as [Hx Hn].
    apply (pi_running _ _ _ _ Hinv) in Hx.
    apply in_app_iff in Hx. apply in_app_iff.
    destruct Hx as [Hx | [[= ->] | Hx]]; [now left | congruence |].
    right. now right.
  - replace (map fst (l1 ++ (t, true) :: l2))
      with (map fst (l1 ++ (t, false) :: l2)); [apply Hinv|].
    now rewrite !map_app.
  - intros u Hu. apply in_app_iff. apply in_app_iff in Hu.
    destruct Hu as [Hu | [[= ->] | Hu]].
    + left. apply (pi_returned _ _ _ _ Hinv). apply in_app_iff. now left.
    + right. now left.
    + left. apply (pi_returned _ _ _ _ Hinv). apply in_app_iff.
      right. now right.
  - intros n Hn. destruct (pi_executed _ _ _ _ Hinv n Hn) as (u & Hu & Hin).
    exists u. split; [assumption|]. apply in_app_iff. now left.
  - apply always_safe_snoc; [apply Hinv|].
    intros a b Ha Hb. apply Hsub in Ha. apply Hsub in Hb.
    apply (pi_safe _ _ _ _ Hinv tr []); [now rewrite app_nil_r | tauto..].
  - apply deps_respected_finish. apply Hinv.
Qed.

Lemma thread_body_trace (t : Task) (w : World) :
  trace (thread_body t w) = trace w ++ [Finish t].
Proof.
  unfold thread_body. now destruct (run t).
Qed.

Lemma return_threads_inv (sys : TaskSystem) (done : list string)
    (base : list event) (ns : list string) :
  forall (procs : list thread) (w : World) (procs' : list thread)
         (w' : World) (tr : list event),
  return_threads ns procs w = (procs', w') ->
  trace w = base ++ tr -> par_inv sys procs done tr ->
  exists tr', trace w' = base ++ tr' /\ par_inv sys procs' done tr'.
Proof.
  induction ns as [|n ns IH]; intros procs w procs' w' tr H Htr Hinv;
    simpl in H.
  - injection H as <- <-. eauto.
  - destruct (return_thread n procs w) as [procs1 w1] eqn:E.
    apply return_thread_spec in E.
    destruct E as [(-> & ->) | (l1 & t & l2 & -> & -> & ->)].
    + eapply IH; eassumption.
    + eapply IH; [eassumption | | apply par_inv_return; eassumption].
      rewrite thread_body_trace, Htr. now rewrite app_assoc.
Qed.

Lemma reap_spec (dead_names : list string) (procs : list thread) :
  forall (done : list string) (procs' : list thread) (done' : list string),
  reap dead_names procs done = (procs', done') ->
  (forall p, In p procs' -> In p procs) /\
  (forall x, In (x, false) procs -> In (x, false) procs') /\
  (forall n, In n done' ->
     In n done \/ exists t, In (t, true) procs /\ name t = n).
Proof.
  induction procs as [|[t r] procs IH]; intros done procs' done' H;
    simpl in H.
  - injection H as <- <-. repeat split; auto.
  - destruct (r && mem (name t) dead_names) eqn:E.
    + apply andb_prop in E. destruct E as [-> _].
      destruct (IH _ _ _ H) as (H1 & H2 & H3). repeat split.
      * intros p Hp. right. now apply H1.
      * intros x [[=] | Hx]. now apply H2.
      * intros n Hn. destruct (H3 n Hn) as [Hd | (u & Hu & Hnu)].
        -- apply set_add_In in Hd. destruct Hd as [-> | Hd]; [|now left].
           right. exists t. split; [now left | reflexivity].
        -- right. exists u. split; [now right | assumption].
    + destruct (reap dead_names procs done) as [rest' d'] eqn:Er.
      injection H as <- <-.
      destruct (IH _ _ _ Er) as (H1 & H2 & H3). repeat split.
      * intros p [<- | Hp]; [now left | right; now apply H1].
      * intros x [[= <- <-] | Hx]; [now left | right; now apply H2].
      * intros n Hn. destruct (H3 n Hn) as [Hd | (u & Hu & Hnu)];
          [now left|].
        right. exists u. split; [now right | assumption].
Qed.

(** The poll that closes an iteration. *)
Lemma par_inv_reap (sys : TaskSystem) (dead_names : list string)
    (procs procs' : list thread) (done done' : list string)
    (tr : list event) :
  reap dead_names procs done = (procs', done') ->
  par_inv sys procs done tr -> par_inv sys procs' done' tr.
Proof.
  intros H Hinv. apply reap_spec in H. destruct H as (H1 & H2 & H3).
  constructor.
  - intros x Hx. apply H2. now apply (pi_running _ _ _ _ Hinv).
  - intros a b Ha Hb. apply (pi_compat _ _ _ _ Hinv).
    + apply in_map_iff in Ha. destruct Ha as (p & <- & Hp).
      apply in_map. now apply H1.
    + apply in_map_iff in Hb. destruct Hb as (p & <- & Hp).
      apply in_map. now apply H1.
  - intros t Ht. apply (pi_returned _ _ _ _ Hinv). now apply H1.
  - intros n Hn. destruct (H3 n Hn) as [Hd | (t & Ht & Hnt)].
    + now apply (pi_executed _ _ _ _ Hinv).
    + exists t. split; [assumption|]. now apply (pi_returned _ _ _ _ Hinv).
  - apply Hinv.
  - apply Hinv.
Qed.

(** One iteration of the scheduling loop keeps the invariant; an iteration
    that raises leaves the world as it was. *)
Lemma run_iter_inv (sys : TaskSystem) (env : schedule_step) (s : run_state)
    (w w' : World) (r : result run_state) (base tr : list event) :
  run_iter sys env s w = (w', r) ->
  trace w = base ++ tr ->
  par_inv sys (processes s) (executed s) tr ->
  match r with
  | Ok s' =>
      exists tr', trace w' = base ++ tr' /\
                  par_inv sys (processes s') (executed s') tr'
  | _ => w' = w
  end.
Proof.
  intros H Htr Hinv. unfold run_iter in H.
  destruct (queue s) as [|[task|] rest].
  - injection H as <- <-. eauto.
  - destruct (get_dependencies sys (name task)) as [deps| |] eqn:Ed.
    2,3: now injection H as <- <-.
    destruct (if negb (issubset deps (executed s)) then false
              else negb (existsb (fun p => conflicts task (fst p))
                           (processes s))) eqn:Ecan.
    + destruct (issubset deps (executed s)) eqn:Esub; [|discriminate].
      simpl in Ecan. apply negb_true_iff in Ecan.
      destruct (return_threads (returning env)
                  (processes s ++ [(task, false)])
                  (log sys task (emit (Start task) w)))
        as [procs2 w2] eqn:Er.
      destruct (reap (dead env) procs2 (executed s)) as [procs3 done] eqn:Ep.
      injection H as <- <-. simpl.
      destruct (return_threads_inv sys (executed s) base _ _ _ _ _
                  (tr ++ [Start task]) Er) as (tr' & Htr' & Hinv').
      * destruct (log_trace sys task (emit (Start task) w)) as [-> _].
        simpl. rewrite Htr. now rewrite app_assoc.
      * eapply par_inv_start; eassumption.
      * exists tr'. split; [assumption|]. eapply par_inv_reap; eassumption.
    + destruct (return_threads (returning env) (processes s) w)
        as [procs2 w2] eqn:Er.
      destruct (reap (dead env) procs2 (executed s)) as [procs3 done] eqn:Ep.
      injection H as <- <-. simpl.
      destruct (return_threads_inv sys (executed s) base _ _ _ _ _ tr Er)
        as (tr' & Htr' & Hinv'); [assumption..|].
      exists tr'. split; [assumption|]. eapply par_inv_reap; eassumption.
  - now injection H as <- <-.
Qed.

(** The whole of the scheduling loop, the final joins included. *)
Lemma run_loop_inv (sys : TaskSystem) (base : list event)
    (envs : list schedule_step) :
  forall (s : run_state) (w w' : World) (r : result unit) (tr : list event),
  run_loop sys envs s w = (w', r) ->
  trace w = base ++ tr ->
  par_inv sys (processes s) (executed s) tr ->
  exists tr', trace w' = base ++ tr' /\
              always_safe tr' /\ deps_respected sys tr'.
Proof.
  assert (Hjoin : forall envs' s w w' r tr,
            queue s = [] -> run_loop sys envs' s w = (w', r) ->
            trace w = base ++ tr ->
            par_inv sys (processes s) (executed s) tr ->
            exists tr', trace w' = base ++ tr' /\
                        always_safe tr' /\ deps_respected sys tr').
  { intros envs' s w w' r tr Hq H Htr Hinv.
    destruct envs'; simpl in H; rewrite Hq in H; injection H as <- <-;
      unfold join_all;
      match goal with
      | |- context [return_threads ?ns ?p ?w0] =>
          destruct (return_threads ns p w0) as [procs' w1] eqn:Er
      end;
      destruct (return_threads_inv sys (executed s) base _ _ _ _ _ tr Er
                  Htr Hinv) as (tr' & Htr' & Hinv');
      exists tr'; simpl; (split; [assumption|]); split; apply Hinv'. }
  induction envs as [|env envs IH]; intros s w w' r tr H Htr Hinv.
  - destruct (queue s) eqn:Hq; [eapply Hjoin; eassumption|].
    simpl in H. rewrite Hq in H. injection H as <- <-.
    exists tr. split; [assumption|]. split; apply Hinv.
  - destruct (queue s) eqn:Hq; [eapply Hjoin; eassumption|].
    simpl in H. rewrite Hq in H.
    destruct (run_iter sys env s w) as [w1 r1] eqn:Ei.
    pose proof (run_iter_inv sys env s w w1 r1 base tr Ei Htr Hinv) as Hstep.
    destruct r1 as [s1| |].
    + destruct Hstep as (tr1 & Htr1 & Hinv1). eapply IH; eassumption.
    + injection H as <- <-. subst w1.
      exists tr. split; [assumption|]. split; apply Hinv.
    + injection H as <- <-. subst w1.
      exists tr. split; [assumption|]. split; apply Hinv.
Qed.

Lemma parallel_run_inv (sys : TaskSystem) (envs : list schedule_step)
    (w w' : World) (r : result unit) :
  parallel_run sys envs w = (w', r) ->
  exists tr, trace w' = trace w ++ tr /\
             always_safe tr /\ deps_respected sys tr.
Proof.
  unfold parallel_run. intros H.
  destruct (tasks_queue sys) as [q| |].
  - eapply run_loop_inv; [eassumption | now rewrite app_nil_r |].
    apply par_inv_init.
  - injection H as <- <-. exists []. rewrite app_nil_r.
    split; [reflexivity|]. split; apply (par_inv_init sys).
  - injection H as <- <-. exists []. rewrite app_nil_r.
    split; [reflexivity|]. split; apply (par_inv_init sys).
Qed.

(** * The claims about construction *)

(** C1, evaluated on the code: a precedence dictionary that lists the
    unregistered name T9 as a predecessor of the registered task T1, every
    other invariant holding, is accepted by the constructor, which only looks
    up the keys of the dictionary; the unregistered name then makes
    [get_dependencies] fail with a [TypeError]. *)
Theorem init_accepts_unregistered_predecessor :
  ~ registered [Inputs.lone] "T9" /\
  direct_pred Inputs.dangling_prec "T1" "T9" /\
  exists sys,
    TaskSystem_init [Inputs.lone] Inputs.dangling_prec = Ok sys /\
    get_dependencies sys "T1" = Raise TypeError.
Proof.
  split; [|split].
  - intros [H | []]. discriminate.
  - exists ["T9"]. split; [reflexivity | now left].
  - eexists. split; reflexivity.
Qed.



(** C8, as stated, fails: with the task list [A; A; B] and an entry for A
    only, task B has no entry, yet construction raises [DuplicateTaskError]
    for A. *)
Lemma init_duplicate_reported_before_missing_entry :
  (exists t, In t Inputs.repeated_then_missing /\
             get Inputs.prec_a (name t) = None) /\
  TaskSystem_init Inputs.repeated_then_missing Inputs.prec_a =
    Raise (DuplicateTaskError "A").
Proof.
  split; [|reflexivity].
  exists Inputs.tb. split; [|reflexivity]. right. right. now left.
Qed.

(** C8, amended: the two checks are made task by task in one pass, the
    entry lookup first. The first task that fails either check decides the
    error: [NoTaskPrecedenceError] if it has no entry,
    [DuplicateTaskError] if it has one and repeats an earlier name; either
    way construction raises and returns no system. *)
Theorem init_first_offending_task (ts1 ts2 : list Task) (t : Task)
    (prec : precedence_dict) :
  all_have_entry ts1 prec -> names_distinct ts1 ->
  (get prec (name t) = None ->
   TaskSystem_init (ts1 ++ t :: ts2) prec =
     Raise (NoTaskPrecedenceError (name t)))
  /\
  (get prec (name t) <> None -> In (name t) (map name ts1) ->
   TaskSystem_init (ts1 ++ t :: ts2) prec =
     Raise (DuplicateTaskError (name t))).
Proof.
  intros He Hd. unfold TaskSystem_init.
  rewrite (register_tasks_app prec ts1 (t :: ts2) [] [] He Hd). simpl.
  split.
  - intros ->. reflexivity.
  - intros Hg Hin. destruct (get prec (name t)); [|congruence].
    apply mem_In in Hin. now rewrite Hin.
Qed.

Lemma init_first_offending_task_witness :
  TaskSystem_init ([Inputs.ta] ++ Inputs.tb :: [Inputs.ta]) Inputs.prec_a =
    Raise (NoTaskPrecedenceError "B").
Proof.
  apply (init_first_offending_task [Inputs.ta] [Inputs.ta] Inputs.tb
           Inputs.prec_a).
  - intros t [<- | []]. discriminate.
  - repeat constructor. intros [].
  - reflexivity.
Defined.

(** * The claims about dependency resolution *)

Lemma constructed_system (ts : list Task) (prec : precedence_dict)
    (sys0 : TaskSystem) (logging : bool) :
  valid_input ts prec -> TaskSystem_init ts prec = Ok sys0 ->
  set_logging sys0 logging = mkTaskSystem (task_table ts) prec logging.
Proof.
  intros Hv H. apply init_inv in H; [|apply Hv].
  destruct H as [-> _]. reflexivity.
Qed.

Lemma no_pred_no_trans_pred (prec : precedence_dict) (n x : string) :
  get prec n = Some [] -> ~ trans_pred prec n x.
Proof.
  intros Hn H. apply trans_pred_first in H.
  destruct H as (p & (ps & Hps & Hp) & _).
  rewrite Hn in Hps. injection Hps as <-. destruct Hp.
Qed.

(** C3: on a system built from an input that satisfies the invariants of
    the data model, [get_dependencies] of a registered name returns the
    transitive predecessors of that name, exactly those, each once, the name
    itself never among them, and the empty list when the entry of the name
    is empty; of a name that is not registered it raises
    [TaskNotFoundError]. *)
Theorem get_dependencies_transitive_predecessors (ts : list Task)
    (prec : precedence_dict) (sys0 : TaskSystem) (logging : bool) :
  valid_input ts prec -> TaskSystem_init ts prec = Ok sys0 ->
  (forall n, registered ts n ->
     exists l,
       get_dependencies (set_logging sys0 logging) n = Ok l /\
       NoDup l /\ ~ In n l /\
       (forall x, In x l <-> trans_pred prec n x) /\
       (get prec n = Some [] -> l = []))
  /\
  (forall n, ~ registered ts n ->
     get_dependencies (set_logging sys0 logging) n =
       Raise (TaskNotFoundError n)).
Proof.
  intros Hv Hinit. rewrite (constructed_system ts prec sys0 logging Hv Hinit).
  split.
  - intros n Hn. apply (registered_entry ts prec n Hv) in Hn.
    destruct (get_dependencies_correct prec (vi_acyclic _ _ Hv)
                (valid_preds_have_entry _ _ Hv) (task_table ts) logging n Hn)
      as (l & Hl & Hnd & Hni & Hiff & _).
    exists l. repeat split; try assumption; try now apply Hiff.
    intros He. destruct l as [|x l]; [reflexivity|]. exfalso.
    apply (no_pred_no_trans_pred prec n x He). apply Hiff. now left.
  - intros n Hn. unfold get_dependencies. cbn [precedence].
    destruct (get prec n) eqn:E; [|reflexivity].
    exfalso. apply Hn. apply (registered_entry ts prec n Hv). congruence.
Qed.

Lemma get_dependencies_transitive_predecessors_witness :
  exists l,
    get_dependencies (set_logging Scenario.system false) "T5" = Ok l /\
    NoDup l /\ ~ In "T5" l /\
    (forall x, In x l <-> trans_pred Scenario.prec "T5" x) /\
    (get Scenario.prec "T5" = Some [] -> l = []).
Proof.
  apply (proj1 (get_dependencies_transitive_predecessors Scenario.all_tasks
                  Scenario.prec Scenario.system false scenario_valid
                  scenario_init)).
  unfold registered. simpl. tauto.
Defined.

(** C4: on such a system the list returned by [get_dependencies] for a
    registered name is dependency-consistent: an element that comes before
    another is not a transitive dependent of it, and the transitive
    predecessors of every element come strictly before that element. *)
Theorem get_dependencies_dependency_consistent (ts : list Task)
    (prec : precedence_dict) (sys0 : TaskSystem) (logging : bool)
    (n : string) :
  valid_input ts prec -> TaskSystem_init ts prec = Ok sys0 ->
  registered ts n ->
  exists l,
    get_dependencies (set_logging sys0 logging) n = Ok l /\
    (forall l1 a l2 b l3,
       l = l1 ++ a :: l2 ++ b :: l3 -> ~ trans_pred prec a b) /\
    (forall l1 b l2 a,
       l = l1 ++ b :: l2 -> trans_pred prec b a -> In a l1).
Proof.
  intros Hv Hinit Hn.
  rewrite (constructed_system ts prec sys0 logging Hv Hinit).
  apply (registered_entry ts prec n Hv) in Hn.
  destruct (get_dependencies_correct prec (vi_acyclic _ _ Hv)
              (valid_preds_have_entry _ _ Hv) (task_table ts) logging n Hn)
    as (l & Hl & Hnd & _ & _ & Hord).
  exists l. split; [assumption|]. split.
  - intros l1 a l2 b l3 ->.
    now apply (ordered_before prec l1 l2 l3 a b).
  - intros l1 b l2 a E Hba. eapply Hord; eassumption.
Qed.

Lemma get_dependencies_dependency_consistent_witness :
  exists l,
    get_dependencies (set_logging Scenario.system true) "T6" = Ok l /\
    (forall l1 a l2 b l3,
       l = l1 ++ a :: l2 ++ b :: l3 -> ~ trans_pred Scenario.prec a b) /\
    (forall l1 b l2 a,
       l = l1 ++ b :: l2 -> trans_pred Scenario.prec b a -> In a l1).
Proof.
  apply (get_dependencies_dependency_consistent Scenario.all_tasks
           Scenario.prec Scenario.system true "T6" scenario_valid
           scenario_init).
  unfold registered. simpl. tauto.
Defined.

(** * The claims about sequential execution *)

(** C5: on a system built from an input that satisfies the invariants of
    the data model and whose tasks all have an action, [run_seq] invokes the
    action of every registered task exactly once, one after the other, in an
    order in which the transitive predecessors of every task come strictly
    before it, and returns normally. *)
Theorem run_seq_runs_every_task_once (ts : list Task)
    (prec : precedence_dict) (sys0 : TaskSystem) (logging : bool)
    (w : World) :
  valid_input ts prec -> TaskSystem_init ts prec = Ok sys0 ->
  (forall t, In t ts -> run t <> None) ->
  exists w' order,
    run_seq (set_logging sys0 logging) w = (w', Ok tt) /\
    started (trace w') = started (trace w) ++ order /\
    Permutation order ts /\
    dependency_ordered prec (map name order) /\
    store w' = run_actions order (store w).
Proof.
  intros Hv Hinit Hrun.
  rewrite (constructed_system ts prec sys0 logging Hv Hinit).
  destruct (tasks_queue_valid ts prec (mkTaskSystem (task_table ts) prec logging)
              Hv eq_refl eq_refl) as (order & Hq & Hperm & _ & Hord).
  destruct (run_sequence_all (mkTaskSystem (task_table ts) prec logging)
              order w) as (w' & Hw & Htr & Hst).
  { intros t Ht. apply Hrun. eapply Permutation_in; eassumption. }
  exists w', order. unfold run_seq. rewrite Hq. auto.
Qed.

Lemma run_seq_runs_every_task_once_witness :
  exists w' order,
    run_seq (set_logging Scenario.system false) Scenario.world0 =
      (w', Ok tt) /\
    started (trace w') = started (trace Scenario.world0) ++ order /\
    Permutation order Scenario.all_tasks /\
    dependency_ordered Scenario.prec (map name order) /\
    store w' = run_actions order (store Scenario.world0).
Proof.
  apply (run_seq_runs_every_task_once Scenario.all_tasks Scenario.prec
           Scenario.system false Scenario.world0 scenario_valid
           scenario_init).
  intros t Ht. simpl in Ht.
  repeat (destruct Ht as [<- | Ht]; [discriminate|]). destruct Ht.
Defined.

(** * The claims about parallel execution *)

Lemma conflicts_false (a b : Task) :
  conflicts a b = false <->
  intersects (reads a) (writes b) = false /\
  intersects (writes a) (reads b) = false.
Proof.
  unfold conflicts. apply orb_false_iff.
Qed.

(** C6: in every execution of [run] on a system built from an input that
    satisfies the invariants of the data model, whatever the threads do and
    however the run ends, at no moment are two different tasks running of
    which one reads what the other writes, and no task is started before
    every one of its transitive predecessors has finished. *)
Theorem run_never_overlaps_conflicting_tasks (ts : list Task)
    (prec : precedence_dict) (sys0 : TaskSystem) (logging : bool)
    (envs : list schedule_step) (w w' : World) (r : result unit) :
  valid_input ts prec -> TaskSystem_init ts prec = Ok sys0 ->
  parallel_run (set_logging sys0 logging) envs w = (w', r) ->
  exists tr,
    trace w' = trace w ++ tr /\
    (forall tr1 tr2 a b,
       tr = tr1 ++ tr2 -> In a (running tr1) -> In b (running tr1) ->
       a <> b ->
       intersects (reads a) (writes b) = false /\
       intersects (writes a) (reads b) = false) /\
    (forall tr1 t tr2 d,
       tr = tr1 ++ Start t :: tr2 -> trans_pred prec (name t) d ->
       exists td, name td = d /\ In (Finish td) tr1).
Proof.
  intros Hv Hinit Hrun.
  pose proof (constructed_system ts prec sys0 logging Hv Hinit) as Hsys.
  destruct (parallel_run_inv _ _ _ _ _ Hrun) as (tr & Htr & Hsafe & Hdeps).
  exists tr. split; [assumption|]. split.
  - intros tr1 tr2 a b E Ha Hb Hne. apply conflicts_false.
    now apply (Hsafe tr1 tr2 E).
  - intros tr1 t tr2 d E Hd.
    destruct (Hdeps tr1 t tr2 E) as (deps & Hg & Hfin).
    apply Hfin. rewrite Hsys in Hg.
    assert (Hentry : get prec (name t) <> None).
    { unfold get_dependencies in Hg. cbn [precedence] in Hg.
      destruct (get prec (name t)); [discriminate | discriminate Hg]. }
    destruct (get_dependencies_correct prec (vi_acyclic _ _ Hv)
                (valid_preds_have_entry _ _ Hv) (task_table ts) logging
                (name t) Hentry) as (l & Hl & _ & _ & Hiff & _).
    rewrite Hg in Hl. injection Hl as <-. now apply Hiff.
Qed.

Lemma run_never_overlaps_conflicting_tasks_witness :
  exists tr,
    trace (fst (parallel_run (set_logging Scenario.system false)
                  Scenario.schedule Scenario.world0)) =
      trace Scenario.world0 ++ tr /\
    (forall tr1 tr2 a b,
       tr = tr1 ++ tr2 -> In a (running tr1) -> In b (running tr1) ->
       a <> b ->
       intersects (reads a) (writes b) = false /\
       intersects (writes a) (reads b) = false) /\
    (forall tr1 t tr2 d,
       tr = tr1 ++ Start t :: tr2 -> trans_pred Scenario.prec (name t) d ->
       exists td, name td = d /\ In (Finish td) tr1).
Proof.
  apply (run_never_overlaps_conflicting_tasks Scenario.all_tasks
           Scenario.prec Scenario.system false Scenario.schedule
           Scenario.world0 _
           (snd (parallel_run (set_logging Scenario.system false)
                   Scenario.schedule Scenario.world0))
           scenario_valid scenario_init).
  apply surjective_pairing.
Defined.

Lemma upd_accurate (x : string) (f : Store -> Z) (rs : list string)
    (n : string) :
  (forall st st', (forall y, In y rs -> st y = st' y) -> f st = f st') ->
  accurate (mkTask n rs [x] (Some (fun st => Scenario.upd x (f st) st))).
Proof.
  intros Hf. split; unfold action_of; simpl.
  - intros st y Hy. unfold Scenario.upd.
    destruct (String.eqb x y) eqn:E; [|reflexivity].
    apply String.eqb_eq in E. tauto.
  - intros st st' Hrs y [<- | []]. unfold Scenario.upd.
    rewrite String.eqb_refl. now apply Hf.
Qed.

(** C7, evaluated on the code: T1 and T2 are independent, read nothing and
    both write X, with accurate declarations. The conflict test compares
    reads with writes only, so [run] starts both; when the thread of T2
    returns before that of T1, X ends as 1, while [run_seq] ends with 2. *)
Theorem run_differs_from_run_seq_on_common_write :
  accurate Races.w1 /\ accurate Races.w2 /\
  exists sys,
    TaskSystem_init [Races.w1; Races.w2] Races.ww_prec = Ok sys /\
    snd (run_seq sys Scenario.world0) = Ok tt /\
    store (fst (run_seq sys Scenario.world0)) "X" = 2%Z /\
    snd (parallel_run sys Races.ww_schedule Scenario.world0) = Ok tt /\
    store (fst (parallel_run sys Races.ww_schedule Scenario.world0)) "X"
      = 1%Z.
Proof.
  split; [|split].
  - apply (upd_accurate "X" (fun _ => 1%Z)). reflexivity.
  - apply (upd_accurate "X" (fun _ => 2%Z)). reflexivity.
  - eexists. split; [reflexivity|]. repeat split; reflexivity.
Qed.

(** The same divergence without any common write: B, put back because it
    conflicts with the running A, is overtaken by C, which reads the
    variable B writes; C then reads X before B has written it. *)
Lemma run_lets_a_reader_overtake_a_writer :
  accurate Races.ra /\ accurate Races.rb /\ accurate Races.rc /\
  exists sys,
    TaskSystem_init [Races.ra; Races.rb; Races.rc] Races.rw_prec = Ok sys /\
    snd (run_seq sys Scenario.world0) = Ok tt /\
    store (fst (run_seq sys Scenario.world0)) "Y" = 1%Z /\
    snd (parallel_run sys Races.rw_schedule Scenario.world0) = Ok tt /\
    store (fst (parallel_run sys Races.rw_schedule Scenario.world0)) "Y"
      = 0%Z.
Proof.
  split; [|split; [|split]].
  - apply (upd_accurate "W" (fun st => st "X")).
    intros st st' H. apply H. now left.
  - apply (upd_accurate "X" (fun _ => 1%Z)). reflexivity.
  - apply (upd_accurate "Y" (fun st => st "X")).
    intros st st' H. apply H. now left.
  - eexists. split; [reflexivity|]. repeat split; reflexivity.
Qed.

(** ** Which tasks the runs act on *)











(** ** The parallel run under the eager schedule *)

Lemma return_threads_nil (ns : list string) (w : World) :
  return_threads ns [] w = ([], w).
Proof.
  induction ns as [|n ns IH]; simpl; [reflexivity | exact IH].
Qed.

Lemma return_threads_returned (ns : list string) (t : Task) (w : World) :
  return_threads ns [(t, true)] w = ([(t, true)], w).
Proof.
  induction ns as [|n ns IH]; simpl; [reflexivity|].
  rewrite andb_false_r. exact IH.
Qed.

Lemma return_threads_single (ns : list string) (t : Task) (w : World) :
  In (name t) ns ->
  return_threads ns [(t, false)] w = ([(t, true)], thread_body t w).
Proof.
  induction ns as [|n ns IH]; intros Hin; [destruct Hin|]. simpl.
  destruct (String.eqb (name t) n) eqn:E; simpl.
  - apply return_threads_returned.
  - apply IH. destruct Hin as [-> | Hin]; [|assumption].
    now rewrite String.eqb_refl in E.
Qed.

Lemma thread_effect_store (sys : TaskSystem) (t : Task) (w : World) :
  store (thread_effect sys t w) = action_of t (store w) /\
  started (trace (thread_effect sys t w)) = started (trace w) ++ [t].
Proof.
  unfold thread_effect, thread_body, action_of.
  destruct (log_trace sys t (emit (Start t) w)) as [Ht Hs].
  destruct (run t); simpl; rewrite ?Ht, ?Hs; simpl;
    rewrite !started_app; simpl; rewrite app_nil_r; auto.
Qed.

Lemma thread_effects (sys : TaskSystem) (order : list Task) :
  forall w : World,
  store (fold_left (fun w t => thread_effect sys t w) order w) =
    run_actions order (store w) /\
  started (trace (fold_left (fun w t => thread_effect sys t w) order w)) =
    started (trace w) ++ order.
Proof.
  induction order as [|t order IH]; intros w; simpl.
  - now rewrite app_nil_r.
  - destruct (IH (thread_effect sys t w)) as [-> ->].
    destruct (thread_effect_store sys t w) as [-> ->].
    rewrite <- app_assoc. split; reflexivity.
Qed.

(** Under the eager schedule every polled task is started at once, so the
    loop goes through the queue in order. *)
Lemma run_loop_eager (sys : TaskSystem) (ts : list Task) :
  forall (post pre : list Task) (done : list string) (w : World) (k : nat),
  incl post ts ->
  (forall l1 t l2, post = l1 ++ t :: l2 ->
     exists deps, get_dependencies sys (name t) = Ok deps /\
                  incl deps (map name (pre ++ l1))) ->
  incl (map name pre) done ->
  length post <= k ->
  run_loop sys (repeat (eager_step ts) k) (mkRunState (map Some post) [] done) w
  = (fold_left (fun w t => thread_effect sys t w) post w, Ok tt).
Proof.
  induction post as [|t post IH]; intros pre done w k Hts Hdeps Hdone Hk.
  - destruct k; simpl; unfold join_all; simpl;
      now rewrite ?return_threads_nil.
  - destruct k as [|k]; [simpl in Hk; lia|].
    cbn [repeat map run_loop queue]. unfold run_iter.
    cbn [queue processes executed existsb negb].
    destruct (Hdeps [] t post eq_refl) as (deps & -> & Hsub).
    rewrite app_nil_r in Hsub.
    assert (Hs : issubset deps done = true).
    { apply issubset_incl. eapply incl_tran; eassumption. }
    rewrite Hs. cbn [negb app eager_step returning dead].
    rewrite return_threads_single.
    2:{ apply in_map. apply Hts. now left. }
    cbn [reap fst andb].
    assert (Hm : mem (name t) (map name ts) = true).
    { apply mem_In, in_map, Hts. now left. }
    rewrite Hm. cbn [reap].
    fold (thread_effect sys t w).
    apply (IH (pre ++ [t])).
    + intros x Hx. apply Hts. now right.
    + intros l1 u l2 E. destruct (Hdeps (t :: l1) u l2) as (d & Hd & Hi).
      { simpl. now rewrite E. }
      exists d. split; [assumption|]. now rewrite <- app_assoc.
    + rewrite map_app. intros x Hx. apply in_app_iff in Hx.
      apply set_add_In. destruct Hx as [Hx | [<- | []]]; auto.
    + simpl in Hk. lia.
Qed.

(** Under the eager schedule [run] returns normally, having run the tasks
    one after the other in the order of the queue. *)
Lemma parallel_run_eager (ts : list Task) (prec : precedence_dict)
    (logging : bool) (w : World) :
  valid_input ts prec ->
  exists w' order,
    parallel_run (mkTaskSystem (task_table ts) prec logging)
      (repeat (eager_step ts) (length ts)) w = (w', Ok tt) /\
    tasks_queue (mkTaskSystem (task_table ts) prec logging) =
      Ok (map Some order) /\
    Permutation order ts /\
    started (trace w') = started (trace w) ++ order /\
    store w' = run_actions order (store w).
Proof.
  intros Hv. set (sys := mkTaskSystem (task_table ts) prec logging).
  destruct (tasks_queue_valid ts prec sys Hv eq_refl eq_refl)
    as (order & Hq & Hperm & Hnd & Hord).
  exists (fold_left (fun w t => thread_effect sys t w) order w), order.
  destruct (thread_effects sys order w) as [Hst Htr].
  split; [|auto]. unfold parallel_run. rewrite Hq.
  apply (run_loop_eager sys ts order []).
  - intros t Ht. eapply Permutation_in; eassumption.
  - intros l1 t l2 E.
    destruct (get_dependencies_correct prec (vi_acyclic _ _ Hv)
                (valid_preds_have_entry _ _ Hv) (task_table ts) logging
                (name t)) as (l & Hl & _ & _ & Hiff & _).
    { apply (vi_entry _ _ Hv). eapply Permutation_in; [eassumption|].
      rewrite E. apply in_app_iff. right. now left. }
    exists l. split; [assumption|]. intros d Hd. simpl.
    apply (Hord (map name l1) (name t) (map name l2)).
    + rewrite E, map_app. reflexivity.
    + now apply Hiff.
  - intros x [].
  - now rewrite (Permutation_length Hperm).
Qed.

(** When no two threads overlap, [run] leaves the globals as [run_seq]
    does. *)
Lemma run_eager_agrees_with_run_seq (ts : list Task) (prec : precedence_dict)
    (logging : bool) (w : World) :
  valid_input ts prec -> (forall t, In t ts -> run t <> None) ->
  store (fst (parallel_run (mkTaskSystem (task_table ts) prec logging)
                (repeat (eager_step ts) (length ts)) w)) =
  store (fst (run_seq (mkTaskSystem (task_table ts) prec logging) w)).
Proof.
  intros Hv Hrun.
  destruct (parallel_run_eager ts prec logging w Hv)
    as (w' & order & -> & Hq & Hperm & _ & Hst).
  unfold run_seq. rewrite Hq.
  destruct (run_sequence_all (mkTaskSystem (task_table ts) prec logging)
              order w) as (w2 & -> & _ & Hst2).
  - intros t Ht. apply Hrun. eapply Permutation_in; eassumption.
  - simpl. congruence.
Qed.

(** * The claims about tasks without an action, and about the tasks
      themselves *)

Lemma first_without_action (order : list Task) :
  (exists t, In t order /\ run t = None) ->
  exists pre u post,
    order = pre ++ u :: post /\ run u = None /\
    forall p, In p pre -> run p <> None.
Proof.
  induction order as [|a order IH]; intros (t & Ht & Hn); [destruct Ht|].
  destruct (run a) eqn:Ea.
  - destruct IH as (pre & u & post & -> & Hu & Hpre).
    { destruct Ht as [-> | Ht]; [congruence | eauto]. }
    exists (a :: pre), u, post. split; [reflexivity|]. split; [assumption|].
    intros p [<- | Hp]; [congruence | now apply Hpre].
  - exists [], a, order. split; [reflexivity|]. split; [assumption|].
    intros p [].
Qed.



Lemma idle_valid : valid_input [Races.idle] Races.idle_prec.
Proof.
  assert (Hwf : dict_wf Races.idle_prec) by (now apply dict_wf_decide).
  constructor.
  - exact Hwf.
  - intros t [<- | []]. discriminate.
  - repeat constructor. intros [].
  - intros k Hk. exact Hk.
  - intros a b (ps & Hg & Hb). apply get_In in Hg.
    destruct Hg as [[= <- <-] | []]. destruct Hb.
  - now apply validate_Ok_acyclic.
Qed.





(** * Further properties of construction *)

Lemma register_tasks_cases (prec : precedence_dict) (ts : list Task) :
  forall (task_names : list string) (table : dict Task),
  (exists table', register_tasks prec ts task_names table = Ok table')
  \/
  (exists l1 t l2,
     ts = l1 ++ t :: l2 /\ get prec (name t) = None /\
     register_tasks prec ts task_names table =
       Raise (NoTaskPrecedenceError (name t)))
  \/
  (exists l1 t l2,
     ts = l1 ++ t :: l2 /\ In (name t) (task_names ++ map name l1) /\
     register_tasks prec ts task_names table =
       Raise (DuplicateTaskError (name t))).
Proof.
  induction ts as [|t ts IH]; intros task_names table; simpl.
  - left. eauto.
  - destruct (get prec (name t)) eqn:E.
    2:{ right. left. exists [], t, ts. auto. }
    destruct (mem (name t) task_names) eqn:Em.
    + apply mem_In in Em. right. right. exists [], t, ts.
      rewrite app_nil_r. auto.
    + apply mem_false in Em. rewrite (set_add_new _ _ Em).
      destruct (IH (task_names ++ [name t]) (table ++ [(name t, t)]))
        as [H | [(l1 & u & l2 & -> & Hu & H) | (l1 & u & l2 & -> & Hu & H)]].
      * now left.
      * right. left. exists (t :: l1), u, l2. auto.
      * right. right. exists (t :: l1), u, l2.
        rewrite <- app_assoc in Hu. auto.
Qed.

(** Construction succeeds on exactly the inputs in which every task has an
    entry, no name repeats, every key of the dictionary is a task and the
    dictionary is acyclic; the system it returns holds the tasks in the order
    given, under their names, the dictionary as given, and logging enabled. *)
Theorem init_succeeds_iff (ts : list Task) (prec : precedence_dict) :
  dict_wf prec ->
  ((exists sys, TaskSystem_init ts prec = Ok sys) <->
   all_have_entry ts prec /\ names_distinct ts /\
   keys_registered ts prec /\ acyclic prec)
  /\
  (forall sys, TaskSystem_init ts prec = Ok sys ->
     tasks sys = task_table ts /\ precedence sys = prec /\
     LOGING sys = true).
Proof.
  intros Hwf. split; [split|].
  - intros [sys H]. apply init_inv in H; tauto.
  - intros (He & Hd & Hk & Ha). eexists. now apply init_Ok.
  - intros sys H. apply init_inv in H; [|assumption].
    destruct H as [-> _]. auto.
Qed.

Lemma init_succeeds_iff_witness :
  tasks Scenario.system = task_table Scenario.all_tasks /\
  precedence Scenario.system = Scenario.prec /\
  LOGING Scenario.system = true.
Proof.
  apply (proj2 (init_succeeds_iff Scenario.all_tasks Scenario.prec
                  (vi_dict _ _ scenario_valid))).
  reflexivity.
Defined.

Lemma check_precedence_keys_cases (table : dict Task) (ks : list string) :
  check_precedence_keys table ks = Ok tt \/
  exists k, In k ks /\ ~ In k (keys table) /\
            check_precedence_keys table ks = Raise (TaskNotFoundError k).
Proof.
  induction ks as [|k ks IH]; simpl; [now left|].
  destruct (get table k) eqn:E.
  - destruct IH as [H | (k' & H1 & H2 & H3)]; [now left | right].
    exists k'. auto.
  - right. exists k. apply get_None in E. auto.
Qed.

(** The three outcomes of [__validate_precedence_dict]. *)
Lemma validate_cases (prec : precedence_dict) :
  dict_wf prec ->
  (validate_precedence_dict prec = Ok tt /\ acyclic prec)
  \/
  (exists t ps,
     In (t, ps) prec /\ In t ps /\
     validate_precedence_dict prec =
       Raise (InvalidPrecedenceDictError
                ("Task " ++ t ++ " cannot depend on itself")))
  \/
  ((forall t ps, In (t, ps) prec -> ~ In t ps) /\ cyclic prec /\
   validate_precedence_dict prec =
     Raise (InvalidPrecedenceDictError
              "Precedence dictionary contains a cycle")).
Proof.
  intros Hwf. unfold validate_precedence_dict.
  destruct (build_dependencies_spec prec [])
    as [(t & ps & H1 & H2 & ->) | (Hns & d' & -> & Hs & Hk)]; cbn [bind].
  - right. left. exists t, ps. auto.
  - assert (Hrel : forall u v, successor d' u v <-> direct_pred prec v u).
    { intros u v. rewrite Hs, direct_pred_In by assumption.
      split; [intros [[l [[=] _]] | H]; assumption | auto]. }
    assert (Hclosed : forall u v, successor d' u v -> In v (keys d')).
    { intros u v Huv. apply Hk. right. left.
      apply Hrel in Huv. destruct Huv as (ps & Hg & _).
      apply get_Some_key. eauto. }
    assert (Hcyc : forall x, clos_trans string (successor d') x x <->
                             trans_pred prec x x).
    { intros x. unfold trans_pred. rewrite <- cycle_transp.
      apply clos_trans_ext. intros a b. apply Hrel. }
    destruct (check_roots_cases d' Hclosed) as [[-> [x Hx]] | [-> Ha]].
    + right. right. split; [assumption|]. split; [|reflexivity].
      exists x. now apply Hcyc.
    + left. split; [reflexivity|]. intros x Hx. apply (Ha x).
      now apply Hcyc.
Qed.

(** Construction raises nothing but its own four exceptions, and each for
    cause: [NoTaskPrecedenceError] names a task that has no entry,
    [DuplicateTaskError] a name met before in the list, [TaskNotFoundError]
    a key of the dictionary that is not a task, and
    [InvalidPrecedenceDictError] is raised on a cyclic dictionary only. *)
Theorem init_raises_for_cause (ts : list Task) (prec : precedence_dict) :
  dict_wf prec ->
  (exists sys, TaskSystem_init ts prec = Ok sys)
  \/
  (exists l1 t l2,
     ts = l1 ++ t :: l2 /\ get prec (name t) = None /\
     TaskSystem_init ts prec = Raise (NoTaskPrecedenceError (name t)))
  \/
  (exists l1 t l2,
     ts = l1 ++ t :: l2 /\ In (name t) (map name l1) /\
     TaskSystem_init ts prec = Raise (DuplicateTaskError (name t)))
  \/
  (exists k,
     In k (keys prec) /\ ~ registered ts k /\
     TaskSystem_init ts prec = Raise (TaskNotFoundError k))
  \/
  (exists msg,
     cyclic prec /\
     TaskSystem_init ts prec = Raise (InvalidPrecedenceDictError msg)).
Proof.
  intros Hwf. unfold TaskSystem_init.
  destruct (register_tasks_cases prec ts [] [])
    as [[table Ht] | [(l1 & t & l2 & E & Hn & H) | (l1 & t & l2 & E & Hn & H)]].
  2:{ right. left. exists l1, t, l2. rewrite H. auto. }
  2:{ right. right. left. exists l1, t, l2. rewrite H. auto. }
  rewrite Ht. cbn [bind].
  apply register_tasks_inv in Ht; [|constructor].
  destruct Ht as (-> & _ & _). cbn [app].
  destruct (check_precedence_keys_cases (task_table ts) (keys prec))
    as [Hc | (k & H1 & H2 & Hc)];
    unfold task_table in Hc; rewrite Hc; cbn [bind].
  - destruct (validate_cases prec Hwf)
      as [[-> _] | [(t & ps & H1 & H2 & ->) | (_ & Hcyc & ->)]]; cbn [bind].
    + left. eauto.
    + right. right. right. right. eexists. split; [|reflexivity].
      exists t. apply t_step. apply direct_pred_In; eauto.
    + right. right. right. right. eauto.
  - right. right. right. left. exists k. rewrite keys_table in H2. auto.
Qed.

Lemma init_raises_for_cause_witness :
  (exists sys,
     TaskSystem_init (removelast Scenario.all_tasks) Scenario.prec = Ok sys)
  \/
  (exists l1 t l2,
     removelast Scenario.all_tasks = l1 ++ t :: l2 /\
     get Scenario.prec (name t) = None /\
     TaskSystem_init (removelast Scenario.all_tasks) Scenario.prec =
       Raise (NoTaskPrecedenceError (name t)))
  \/
  (exists l1 t l2,
     removelast Scenario.all_tasks = l1 ++ t :: l2 /\
     In (name t) (map name l1) /\
     TaskSystem_init (removelast Scenario.all_tasks) Scenario.prec =
       Raise (DuplicateTaskError (name t)))
  \/
  (exists k,
     In k (keys Scenario.prec) /\
     ~ registered (removelast Scenario.all_tasks) k /\
     TaskSystem_init (removelast Scenario.all_tasks) Scenario.prec =
       Raise (TaskNotFoundError k))
  \/
  (exists msg,
     cyclic Scenario.prec /\
     TaskSystem_init (removelast Scenario.all_tasks) Scenario.prec =
       Raise (InvalidPrecedenceDictError msg)).
Proof.
  apply (init_raises_for_cause (removelast Scenario.all_tasks) Scenario.prec).
  apply dict_wf_decide. reflexivity.
Defined.

Lemma check_precedence_keys_first (table : dict Task) (ks : list string) :
  (exists k, In k ks /\ ~ In k (keys table)) ->
  exists ks1 k ks2,
    ks = ks1 ++ k :: ks2 /\ (forall k', In k' ks1 -> In k' (keys table)) /\
    ~ In k (keys table) /\
    check_precedence_keys table ks = Raise (TaskNotFoundError k).
Proof.
  induction ks as [|k ks IH]; intros (k' & Hin & Hk'); [destruct Hin|].
  simpl. destruct (get table k) eqn:E.
  - destruct IH as (ks1 & k1 & ks2 & -> & H1 & H2 & H3).
    { destruct Hin as [<- | Hin]; [|eauto].
      exfalso. apply Hk', get_Some_key. eauto. }
    exists (k :: ks1), k1, ks2. split; [reflexivity|]. split; [|now split].
    intros x [<- | Hx]; [|now apply H1]. apply get_Some_key. eauto.
  - exists [], k, ks. apply get_None in E.
    split; [reflexivity|]. split; [intros x []|]. now split.
Qed.

(** When every task has an entry and no name repeats, a key of the
    precedence dictionary that is not a task makes construction raise
    [TaskNotFoundError] for the first such key in the order of the
    dictionary, whether or not the dictionary is also cyclic. *)
Theorem init_reports_first_unregistered_key (ts : list Task)
    (prec : precedence_dict) :
  all_have_entry ts prec -> names_distinct ts ->
  (exists k, In k (keys prec) /\ ~ registered ts k) ->
  exists ks1 k ks2,
    keys prec = ks1 ++ k :: ks2 /\
    (forall k', In k' ks1 -> registered ts k') /\
    ~ registered ts k /\
    TaskSystem_init ts prec = Raise (TaskNotFoundError k).
Proof.
  intros He Hd Hk. unfold TaskSystem_init.
  rewrite (register_tasks_Ok _ _ He Hd). cbn [bind].
  destruct (check_precedence_keys_first (task_table ts) (keys prec))
    as (ks1 & k & ks2 & E & H1 & H2 & H3).
  { destruct Hk as (k & H1 & H2). exists k. split; [assumption|].
    now rewrite keys_table. }
  exists ks1, k, ks2. unfold task_table in H3. rewrite H3. cbn [bind].
  rewrite keys_table in H1, H2. auto.
Qed.

Lemma init_reports_first_unregistered_key_witness :
  exists ks1 k ks2,
    keys Scenario.prec = ks1 ++ k :: ks2 /\
    (forall k', In k' ks1 -> registered (removelast Scenario.all_tasks) k') /\
    ~ registered (removelast Scenario.all_tasks) k /\
    TaskSystem_init (removelast Scenario.all_tasks) Scenario.prec =
      Raise (TaskNotFoundError k).
Proof.
  apply (init_reports_first_unregistered_key
           (removelast Scenario.all_tasks) Scenario.prec).
  - intros t Ht. simpl in Ht.
    repeat (destruct Ht as [<- | Ht]; [discriminate|]). destruct Ht.
  - apply (dict_wf_decide (task_table (removelast Scenario.all_tasks))).
    reflexivity.
  - exists "T6". split.
    + simpl. tauto.
    + unfold registered. simpl. intuition discriminate.
Defined.

(** When the earlier checks pass, an entry that lists its own key makes
    construction raise [InvalidPrecedenceDictError] with the message that
    names such a key, whatever other cycles there are; a cyclic dictionary
    in which no entry lists its own key is reported by the message of the
    traversal. *)
Theorem init_invalid_precedence_messages (ts : list Task)
    (prec : precedence_dict) :
  dict_wf prec -> all_have_entry ts prec -> names_distinct ts ->
  keys_registered ts prec ->
  ((exists t ps, In (t, ps) prec /\ In t ps) ->
   exists t ps,
     In (t, ps) prec /\ In t ps /\
     TaskSystem_init ts prec =
       Raise (InvalidPrecedenceDictError
                ("Task " ++ t ++ " cannot depend on itself")))
  /\
  ((forall t ps, In (t, ps) prec -> ~ In t ps) -> cyclic prec ->
   TaskSystem_init ts prec =
     Raise (InvalidPrecedenceDictError
              "Precedence dictionary contains a cycle")).
Proof.
  intros Hwf He Hd Hk. unfold TaskSystem_init.
  rewrite (register_tasks_Ok _ _ He Hd). cbn [bind].
  rewrite check_precedence_keys_Ok.
  2:{ intros k Hin. rewrite keys_table. now apply Hk. }
  cbn [bind].
  destruct (validate_cases prec Hwf)
    as [[-> Ha] | [(t & ps & H1 & H2 & ->) | (Hns & Hcyc & ->)]]; cbn [bind].
  - split.
    + intros (t & ps & H1 & H2). exfalso. apply (Ha t). apply t_step.
      apply direct_pred_In; eauto.
    + intros _ [x Hx]. now apply Ha in Hx.
  - split; [intros _; eauto|]. intros Hns. exfalso. eapply Hns; eassumption.
  - split; [|reflexivity]. intros (t & ps & H1 & H2). exfalso.
    eapply Hns; eassumption.
Qed.

Lemma init_invalid_precedence_messages_witness :
  exists t ps,
    In (t, ps) (("T1", ["T1"]) :: tl Scenario.prec) /\ In t ps /\
    TaskSystem_init Scenario.all_tasks (("T1", ["T1"]) :: tl Scenario.prec) =
      Raise (InvalidPrecedenceDictError
               ("Task " ++ t ++ " cannot depend on itself")).
Proof.
  assert (Hwf : dict_wf (("T1", ["T1"]) :: tl Scenario.prec)).
  { apply dict_wf_decide. reflexivity. }
  assert (He : all_have_entry Scenario.all_tasks
                 (("T1", ["T1"]) :: tl Scenario.prec)).
  { intros t Ht. simpl in Ht.
    repeat (destruct Ht as [<- | Ht]; [discriminate|]). destruct Ht. }
  apply (proj1 (init_invalid_precedence_messages Scenario.all_tasks
                  (("T1", ["T1"]) :: tl Scenario.prec) Hwf He
                  (vi_distinct _ _ scenario_valid) (fun k Hk => Hk))).
  exists "T1", ["T1"]. split; now left.
Defined.

(** The outcome of the cycle check on two graphs that have the same keys in
    another order, and the same sets iterated in another order. *)
Lemma check_roots_iteration_order_witness :
  check_roots (S (length Orders.graph1)) Orders.graph1
    (keys Orders.graph1) ([], []) =
  check_roots (S (length Orders.graph2)) Orders.graph2
    (keys Orders.graph2) ([], []).
Proof.
  assert (H1 : forall u v, successor Orders.graph1 u v <->
                 (u = "T1" /\ (v = "T3" \/ v = "T4")) \/
                 (u = "T3" /\ v = "T4")).
  { intros u v. split.
    - intros (l & Hl & Hv). apply get_In in Hl. simpl in Hl.
      repeat (destruct Hl as [[= <- <-] | Hl]; [simpl in Hv; intuition|]).
      destruct Hl.
    - intros [[-> [-> | ->]] | [-> ->]]; eexists;
        (split; [reflexivity | simpl; tauto]). }
  assert (H2 : forall u v, successor Orders.graph2 u v <->
                 (u = "T1" /\ (v = "T3" \/ v = "T4")) \/
                 (u = "T3" /\ v = "T4")).
  { intros u v. split.
    - intros (l & Hl & Hv). apply get_In in Hl. simpl in Hl.
      repeat (destruct Hl as [[= <- <-] | Hl]; [simpl in Hv; intuition|]).
      destruct Hl.
    - intros [[-> [-> | ->]] | [-> ->]]; eexists;
        (split; [reflexivity | simpl; tauto]). }
  apply (check_roots_iteration_order Orders.graph1 Orders.graph2).
  - intros u v H. apply H1 in H. simpl.
    destruct H as [[_ [-> | ->]] | [_ ->]]; tauto.
  - intros u v H. apply H2 in H. simpl.
    destruct H as [[_ [-> | ->]] | [_ ->]]; tauto.
  - intros u v. rewrite H1, H2. tauto.
Defined.

(** The conflict test of [run] does not depend on which of the two tasks is
    the one polled, and holds exactly when some variable is read by one of
    them and written by the other. *)
Theorem conflict_test_symmetric (a b : Task) :
  conflicts a b = conflicts b a /\
  (conflicts a b = true <->
   exists x, (In x (reads a) /\ In x (writes b)) \/
             (In x (writes a) /\ In x (reads b))).
Proof.
  split.
  - unfold conflicts.
    rewrite (intersects_sym (reads a)), (intersects_sym (writes a)).
    apply orb_comm.
  - unfold conflicts. rewrite orb_true_iff, !intersects_true.
    split.
    + intros [(x & H) | (x & H)]; exists x; tauto.
    + intros (x & [H | H]); [left | right]; exists x; tauto.
Qed.

(** * Further properties of dependency resolution *)

Section ResolverAny.

Variable prec : precedence_dict.
Hypothesis prec_acyclic : acyclic prec.

Lemma each_sub_dependency_any (f : nat) (u : string) (anc : list string)
    (IH : forall p st,
            deps_pre_any prec f (u :: anc) st ->
            (forall a, In a (u :: anc) -> trans_pred prec a p) ->
            deps_post_any prec p st (r_get_dependencies f prec p st)) :
  NoDup (u :: anc) -> incl (u :: anc) (keys prec) ->
  (forall a, In a anc -> trans_pred prec a u) ->
  length (keys prec) < f + length (u :: anc) ->
  forall (subs : list string) (st : deps_state),
  deps_inv_entries prec st ->
  (forall p, In p subs -> direct_pred prec u p) ->
  (exists new V',
     each_sub_dependency (r_get_dependencies f prec) subs st =
       Ok (fst st ++ new, V') /\
     deps_inv_entries prec (fst st ++ new, V') /\
     (forall x, In x new -> trans_pred prec u x) /\
     (forall p, In p subs -> In p (fst st ++ new)))
  \/
  (each_sub_dependency (r_get_dependencies f prec) subs st = Raise TypeError /\
   exists x, trans_pred prec u x /\ get prec x = None).
Proof.
  intros Hnd Hincl Hanc Hfuel.
  induction subs as [|p subs IHl]; intros st Hinv Hsubs; simpl.
  - left. exists [], (snd st). rewrite app_nil_r.
    split; [now destruct st|]. split; [now destruct st|].
    split; intros x [].
  - assert (Hup : direct_pred prec u p) by (apply Hsubs; now left).
    assert (Hpre : deps_pre_any prec f (u :: anc) st).
    { split; [assumption|]. split; [assumption|]. now split. }
    assert (Hancp : forall a, In a (u :: anc) -> trans_pred prec a p).
    { intros a [<- | Ha]; [now apply t_step|].
      eapply t_trans; [now apply Hanc | now apply t_step]. }
    destruct (IH p st Hpre Hancp)
      as [(new1 & V1 & -> & Hinv1 & Hnew1 & Hp & _) | (-> & x & Hx & Hnone)].
    2:{ right. split; [reflexivity|]. exists x. split; [|assumption].
        destruct Hx as [-> | Hx]; [now apply t_step|].
        eapply t_trans; [apply t_step; eassumption | assumption]. }
    simpl.
    destruct (IHl (fst st ++ new1, V1) Hinv1)
      as [(new2 & V2 & E & Hinv2 & Hnew2 & Hall) | (E & Hd)].
    { intros q Hq. apply Hsubs. now right. }
    2:{ right. now split. }
    left. simpl in *. rewrite <- app_assoc in *.
    exists (new1 ++ new2), V2. split; [assumption|]. split; [assumption|].
    split.
    + intros x Hx. apply in_app_iff in Hx. destruct Hx as [Hx | Hx]; auto.
      destruct (Hnew1 x Hx) as [-> | Hx']; [now apply t_step|].
      eapply t_trans; [apply t_step; eassumption | assumption].
    + intros q [<- | Hq]; [|now apply Hall].
      rewrite app_assoc. apply in_app_iff. now left.
Qed.

Lemma r_get_dependencies_any (fuel : nat) :
  forall u anc st,
  deps_pre_any prec fuel anc st ->
  (forall a, In a anc -> trans_pred prec a u) ->
  deps_post_any prec u st (r_get_dependencies fuel prec u st).
Proof.
  induction fuel as [|f IH];
    intros u anc st ((Hinv & Hent) & Hnd & Hincl & Hfuel) Hanc.
  - exfalso. pose proof (NoDup_incl_length Hnd Hincl). simpl in *. lia.
  - rewrite r_get_dependencies_unfold.
    destruct (mem u (snd st)) eqn:Ev; simpl.
    + apply mem_In in Ev. left. exists [], (snd st). rewrite app_nil_r.
      destruct Hinv as (HV & HD & HO).
      split; [now destruct st|].
      split; [split; [now split | assumption]|].
      split; [intros x []|]. split; [now apply HV|].
      intros Hn. exfalso. now apply Hn, HV.
    + apply mem_false in Ev.
      assert (Hu : ~ In u anc).
      { intros H. apply (prec_acyclic u). now apply Hanc. }
      assert (HuD : ~ In u (fst st)).
      { intros H. apply Ev. now apply Hinv. }
      destruct (get prec u) as [subs|] eqn:E.
      2:{ right. split; [reflexivity|]. exists u. auto. }
      assert (Huk : In u (keys prec)) by (apply get_Some_key; eauto).
      destruct (each_sub_dependency_any f u anc
                  (fun p st' Hp Ha => IH p (u :: anc) st' Hp Ha))
        with (subs := subs) (st := st)
        as [(new & V' & -> & ((HV & HD & HO) & HE) & Hnew & Hall)
           | (-> & x & Hx & Hnone)].
      * now constructor.
      * intros x [<- | Hx]; [assumption | now apply Hincl].
      * assumption.
      * simpl. lia.
      * now split.
      * intros p Hp. exists subs. now split.
      * left. simpl in *.
        assert (HuD' : ~ In u (fst st ++ new)).
        { intros H. apply in_app_iff in H. destruct H as [H | H]; [tauto|].
          apply (prec_acyclic u). now apply Hnew. }
        exists (new ++ [u]), (set_add u V'). rewrite app_assoc.
        split; [reflexivity|]. split; [|split; [|split]].
        -- split; [split; [|split]|]; simpl.
           ++ intros x. rewrite set_add_In, HV, !in_app_iff. simpl.
              intuition congruence.
           ++ apply NoDup_app; [assumption | repeat constructor; intros [] |].
              intros x Hx [<- | []]. contradiction.
           ++ apply ordered_snoc; [assumption|].
              intros y Hy. apply trans_pred_first in Hy.
              destruct Hy as (p & (ps & Hps & Hp) & Hy).
              assert (Hin : In p (fst st ++ new)).
              { apply Hall. congruence. }
              destruct Hy as [<- | Hy]; [assumption|].
              eapply ordered_closed; eassumption.
           ++ intros x Hx. apply in_app_iff in Hx.
              destruct Hx as [Hx | [<- | []]]; [now apply HE | congruence].
        -- intros x Hx. apply in_app_iff in Hx.
           destruct Hx as [Hx | [<- | []]]; auto.
        -- apply in_app_iff. right. now left.
        -- intros _. now exists new.
      * right. simpl. split; [reflexivity|]. exists x. auto.
Qed.

(** On an acyclic dictionary [get_dependencies] never runs out of fuel: it
    returns the list of the transitive predecessors, or raises. *)
Lemma get_dependencies_any (table : dict Task) (logging : bool) (u : string) :
  get prec u <> None ->
  (exists l,
     get_dependencies (mkTaskSystem table prec logging) u = Ok l /\
     NoDup l /\ ~ In u l /\
     (forall x, In x l <-> trans_pred prec u x) /\
     dependency_ordered prec l /\
     (forall x, trans_pred prec u x -> get prec x <> None))
  \/
  (get_dependencies (mkTaskSystem table prec logging) u = Raise TypeError /\
   exists x, trans_pred prec u x /\ get prec x = None).
Proof.
  intros Hentry. unfold get_dependencies. cbn [precedence].
  destruct (get prec u) as [entry|] eqn:E; [clear Hentry | congruence].
  assert (Hpre : deps_pre_any prec (S (length prec)) [] ([], [])).
  { split.
    { split; [|intros x []].
      split; [tauto|]. split; [constructor | apply ordered_nil]. }
    split; [constructor|]. split; [intros x []|].
    unfold keys. rewrite length_map. simpl. lia. }
  destruct (r_get_dependencies_any _ u [] ([], []) Hpre)
    as [(new & V' & -> & ((HV & HD & HO) & HE) & Hnew & Hin & Hlast)
       | (-> & x & Hx & Hnone)].
  { intros a []. }
  - left. cbn [bind fst snd app] in *. destruct Hlast as [l ->]; [tauto|].
    exists l. rewrite removelast_last. split; [reflexivity|].
    pose proof HD as HD'. apply NoDup_app_inv in HD'.
    destruct HD' as (Hl & _ & Hdisj).
    assert (Hul : ~ In u l).
    { intros H. apply (Hdisj u H). now left. }
    assert (Hiff : forall x, In x l <-> trans_pred prec u x).
    { intros x. split.
      - intros Hx. destruct (Hnew x) as [-> | H]; [|contradiction|assumption].
        apply in_app_iff. now left.
      - intros Hx. apply (HO l u [] eq_refl x Hx). }
    split; [assumption|]. split; [assumption|]. split; [assumption|].
    split; [eapply ordered_prefix; eassumption|].
    intros x Hx. apply HE. apply in_app_iff. left. now apply Hiff.
  - right. cbn [bind]. split; [reflexivity|]. exists x.
    split; [|assumption]. destruct Hx as [-> | Hx]; [congruence | assumption].
Qed.

End ResolverAny.

(** On every system that construction returns, [get_dependencies] of a name
    with an entry returns the list of its transitive predecessors when all
    of them have an entry, and raises [TypeError] when one of them has none;
    of a name with no entry it raises [TaskNotFoundError]. *)
Theorem get_dependencies_of_constructed (ts : list Task)
    (prec : precedence_dict) (sys : TaskSystem) (u : string) :
  dict_wf prec -> TaskSystem_init ts prec = Ok sys ->
  (get prec u = None ->
   get_dependencies sys u = Raise (TaskNotFoundError u))
  /\
  (get prec u <> None ->
   (forall x, trans_pred prec u x -> get prec x <> None) ->
   exists l,
     get_dependencies sys u = Ok l /\ NoDup l /\ ~ In u l /\
     (forall x, In x l <-> trans_pred prec u x) /\
     dependency_ordered prec l)
  /\
  (get prec u <> None ->
   (exists x, trans_pred prec u x /\ get prec x = None) ->
   get_dependencies sys u = Raise TypeError).
Proof.
  intros Hwf Hinit. apply init_inv in Hinit; [|assumption].
  destruct Hinit as (-> & _ & _ & _ & Hac).
  split; [|split].
  - intros Hn. unfold get_dependencies. cbn [precedence]. now rewrite Hn.
  - intros He Hall.
    destruct (get_dependencies_any prec Hac (task_table ts) true u He)
      as [(l & Hl & H1 & H2 & H3 & H4 & _) | (_ & x & Hx & Hnone)].
    + exists l. auto.
    + exfalso. now apply (Hall x).
  - intros He (x & Hx & Hnone).
    destruct (get_dependencies_any prec Hac (task_table ts) true u He)
      as [(l & _ & _ & _ & _ & _ & Hall) | (Hr & _)]; [|assumption].
    exfalso. now apply (Hall x).
Qed.

Lemma get_dependencies_of_constructed_witness :
  get_dependencies (mkTaskSystem (task_table [Inputs.lone])
                      Inputs.dangling_prec true) "T1" = Raise TypeError.
Proof.
  apply (proj2 (proj2 (get_dependencies_of_constructed [Inputs.lone]
                         Inputs.dangling_prec _ "T1"
                         (dict_wf_decide Inputs.dangling_prec eq_refl)
                         eq_refl))).
  - discriminate.
  - exists "T9". split; [|reflexivity].
    apply t_step. exists ["T9"]. split; [reflexivity | now left].
Defined.

(** * Further properties of the parallel run *)

Lemma started_snoc (tr : list event) (e : event) :
  started (tr ++ [e]) =
  started tr ++ match e with Start t => [t] | Finish _ => [] end.
Proof.
  rewrite started_app. simpl. now rewrite app_nil_r.
Qed.

Lemma finished_snoc (tr : list event) (e : event) :
  finished (tr ++ [e]) =
  finished tr ++ match e with Start _ => [] | Finish t => [t] end.
Proof.
  unfold finished. rewrite flat_map_app. simpl. now rewrite app_nil_r.
Qed.

Lemma unreturned_app (l1 l2 : list thread) :
  unreturned (l1 ++ l2) = unreturned l1 ++ unreturned l2.
Proof.
  unfold unreturned. now rewrite filter_app, map_app.
Qed.

Lemma unreturned_In (procs : list thread) (t : Task) :
  In t (unreturned procs) <-> In (t, false) procs.
Proof.
  unfold unreturned. rewrite in_map_iff. split.
  - intros ([t' r] & <- & H). apply filter_In in H. destruct H as [H Hr].
    simpl in *. apply negb_true_iff in Hr. now subst.
  - intros H. exists (t, false). split; [reflexivity|].
    apply filter_In. now split.
Qed.

Lemma NoDup_map_filter {A B : Type} (f : A -> B) (g : A -> bool)
    (l : list A) :
  NoDup (map f l) -> NoDup (map f (filter g l)).
Proof.
  induction l as [|a l IH]; simpl; intros H; [constructor|].
  inversion H as [|? ? Hn Hnd]; subst.
  destruct (g a); simpl; [|auto]. constructor; [|auto].
  intros Hin. apply Hn. apply in_map_iff in Hin.
  destruct Hin as (x & Hx & Hin). apply filter_In in Hin.
  apply in_map_iff. exists x. tauto.
Qed.

Lemma reap_filter (dead_names : list string) (procs : list thread) :
  forall done : list string,
  fst (reap dead_names procs done) =
  filter (fun p => negb (snd p && mem (name (fst p)) dead_names)) procs.
Proof.
  induction procs as [|[t r] procs IH]; intros done; simpl; [reflexivity|].
  destruct (r && mem (name t) dead_names) eqn:E; simpl.
  - apply IH.
  - specialize (IH done).
    destruct (reap dead_names procs done) as [rest' d']. simpl in *.
    now rewrite IH.
Qed.

Lemma reap_unreturned (dead_names : list string) (procs : list thread)
    (done : list string) :
  unreturned (fst (reap dead_names procs done)) = unreturned procs.
Proof.
  rewrite reap_filter. unfold unreturned. f_equal.
  induction procs as [|[t r] procs IH]; simpl; [reflexivity|].
  destruct r; simpl.
  - destruct (mem (name t) dead_names); simpl; exact IH.
  - now rewrite IH.
Qed.

Lemma return_thread_cases (n : string) (procs : list thread) :
  forall (w : World) (procs' : list thread) (w' : World),
  return_thread n procs w = (procs', w') ->
  (procs' = procs /\ w' = w /\
   forall t, In (t, false) procs -> name t <> n)
  \/
  (exists l1 t l2,
     procs = l1 ++ (t, false) :: l2 /\ procs' = l1 ++ (t, true) :: l2 /\
     name t = n /\ w' = thread_body t w).
Proof.
  induction procs as [|[t r] procs IH]; intros w procs' w' H; simpl in H.
  - injection H as <- <-. left. repeat split. intros t [].
  - destruct (String.eqb (name t) n && negb r) eqn:E.
    + injection H as <- <-. right.
      apply andb_prop in E. destruct E as [En Er].
      apply negb_true_iff in Er. apply String.eqb_eq in En. subst r.
      now exists [], t, procs.
    + destruct (return_thread n procs w) as [rest' w1] eqn:Er.
      injection H as <- <-.
      destruct (IH _ _ _ Er)
        as [(-> & -> & Hno) | (l1 & u & l2 & -> & -> & Hu & ->)].
      * left. repeat split. intros u [[= -> ->] | Hu]; [|now apply Hno].
        rewrite andb_true_r in E. now apply String.eqb_neq in E.
      * right. now exists ((t, r) :: l1), u, l2.
Qed.

Lemma thread_body_store (t : Task) (w : World) :
  store (thread_body t w) = action_of t (store w).
Proof.
  unfold thread_body, action_of. now destruct (run t).
Qed.

Lemma run_actions_snoc (order : list Task) (t : Task) (st : Store) :
  run_actions (order ++ [t]) st = action_of t (run_actions order st).
Proof.
  unfold run_actions. now rewrite fold_left_app.
Qed.

(** The target of a thread returns: the task moves from running to
    finished. *)
Lemma count_inv_return (order : list Task) (l1 l2 : list thread) (t : Task)
    (qt : list Task) (tr : list event) :
  count_inv order (l1 ++ (t, false) :: l2) qt tr ->
  count_inv order (l1 ++ (t, true) :: l2) qt (tr ++ [Finish t]).
Proof.
  intros [Hq Hf Hn Hp]. constructor.
  - now rewrite started_snoc, app_nil_r.
  - rewrite started_snoc, finished_snoc, app_nil_r.
    rewrite unreturned_app in *. cbn [unreturned filter snd negb map] in *.
    fold (unreturned l2) in *.
    eapply Permutation_trans; [|exact Hf].
    rewrite <- app_assoc. apply Permutation_app_head. simpl.
    apply Permutation_middle.
  - now rewrite map_app in *.
  - intros p Hin. rewrite started_snoc, app_nil_r.
    apply in_app_iff in Hin. destruct Hin as [Hin | [<- | Hin]].
    + apply Hp, in_app_iff. now left.
    + apply (Hp (t, false)), in_app_iff. right. now left.
    + apply Hp, in_app_iff. right. now right.
Qed.

Lemma return_threads_unreturned (ns : list string) :
  forall (procs : list thread) (w : World) (procs' : list thread)
         (w' : World),
  return_threads ns procs w = (procs', w') ->
  forall u, In (u, false) procs' -> In (u, false) procs.
Proof.
  induction ns as [|m ns IHn]; intros procs w procs' w' H u Hu; simpl in H.
  - injection H as <- <-. assumption.
  - destruct (return_thread m procs w) as [p1 w1] eqn:E.
    apply return_thread_spec in E.
    destruct E as [(-> & ->) | (l1 & t & l2 & -> & -> & ->)].
    + eapply IHn; eassumption.
    + apply (IHn _ _ _ _ H) in Hu. apply in_app_iff in Hu.
      apply in_app_iff. destruct Hu as [Hu | [[=] | Hu]]; auto.
      right. now right.
Qed.

Lemma return_threads_count (order : list Task) (qt : list Task)
    (st0 : Store) (base : list event) (ns : list string) :
  forall (procs : list thread) (w : World) (procs' : list thread)
         (w' : World) (tr : list event),
  return_threads ns procs w = (procs', w') ->
  trace w = base ++ tr -> store w = run_actions (finished tr) st0 ->
  count_inv order procs qt tr ->
  exists tr',
    trace w' = base ++ tr' /\ store w' = run_actions (finished tr') st0 /\
    count_inv order procs' qt tr' /\
    forall t, In (t, false) procs' -> ~ In (name t) ns.
Proof.
  induction ns as [|n ns IH]; intros procs w procs' w' tr H Htr Hst Hinv;
    simpl in H.
  - injection H as <- <-. exists tr.
    split; [assumption|]. split; [assumption|]. split; [assumption|].
    intros t _ [].
  - destruct (return_thread n procs w) as [procs1 w1] eqn:E.
    apply return_thread_cases in E.
    destruct E as [(-> & -> & Hno) | (l1 & t & l2 & -> & -> & Hname & ->)].
    + destruct (IH _ _ _ _ _ H Htr Hst Hinv) as (tr' & H1 & H2 & H3 & H4).
      exists tr'.
      split; [assumption|]. split; [assumption|]. split; [assumption|].
      intros t Ht [E | Hin]; [|now apply (H4 t)].
      apply (Hno t); [|now symmetry].
      eapply return_threads_unreturned; eassumption.
    + pose proof (count_inv_return _ _ _ _ _ _ Hinv) as Hinv1.
      destruct (IH _ _ _ _ (tr ++ [Finish t]) H) as (tr' & H1 & H2 & H3 & H4);
        try assumption.
      * rewrite thread_body_trace, Htr. now rewrite app_assoc.
      * rewrite thread_body_store, finished_snoc, run_actions_snoc.
        now rewrite Hst.
      * exists tr'.
        split; [assumption|]. split; [assumption|]. split; [assumption|].
        intros u Hu [E | Hin]; [|now apply (H4 u)].
        apply (return_threads_unreturned _ _ _ _ _ H) in Hu.
        pose proof (ci_names _ _ _ _ Hinv1) as Hnd.
        rewrite map_app in Hnd. simpl in Hnd.
        apply NoDup_remove_2 in Hnd. apply Hnd.
        apply in_app_iff in Hu. apply in_app_iff.
        destruct Hu as [Hu | [[=] | Hu]]; [left | right];
          apply in_map_iff; exists (u, false);
          (split; [simpl; congruence | assumption]).
Qed.

Lemma count_inv_names (order : list Task) (procs : list thread)
    (qt : list Task) (tr : list event) :
  NoDup (map name order) -> count_inv order procs qt tr ->
  NoDup (map name (started tr ++ qt)).
Proof.
  intros Hnd Hinv. eapply Permutation_NoDup; [|exact Hnd].
  apply Permutation_map, Permutation_sym, Hinv.
Qed.

(** A thread is started for the task at the head of the queue. *)
Lemma count_inv_start (order : list Task) (procs : list thread) (t : Task)
    (rest : list Task) (tr : list event) :
  NoDup (map name order) -> count_inv order procs (t :: rest) tr ->
  count_inv order (procs ++ [(t, false)]) rest (tr ++ [Start t]).
Proof.
  intros Hnd Hinv. pose proof (count_inv_names _ _ _ _ Hnd Hinv) as Hn.
  destruct Hinv as [Hq Hf Hp Hs]. constructor.
  - rewrite started_snoc, <- app_assoc. exact Hq.
  - rewrite started_snoc, finished_snoc, app_nil_r, unreturned_app.
    cbn [unreturned filter snd negb map]. rewrite app_assoc.
    now apply Permutation_app_tail.
  - rewrite map_app. simpl. apply NoDup_app; [assumption | |].
    + repeat constructor. intros [].
    + intros x Hx [<- | []]. rewrite map_app in Hn. simpl in Hn.
      apply NoDup_remove_2 in Hn. apply Hn. apply in_app_iff. left.
      apply in_map_iff in Hx. destruct Hx as (p & Hpn & Hin).
      apply in_map_iff. exists (fst p). split; [assumption | now apply Hs].
  - intros p Hin. rewrite started_snoc. apply in_app_iff.
    apply in_app_iff in Hin. destruct Hin as [Hin | [<- | []]].
    + left. now apply Hs.
    + right. now left.
Qed.

(** The task at the head of the queue is put back at its end. *)
Lemma count_inv_requeue (order : list Task) (procs : list thread) (t : Task)
    (rest : list Task) (tr : list event) :
  count_inv order procs (t :: rest) tr ->
  count_inv order procs (rest ++ [t]) tr.
Proof.
  intros [Hq Hf Hp Hs]. constructor; try assumption.
  eapply Permutation_trans; [|exact Hq].
  apply Permutation_app_head. apply Permutation_sym.
  apply Permutation_cons_append.
Qed.

Lemma count_inv_reap (order : list Task) (dead_names : list string)
    (procs : list thread) (done : list string) (qt : list Task)
    (tr : list event) :
  count_inv order procs qt tr ->
  count_inv order (fst (reap dead_names procs done)) qt tr.
Proof.
  intros [Hq Hf Hp Hs]. constructor.
  - assumption.
  - now rewrite reap_unreturned.
  - rewrite reap_filter. now apply NoDup_map_filter.
  - intros p Hin. rewrite reap_filter in Hin. apply filter_In in Hin.
    now apply Hs.
Qed.

Lemma run_iter_count (sys : TaskSystem) (order : list Task) (st0 : Store)
    (base : list event) (env : schedule_step) (s : run_state)
    (w w' : World) (r : result run_state) (qt : list Task)
    (tr : list event) :
  NoDup (map name order) ->
  run_iter sys env s w = (w', r) ->
  queue s = map Some qt ->
  trace w = base ++ tr -> store w = run_actions (finished tr) st0 ->
  count_inv order (processes s) qt tr ->
  match r with
  | Ok s' =>
      exists qt' tr',
        queue s' = map Some qt' /\
        trace w' = base ++ tr' /\
        store w' = run_actions (finished tr') st0 /\
        count_inv order (processes s') qt' tr'
  | _ => w' = w
  end.
Proof.
  intros Hnd H Hq Htr Hst Hinv. unfold run_iter in H. rewrite Hq in H.
  destruct qt as [|task rest]; cbn [map] in H.
  - injection H as <- <-. exists [], tr. rewrite Hq. auto.
  - destruct (get_dependencies sys (name task)) as [deps| |] eqn:Ed.
    2,3: now injection H as <- <-.
    destruct (if negb (issubset deps (executed s)) then false
              else negb (existsb (fun p => conflicts task (fst p))
                           (processes s))).
    + destruct (return_threads (returning env)
                  (processes s ++ [(task, false)])
                  (log sys task (emit (Start task) w)))
        as [procs2 w2] eqn:Er.
      pose proof (reap_filter (dead env) procs2 (executed s)) as Hrf.
      pose proof (count_inv_reap order (dead env) procs2 (executed s)) as Hcr.
      destruct (reap (dead env) procs2 (executed s)) as [procs3 done] eqn:Ep.
      injection H as <- <-. cbn [queue processes fst] in *.
      destruct (log_trace sys task (emit (Start task) w)) as [Hlt Hls].
      destruct (return_threads_count order rest st0 base _ _ _ _ _
                  (tr ++ [Start task]) Er)
        as (tr' & H1 & H2 & H3 & _).
      * rewrite Hlt. simpl. rewrite Htr. now rewrite app_assoc.
      * rewrite Hls, finished_snoc, app_nil_r. simpl. exact Hst.
      * now apply count_inv_start.
      * exists rest, tr'. auto.
    + destruct (return_threads (returning env) (processes s) w)
        as [procs2 w2] eqn:Er.
      pose proof (count_inv_reap order (dead env) procs2 (executed s)) as Hcr.
      destruct (reap (dead env) procs2 (executed s)) as [procs3 done] eqn:Ep.
      injection H as <- <-. cbn [queue processes fst] in *.
      destruct (return_threads_count order (rest ++ [task]) st0 base _ _ _ _ _
                  tr Er Htr Hst)
        as (tr' & H1 & H2 & H3 & _).
      * now apply count_inv_requeue.
      * exists (rest ++ [task]), tr'. rewrite map_app. auto.
Qed.

(** The scheduling loop as a whole: what it has started and finished when
    it ends, however it ends. *)
Lemma run_loop_count (sys : TaskSystem) (order : list Task) (st0 : Store)
    (base : list event) (envs : list schedule_step) :
  NoDup (map name order) ->
  forall (s : run_state) (w w' : World) (r : result unit) (qt : list Task)
         (tr : list event),
  run_loop sys envs s w = (w', r) ->
  queue s = map Some qt ->
  trace w = base ++ tr -> store w = run_actions (finished tr) st0 ->
  count_inv order (processes s) qt tr ->
  exists tr' procs' qt',
    trace w' = base ++ tr' /\
    store w' = run_actions (finished tr') st0 /\
    count_inv order procs' qt' tr' /\
    (r = Ok tt -> qt' = [] /\ unreturned procs' = []).
Proof.
  intros Hnd.
  assert (Hjoin : forall envs' s w w' r tr,
            queue s = [] -> run_loop sys envs' s w = (w', r) ->
            trace w = base ++ tr -> store w = run_actions (finished tr) st0 ->
            count_inv order (processes s) [] tr ->
            exists tr' procs' qt',
              trace w' = base ++ tr' /\
              store w' = run_actions (finished tr') st0 /\
              count_inv order procs' qt' tr' /\
              (r = Ok tt -> qt' = [] /\ unreturned procs' = [])).
  { intros envs' s w w' r tr Hq H Htr Hst Hinv.
    assert (Hj : exists ns, (w', r) =
              (snd (return_threads (ns ++ map (fun p => name (fst p))
                                             (processes s))
                      (processes s) w), Ok tt)).
    { destruct envs'; simpl in H; rewrite Hq in H; rewrite <- H;
        unfold join_all; eauto. }
    destruct Hj as [ns Hj]. injection Hj as -> ->.
    destruct (return_threads (ns ++ map (fun p => name (fst p)) (processes s))
                (processes s) w) as [procs' w1] eqn:Er.
    destruct (return_threads_count order [] st0 base _ _ _ _ _ tr Er Htr Hst
                Hinv) as (tr' & H1 & H2 & H3 & H4).
    exists tr', procs', []. simpl.
    split; [assumption|]. split; [assumption|]. split; [assumption|].
    intros _. split; [reflexivity|].
    destruct (unreturned procs') as [|u l] eqn:Eu; [reflexivity|].
    exfalso. assert (Hu : In (u, false) procs').
    { apply unreturned_In. rewrite Eu. now left. }
    apply (H4 u Hu). apply in_app_iff. right.
    apply (return_threads_unreturned _ _ _ _ _ Er) in Hu.
    apply in_map_iff. now exists (u, false). }
  induction envs as [|env envs IH]; intros s w w' r qt tr H Hq Htr Hst Hinv.
  - destruct qt as [|t qt]; [eapply Hjoin; eassumption|].
    simpl in H. rewrite Hq in H. cbn [map] in H. injection H as <- <-.
    exists tr, (processes s), (t :: qt).
    split; [assumption|]. split; [assumption|]. split; [assumption|].
    discriminate.
  - destruct qt as [|t qt]; [eapply Hjoin; eassumption|].
    simpl in H. rewrite Hq in H. cbn [map] in H.
    destruct (run_iter sys env s w) as [w1 r1] eqn:Ei.
    pose proof (run_iter_count sys order st0 base env s w w1 r1 (t :: qt) tr
                  Hnd Ei Hq Htr Hst Hinv) as Hstep.
    destruct r1 as [s1| |].
    + destruct Hstep as (qt1 & tr1 & Hq1 & Htr1 & Hst1 & Hinv1).
      eapply IH; eassumption.
    + injection H as <- <-. subst w1.
      exists tr, (processes s), (t :: qt).
      split; [assumption|]. split; [assumption|]. split; [assumption|].
      discriminate.
    + injection H as <- <-. subst w1.
      exists tr, (processes s), (t :: qt).
      split; [assumption|]. split; [assumption|]. split; [assumption|].
      discriminate.
Qed.

Lemma count_inv_init (order : list Task) : count_inv order [] order [].
Proof.
  constructor; simpl; auto. constructor.
Qed.

Lemma parallel_run_count (ts : list Task) (prec : precedence_dict)
    (logging : bool) (envs : list schedule_step) (w w' : World)
    (r : result unit) :
  valid_input ts prec ->
  parallel_run (mkTaskSystem (task_table ts) prec logging) envs w = (w', r) ->
  exists tr,
    trace w' = trace w ++ tr /\
    NoDup (map name (started tr)) /\ incl (started tr) ts /\
    incl (finished tr) (started tr) /\ NoDup (map name (finished tr)) /\
    store w' = run_actions (finished tr) (store w) /\
    (r = Ok tt ->
     Permutation (started tr) ts /\ Permutation (finished tr) ts).
Proof.
  intros Hv Hrun.
  unfold parallel_run in Hrun.
  destruct (tasks_queue_valid ts prec (mkTaskSystem (task_table ts) prec logging)
              Hv eq_refl eq_refl) as (order & Hq & Hperm & Hnd & _).
  rewrite Hq in Hrun.
  destruct (run_loop_count _ order (store w) (trace w) envs Hnd _ _ _ _ order []
              Hrun eq_refl) as (tr & procs & qt & Htr & Hst & Hinv & Hok).
  { now rewrite app_nil_r. }
  { reflexivity. }
  { apply count_inv_init. }
  pose proof (count_inv_names _ _ _ _ Hnd Hinv) as Hn.
  rewrite map_app in Hn.
  assert (Hsn : NoDup (map name (started tr))).
  { now apply NoDup_app_remove_r in Hn. }
  assert (Hfs : incl (finished tr) (started tr)).
  { intros x Hx. eapply Permutation_in; [apply (ci_finished _ _ _ _ Hinv)|].
    apply in_app_iff. now left. }
  exists tr. split; [assumption|]. split; [assumption|]. split; [|split; [|split; [|split]]].
  - intros x Hx. eapply Permutation_in; [exact Hperm|].
    eapply Permutation_in; [apply (ci_queue _ _ _ _ Hinv)|].
    apply in_app_iff. now left.
  - assumption.
  - assert (Hfn : NoDup (map name (finished tr ++ unreturned procs))).
    { eapply Permutation_NoDup; [|exact Hsn].
      apply Permutation_map, Permutation_sym, Hinv. }
    rewrite map_app in Hfn. now apply NoDup_app_remove_r in Hfn.
  - assumption.
  - intros Hr. destruct (Hok Hr) as [-> Hu].
    pose proof (ci_queue _ _ _ _ Hinv) as Hpq. rewrite app_nil_r in Hpq.
    pose proof (ci_finished _ _ _ _ Hinv) as Hpf.
    rewrite Hu, app_nil_r in Hpf.
    split.
    + eapply Permutation_trans; eassumption.
    + eapply Permutation_trans; [exact Hpf|].
      eapply Permutation_trans; eassumption.
Qed.




(** ** Actions that do not interfere commute *)

Lemma accurate_same_store (t : Task) (st st' : Store) :
  accurate t -> same_store st st' ->
  same_store (action_of t st) (action_of t st').
Proof.
  intros [H1 H2] Hs x.
  destruct (in_dec string_dec x (writes t)) as [Hw | Hw].
  - apply H2; [|assumption]. intros y _. apply Hs.
  - rewrite !H1 by assumption. apply Hs.
Qed.

Lemma run_actions_same_store (l : list Task) :
  (forall t, In t l -> accurate t) ->
  forall st st', same_store st st' ->
  same_store (run_actions l st) (run_actions l st').
Proof.
  induction l as [|t l IH]; intros Hacc st st' Hs; simpl; [assumption|].
  apply IH.
  - intros u Hu. apply Hacc. now right.
  - apply accurate_same_store; [apply Hacc; now left | assumption].
Qed.

Lemma actions_commute (a b : Task) (st : Store) :
  accurate a -> accurate b -> ~ interferes a b ->
  same_store (action_of a (action_of b st)) (action_of b (action_of a st)).
Proof.
  intros [A1 A2] [B1 B2] Hni x.
  assert (Hrw : forall y, In y (reads a) -> ~ In y (writes b)).
  { intros y H1 H2. apply Hni. exists y. tauto. }
  assert (Hwr : forall y, In y (reads b) -> ~ In y (writes a)).
  { intros y H1 H2. apply Hni. exists y. tauto. }
  assert (Hww : forall y, In y (writes a) -> ~ In y (writes b)).
  { intros y H1 H2. apply Hni. exists y. tauto. }
  destruct (in_dec string_dec x (writes a)) as [Hwa | Hwa].
  - rewrite (B1 (action_of a st) x) by (now apply Hww).
    apply A2; [|assumption]. intros y Hy. apply B1. now apply Hrw.
  - rewrite (A1 (action_of b st) x) by assumption.
    destruct (in_dec string_dec x (writes b)) as [Hwb | Hwb].
    + apply B2; [|assumption]. intros y Hy. symmetry. apply A1.
      now apply Hwr.
    + rewrite (B1 st x), (B1 (action_of a st) x) by assumption.
      symmetry. now apply A1.
Qed.

Lemma run_actions_move_front (s : Task) (F1 F2 : list Task) :
  (forall t, In t (F1 ++ s :: F2) -> accurate t) ->
  (forall a, In a F1 -> ~ interferes a s) ->
  forall st,
  same_store (run_actions (F1 ++ s :: F2) st)
             (run_actions (s :: F1 ++ F2) st).
Proof.
  induction F1 as [|a F1 IH]; intros Hacc Hni st.
  - intros x. reflexivity.
  - simpl. intros x.
    rewrite (IH (fun t Ht => Hacc t (or_intror Ht))
                (fun b Hb => Hni b (or_intror Hb)) (action_of a st) x).
    simpl. apply run_actions_same_store.
    + intros t Ht. apply in_app_iff in Ht. apply Hacc. right.
      apply in_app_iff. destruct Ht; [now left | right; now right].
    + intros y. symmetry. apply actions_commute.
      * apply Hacc. now left.
      * apply Hacc. right. apply in_app_iff. right. now left.
      * apply Hni. now left.
Qed.

Lemma respects_remove (prec : precedence_dict) (F1 F2 : list Task)
    (s : Task) :
  respects prec (F1 ++ s :: F2) ->
  respects prec (F1 ++ F2) /\
  forall a, In a F1 -> ~ trans_pred prec (name a) (name s).
Proof.
  induction F1 as [|a F1 IH]; simpl.
  - intros [_ H]. split; [assumption | intros a []].
  - intros [Ha H]. destruct (IH H) as [H1 H2]. split.
    + split; [|assumption]. intros b Hb. apply Ha.
      apply in_app_iff in Hb. apply in_app_iff.
      destruct Hb; [now left | right; now right].
    + intros b [<- | Hb]; [|now apply H2].
      apply Ha. apply in_app_iff. right. now left.
Qed.

Lemma ordered_respects (prec : precedence_dict) (l : list Task) :
  forall pre : list string,
  NoDup (pre ++ map name l) ->
  (forall l1 x l2, map name l = l1 ++ x :: l2 ->
     forall y, trans_pred prec x y -> In y (pre ++ l1)) ->
  respects prec l.
Proof.
  induction l as [|a l IH]; intros pre Hnd Hord; simpl; [exact I|].
  split.
  - intros b Hb Hab.
    assert (Hin : In (name b) (pre ++ [])).
    { apply (Hord [] (name a) (map name l) eq_refl). assumption. }
    rewrite app_nil_r in Hin. simpl in Hnd.
    apply NoDup_app_inv in Hnd. destruct Hnd as (_ & _ & Hdisj).
    apply (Hdisj _ Hin). right. now apply in_map.
  - apply (IH (pre ++ [name a])).
    + rewrite <- app_assoc. exact Hnd.
    + intros l1 x l2 E y Hy. rewrite <- app_assoc. simpl.
      apply (Hord (name a :: l1) x l2); [|assumption].
      simpl. now rewrite E.
Qed.

(** Two orders of the same tasks that both respect the precedence leave the
    same globals, when every two tasks not ordered by the precedence
    commute. *)
Lemma run_actions_orders_agree (prec : precedence_dict) (Sq : list Task) :
  forall F : list Task,
  Permutation F Sq -> NoDup (map name Sq) ->
  respects prec F -> respects prec Sq ->
  (forall t, In t Sq -> accurate t) ->
  (forall a b, In a Sq -> In b Sq -> name a <> name b ->
     ~ trans_pred prec (name a) (name b) ->
     ~ trans_pred prec (name b) (name a) -> ~ interferes a b) ->
  forall st, same_store (run_actions F st) (run_actions Sq st).
Proof.
  induction Sq as [|s Sq IH]; intros F Hperm Hnd HrF HrS Hacc Hind st.
  - apply Permutation_sym, Permutation_nil in Hperm. subst.
    intros x. reflexivity.
  - assert (Hs : In s F).
    { eapply Permutation_in; [apply Permutation_sym; exact Hperm | now left]. }
    apply in_split in Hs. destruct Hs as (F1 & F2 & ->).
    assert (Hperm' : Permutation (F1 ++ F2) Sq).
    { apply Permutation_sym. eapply Permutation_cons_app_inv.
      apply Permutation_sym. exact Hperm. }
    destruct (respects_remove _ _ _ _ HrF) as [HrF' Hbefore].
    simpl in HrS. destruct HrS as [Hafter HrS'].
    inversion Hnd as [|? ? Hns Hnd']; subst.
    assert (HF1 : forall a, In a F1 -> In a Sq /\ name a <> name s).
    { intros a Ha.
      assert (HaS : In a Sq).
      { eapply Permutation_in; [exact Hperm'|]. apply in_app_iff. now left. }
      split; [assumption|]. intros E. apply Hns. rewrite <- E.
      now apply in_map. }
    intros x.
    rewrite (run_actions_move_front s F1 F2).
    + simpl. apply IH; try assumption.
      * intros t Ht. apply Hacc. now right.
      * intros a b Ha Hb. apply Hind; now right.
    + intros t Ht. apply Hacc.
      eapply Permutation_in; [exact Hperm | assumption].
    + intros a Ha. destruct (HF1 a Ha) as [HaS Hne].
      apply Hind; [now right | now left | assumption | now apply Hbefore |].
      now apply Hafter.
Qed.

(** ** The order in which a parallel run finishes its tasks *)

Lemma order_inv_init (prec : precedence_dict) : order_inv prec [] [] [].
Proof.
  constructor; simpl.
  - apply ordered_nil.
  - intros p d [].
  - intros t [].
  - intros n [].
Qed.

Lemma order_inv_start (prec : precedence_dict) (procs : list thread)
    (done : list string) (tr : list event) (t : Task) :
  order_inv prec procs done tr ->
  (forall d, trans_pred prec (name t) d -> In d done) ->
  order_inv prec (procs ++ [(t, false)]) done (tr ++ [Start t]).
Proof.
  intros [Ho Hp Hr He] Ht.
  constructor; rewrite finished_snoc, app_nil_r.
  - assumption.
  - intros p d Hin Hd. apply in_app_iff in Hin.
    destruct Hin as [Hin | [<- | []]]; [eapply Hp; eassumption|].
    apply He. now apply Ht.
  - intros u Hu. apply in_app_iff in Hu.
    destruct Hu as [Hu | [[=] | []]]. now apply Hr.
  - assumption.
Qed.

Lemma order_inv_return (prec : precedence_dict) (l1 l2 : list thread)
    (t : Task) (done : list string) (tr : list event) :
  order_inv prec (l1 ++ (t, false) :: l2) done tr ->
  order_inv prec (l1 ++ (t, true) :: l2) done (tr ++ [Finish t]).
Proof.
  intros [Ho Hp Hr He].
  constructor; rewrite finished_snoc, map_app; simpl.
  - apply ordered_snoc; [assumption|]. intros d Hd.
    apply (Hp (t, false)); [|assumption]. apply in_app_iff. right. now left.
  - intros p d Hin Hd. apply in_app_iff. left.
    apply in_app_iff in Hin. destruct Hin as [Hin | [<- | Hin]].
    + apply (Hp p); [|assumption]. apply in_app_iff. now left.
    + apply (Hp (t, false)); [|assumption]. apply in_app_iff. right. now left.
    + apply (Hp p); [|assumption]. apply in_app_iff. right. now right.
  - intros u Hu. apply in_app_iff. apply in_app_iff in Hu.
    destruct Hu as [Hu | [[= ->] | Hu]].
    + left. apply Hr. apply in_app_iff. now left.
    + right. now left.
    + left. apply Hr. apply in_app_iff. right. now right.
  - intros n Hn. apply in_app_iff. left. now apply He.
Qed.

Lemma order_inv_reap (prec : precedence_dict) (dead_names : list string)
    (procs procs' : list thread) (done done' : list string)
    (tr : list event) :
  reap dead_names procs done = (procs', done') ->
  order_inv prec procs done tr -> order_inv prec procs' done' tr.
Proof.
  intros H [Ho Hp Hr He]. apply reap_spec in H. destruct H as (H1 & _ & H3).
  constructor.
  - assumption.
  - intros p d Hin. apply Hp. now apply H1.
  - intros t Ht. apply Hr. now apply H1.
  - intros n Hn. destruct (H3 n Hn) as [Hd | (t & Ht & <-)]; auto.
Qed.

Lemma return_threads_order (prec : precedence_dict) (done : list string)
    (base : list event) (ns : list string) :
  forall (procs : list thread) (w : World) (procs' : list thread)
         (w' : World) (tr : list event),
  return_threads ns procs w = (procs', w') ->
  trace w = base ++ tr -> order_inv prec procs done tr ->
  exists tr', trace w' = base ++ tr' /\ order_inv prec procs' done tr'.
Proof.
  induction ns as [|n ns IH]; intros procs w procs' w' tr H Htr Hinv;
    simpl in H.
  - injection H as <- <-. eauto.
  - destruct (return_thread n procs w) as [procs1 w1] eqn:E.
    apply return_thread_spec in E.
    destruct E as [(-> & ->) | (l1 & t & l2 & -> & -> & ->)].
    + eapply IH; eassumption.
    + eapply IH; [eassumption | | apply order_inv_return; eassumption].
      rewrite thread_body_trace, Htr. now rewrite app_assoc.
Qed.

Section FinishOrder.

Variable sys : TaskSystem.

(** [get_dependencies] lists every transitive predecessor. *)
Hypothesis deps_complete :
  forall n deps, get_dependencies sys n = Ok deps ->
  forall d, trans_pred (precedence sys) n d -> In d deps.

Lemma run_iter_order (env : schedule_step) (s : run_state)
    (w w' : World) (r : result run_state) (base tr : list event) :
  run_iter sys env s w = (w', r) ->
  trace w = base ++ tr ->
  order_inv (precedence sys) (processes s) (executed s) tr ->
  match r with
  | Ok s' =>
      exists tr', trace w' = base ++ tr' /\
                  order_inv (precedence sys) (processes s') (executed s') tr'
  | _ => w' = w
  end.
Proof.
  intros H Htr Hinv. unfold run_iter in H.
  destruct (queue s) as [|[task|] rest].
  - injection H as <- <-. eauto.
  - destruct (get_dependencies sys (name task)) as [deps| |] eqn:Ed.
    2,3: now injection H as <- <-.
    destruct (if negb (issubset deps (executed s)) then false
              else negb (existsb (fun p => conflicts task (fst p))
                           (processes s))) eqn:Ecan.
    + destruct (issubset deps (executed s)) eqn:Esub; [|discriminate].
      apply issubset_incl in Esub.
      destruct (return_threads (returning env)
                  (processes s ++ [(task, false)])
                  (log sys task (emit (Start task) w)))
        as [procs2 w2] eqn:Er.
      destruct (reap (dead env) procs2 (executed s)) as [procs3 done] eqn:Ep.
      injection H as <- <-. simpl.
      destruct (return_threads_order (precedence sys) (executed s) base
                  _ _ _ _ _ (tr ++ [Start task]) Er) as (tr' & Htr' & Hinv').
      * destruct (log_trace sys task (emit (Start task) w)) as [-> _].
        simpl. rewrite Htr. now rewrite app_assoc.
      * apply order_inv_start; [assumption|].
        intros d Hd. apply Esub. eapply deps_complete; eassumption.
      * exists tr'. split; [assumption|]. eapply order_inv_reap; eassumption.
    + destruct (return_threads (returning env) (processes s) w)
        as [procs2 w2] eqn:Er.
      destruct (reap (dead env) procs2 (executed s)) as [procs3 done] eqn:Ep.
      injection H as <- <-. simpl.
      destruct (return_threads_order (precedence sys) (executed s) base
                  _ _ _ _ _ tr Er) as (tr' & Htr' & Hinv'); [assumption..|].
      exists tr'. split; [assumption|]. eapply order_inv_reap; eassumption.
  - now injection H as <- <-.
Qed.

Lemma run_loop_order (base : list event) (envs : list schedule_step) :
  forall (s : run_state) (w w' : World) (r : result unit) (tr : list event),
  run_loop sys envs s w = (w', r) ->
  trace w = base ++ tr ->
  order_inv (precedence sys) (processes s) (executed s) tr ->
  exists tr', trace w' = base ++ tr' /\
              dependency_ordered (precedence sys) (map name (finished tr')).
Proof.
  assert (Hjoin : forall envs' s w w' r tr,
            queue s = [] -> run_loop sys envs' s w = (w', r) ->
            trace w = base ++ tr ->
            order_inv (precedence sys) (processes s) (executed s) tr ->
            exists tr', trace w' = base ++ tr' /\
              dependency_ordered (precedence sys) (map name (finished tr'))).
  { intros envs' s w w' r tr Hq H Htr Hinv.
    destruct envs'; simpl in H; rewrite Hq in H; injection H as <- <-;
      unfold join_all;
      match goal with
      | |- context [return_threads ?ns ?p ?w0] =>
          destruct (return_threads ns p w0) as [procs' w1] eqn:Er
      end;
      destruct (return_threads_order (precedence sys) (executed s) base
                  _ _ _ _ _ tr Er Htr Hinv) as (tr' & Htr' & Hinv');
      exists tr'; simpl; (split; [assumption | apply Hinv']). }
  induction envs as [|env envs IH]; intros s w w' r tr H Htr Hinv.
  - destruct (queue s) eqn:Hq; [eapply Hjoin; eassumption|].
    simpl in H. rewrite Hq in H. injection H as <- <-.
    exists tr. split; [assumption | apply Hinv].
  - destruct (queue s) eqn:Hq; [eapply Hjoin; eassumption|].
    simpl in H. rewrite Hq in H.
    destruct (run_iter sys env s w) as [w1 r1] eqn:Ei.
    pose proof (run_iter_order env s w w1 r1 base tr Ei Htr Hinv) as Hstep.
    destruct r1 as [s1| |].
    + destruct Hstep as (tr1 & Htr1 & Hinv1). eapply IH; eassumption.
    + injection H as <- <-. subst w1.
      exists tr. split; [assumption | apply Hinv].
    + injection H as <- <-. subst w1.
      exists tr. split; [assumption | apply Hinv].
Qed.

End FinishOrder.

Lemma get_dependencies_complete (ts : list Task) (prec : precedence_dict)
    (logging : bool) :
  valid_input ts prec ->
  forall n deps,
  get_dependencies (mkTaskSystem (task_table ts) prec logging) n = Ok deps ->
  forall d, trans_pred prec n d -> In d deps.
Proof.
  intros Hv n deps Hg d Hd.
  assert (Hentry : get prec n <> None).
  { unfold get_dependencies in Hg. cbn [precedence] in Hg.
    destruct (get prec n); [discriminate | discriminate Hg]. }
  destruct (get_dependencies_correct prec (vi_acyclic _ _ Hv)
              (valid_preds_have_entry _ _ Hv) (task_table ts) logging n Hentry)
    as (l & Hl & _ & _ & Hiff & _).
  rewrite Hg in Hl. injection Hl as <-. now apply Hiff.
Qed.

(** On a valid system the tasks finish in a dependency-consistent order. *)
Lemma parallel_run_order (ts : list Task) (prec : precedence_dict)
    (logging : bool) (envs : list schedule_step) (w w' : World)
    (r : result unit) :
  valid_input ts prec ->
  parallel_run (mkTaskSystem (task_table ts) prec logging) envs w = (w', r) ->
  exists tr, trace w' = trace w ++ tr /\
             dependency_ordered prec (map name (finished tr)).
Proof.
  intros Hv H. unfold parallel_run in H.
  destruct (tasks_queue (mkTaskSystem (task_table ts) prec logging))
    as [q| |].
  - apply (run_loop_order (mkTaskSystem (task_table ts) prec logging)
             (get_dependencies_complete ts prec logging Hv)
             (trace w) envs _ _ _ _ [] H).
    + now rewrite app_nil_r.
    + apply order_inv_init.
  - injection H as <- <-. exists []. rewrite app_nil_r.
    split; [reflexivity | apply ordered_nil].
  - injection H as <- <-. exists []. rewrite app_nil_r.
    split; [reflexivity | apply ordered_nil].
Qed.

(** ** When the parallel run leaves the globals of the sequential run *)

Lemma interferesb_true (a b : Task) :
  interferes a b -> interferesb a b = true.
Proof.
  intros (x & [H | [H | H]]); unfold interferesb;
    rewrite !orb_true_iff, !intersects_true; eauto.
Qed.

Lemma interference_ordered_decide (ts : list Task) (prec : precedence_dict)
    (logging : bool) :
  valid_input ts prec ->
  interference_orderedb (mkTaskSystem (task_table ts) prec logging) ts = true ->
  interference_ordered ts prec.
Proof.
  intros Hv Hb a b Ha Hbt Hne Hint.
  unfold interference_orderedb in Hb. rewrite forallb_forall in Hb.
  specialize (Hb a Ha). rewrite forallb_forall in Hb. specialize (Hb b Hbt).
  assert (Hdep : forall u v, In u ts ->
            mem (name v)
              (dependencies_of (mkTaskSystem (task_table ts) prec logging)
                 (name u)) = true ->
            trans_pred prec (name u) (name v)).
  { intros u v Hu Hm. apply mem_In in Hm. unfold dependencies_of in Hm.
    destruct (get_dependencies_correct prec (vi_acyclic _ _ Hv)
                (valid_preds_have_entry _ _ Hv) (task_table ts) logging
                (name u)) as (l & Hl & _ & _ & Hiff & _).
    { now apply (vi_entry _ _ Hv). }
    rewrite Hl in Hm. now apply Hiff. }
  rewrite !orb_true_iff in Hb. destruct Hb as [[[Hb | Hb] | Hb] | Hb].
  - apply String.eqb_eq in Hb. contradiction.
  - apply negb_true_iff in Hb. rewrite (interferesb_true a b Hint) in Hb.
    discriminate.
  - left. now apply Hdep.
  - right. now apply Hdep.
Qed.

Lemma dependency_ordered_respects (prec : precedence_dict) (l : list Task) :
  NoDup (map name l) -> dependency_ordered prec (map name l) ->
  respects prec l.
Proof.
  intros Hnd Hord. apply (ordered_respects prec l []); [assumption|].
  intros l1 x l2 E y Hy. simpl. eapply Hord; eassumption.
Qed.

Lemma parallel_run_agrees (ts : list Task) (prec : precedence_dict)
    (logging : bool) (envs : list schedule_step) (w w' : World) :
  valid_input ts prec ->
  (forall t, In t ts -> run t <> None) ->
  (forall t, In t ts -> accurate t) ->
  interference_ordered ts prec ->
  parallel_run (mkTaskSystem (task_table ts) prec logging) envs w
    = (w', Ok tt) ->
  same_store (store w')
    (store (fst (run_seq (mkTaskSystem (task_table ts) prec logging) w))).
Proof.
  intros Hv Hrun Hacc Hio Hpar.
  set (sys := mkTaskSystem (task_table ts) prec logging) in *.
  destruct (parallel_run_count ts prec logging envs w w' (Ok tt) Hv Hpar)
    as (tr & Htr & _ & _ & _ & Hfn & Hst & Hok).
  destruct (Hok eq_refl) as [_ HpF].
  destruct (parallel_run_order ts prec logging envs w w' (Ok tt) Hv Hpar)
    as (tr2 & Htr2 & Hord).
  rewrite Htr in Htr2. apply app_inv_head in Htr2. subst tr2.
  destruct (tasks_queue_valid ts prec sys Hv eq_refl eq_refl)
    as (order & Hq & HpS & HnS & HoS).
  unfold run_seq. rewrite Hq.
  destruct (run_sequence_all sys order w) as (w2 & -> & _ & Hst2).
  { intros t Ht. apply Hrun. eapply Permutation_in; eassumption. }
  cbn [fst]. rewrite Hst, Hst2.
  apply (run_actions_orders_agree prec order (finished tr)).
  - eapply Permutation_trans; [exact HpF | now apply Permutation_sym].
  - assumption.
  - now apply dependency_ordered_respects.
  - now apply dependency_ordered_respects.
  - intros t Ht. apply Hacc. eapply Permutation_in; eassumption.
  - intros a b Ha Hb Hne Hab Hba Hint.
    destruct (Hio a b) as [H | H]; try assumption; try contradiction.
    + eapply Permutation_in; eassumption.
    + eapply Permutation_in; eassumption.
Qed.

(** On a valid system whose tasks all have an action and accurate declared
    sets, and in which any two tasks that interfere (one writes what the
    other reads or writes) are ordered by the precedence dictionary, every
    execution of [run] that returns leaves the globals that [run_seq]
    leaves. *)
Theorem run_agrees_with_run_seq_when_interference_ordered (ts : list Task)
    (prec : precedence_dict) (sys0 : TaskSystem) (logging : bool)
    (envs : list schedule_step) (w w' : World) :
  valid_input ts prec -> TaskSystem_init ts prec = Ok sys0 ->
  (forall t, In t ts -> run t <> None) ->
  (forall t, In t ts -> accurate t) ->
  interference_ordered ts prec ->
  parallel_run (set_logging sys0 logging) envs w = (w', Ok tt) ->
  forall x,
    store w' x = store (fst (run_seq (set_logging sys0 logging) w)) x.
Proof.
  intros Hv Hinit Hrun Hacc Hio Hpar.
  rewrite (constructed_system ts prec sys0 logging Hv Hinit) in *.
  now apply (parallel_run_agrees ts prec logging envs w w').
Qed.

Lemma scenario_accurate : forall t, In t Scenario.all_tasks -> accurate t.
Proof.
  intros t Ht. simpl in Ht.
  destruct Ht as [<- | [<- | [<- | [<- | [<- | [<- | []]]]]]].
  - apply (upd_accurate "X" (fun _ => 5%Z)). reflexivity.
  - apply (upd_accurate "Y" (fun _ => 3%Z)). reflexivity.
  - split; unfold action_of; cbn [run Scenario.t3 reads writes].
    + intros st x Hx. unfold Scenario.upd.
      destruct (String.eqb "Y" x) eqn:Ey;
        [apply String.eqb_eq in Ey; simpl in Hx; tauto|].
      destruct (String.eqb "X" x) eqn:Ex;
        [apply String.eqb_eq in Ex; simpl in Hx; tauto | reflexivity].
    + intros st st' Hr x [<- | [<- | []]]; unfold Scenario.upd; simpl;
        rewrite ?(Hr "X"), ?(Hr "Y") by (simpl; tauto); reflexivity.
  - apply (upd_accurate "Z" (fun _ => 10%Z)). reflexivity.
  - apply (upd_accurate "Z" (fun st => (st "Z" + (st "X" + st "Y"))%Z)).
    intros st st' Hr. rewrite !(Hr "X"), !(Hr "Y"), !(Hr "Z") by (simpl; tauto).
    reflexivity.
  - apply (upd_accurate "Z" (fun st => (st "Z" + 5)%Z)).
    intros st st' Hr. rewrite (Hr "Z") by (simpl; tauto). reflexivity.
Qed.

Lemma run_agrees_with_run_seq_when_interference_ordered_witness :
  store (fst (parallel_run (set_logging Scenario.system false)
                Scenario.schedule Scenario.world0)) "Z" =
  store (fst (run_seq (set_logging Scenario.system false)
                Scenario.world0)) "Z".
Proof.
  refine (run_agrees_with_run_seq_when_interference_ordered
            Scenario.all_tasks Scenario.prec Scenario.system false
            Scenario.schedule Scenario.world0 _ scenario_valid scenario_init
            _ scenario_accurate _ _ "Z").
  - intros t Ht. simpl in Ht.
    repeat (destruct Ht as [<- | Ht]; [discriminate|]). destruct Ht.
  - apply (interference_ordered_decide Scenario.all_tasks Scenario.prec true
             scenario_valid).
    reflexivity.
  - reflexivity.
Defined.

(** * Logging *)

Section Logging.

(** Two systems that differ in their logging state only. *)
Variables sys1 sys2 : TaskSystem.
Hypothesis same_tasks : tasks sys1 = tasks sys2.
Hypothesis same_precedence : precedence sys1 = precedence sys2.

Lemma get_dependencies_logging (n : string) :
  get_dependencies sys1 n = get_dependencies sys2 n.
Proof.
  unfold get_dependencies. now rewrite same_precedence.
Qed.

Lemma each_dependency_ext
    (rec1 rec2 : string -> queue_state -> result queue_state) :
  (forall u st, rec1 u st = rec2 u st) ->
  forall l st, each_dependency rec1 l st = each_dependency rec2 l st.
Proof.
  intros H. induction l as [|d l IH]; intros st; simpl; [reflexivity|].
  rewrite H. destruct (rec2 d st); simpl; auto.
Qed.

Lemma r_get_tasks_queue_logging (fuel : nat) :
  forall u st, r_get_tasks_queue fuel sys1 u st =
               r_get_tasks_queue fuel sys2 u st.
Proof.
  induction fuel as [|f IH]; intros u st; [reflexivity|].
  cbn [r_get_tasks_queue]. rewrite get_dependencies_logging, same_tasks.
  destruct (mem u (snd st)); [reflexivity|].
  destruct (get_dependencies sys2 u) as [deps| |]; cbn [bind];
    try reflexivity.
  now rewrite (each_dependency_ext _ _ IH).
Qed.

Lemma queue_all_logging (l : list string) :
  forall st, queue_all sys1 l st = queue_all sys2 l st.
Proof.
  induction l as [|n l IH]; intros st; cbn [queue_all]; [reflexivity|].
  rewrite same_precedence, r_get_tasks_queue_logging.
  destruct (r_get_tasks_queue _ sys2 n st); cbn [bind]; auto.
Qed.

Lemma tasks_queue_logging : tasks_queue sys1 = tasks_queue sys2.
Proof.
  unfold tasks_queue. now rewrite same_tasks, queue_all_logging.
Qed.

Lemma log_same (t : Task) (w1 w2 : World) :
  same_but_stdout w1 w2 ->
  same_but_stdout (log sys1 t w1) (log sys2 t w2).
Proof.
  intros [Hs Ht]. unfold log.
  destruct (LOGING sys1), (LOGING sys2); split; assumption.
Qed.

Lemma thread_body_same (t : Task) (w1 w2 : World) :
  same_but_stdout w1 w2 ->
  same_but_stdout (thread_body t w1) (thread_body t w2).
Proof.
  intros [Hs Ht]. unfold thread_body, same_but_stdout.
  destruct (run t); simpl; rewrite Hs, Ht; auto.
Qed.

Lemma run_sequence_logging (q : list (option Task)) :
  forall w1 w2, same_but_stdout w1 w2 ->
  same_but_stdout (fst (run_sequence sys1 q w1)) (fst (run_sequence sys2 q w2))
  /\ snd (run_sequence sys1 q w1) = snd (run_sequence sys2 q w2).
Proof.
  induction q as [|[t|] q IH]; intros w1 w2 Hw; simpl.
  - now split.
  - pose proof (log_same t w1 w2 Hw) as [Hs Ht].
    destruct (run t) as [action|]; simpl; [|now split].
    apply IH. split; simpl; now rewrite ?Hs, ?Ht.
  - now split.
Qed.

Lemma return_threads_logging (ns : list string) :
  forall procs w1 w2, same_but_stdout w1 w2 ->
  fst (return_threads ns procs w1) = fst (return_threads ns procs w2) /\
  same_but_stdout (snd (return_threads ns procs w1))
                  (snd (return_threads ns procs w2)).
Proof.
  assert (H1 : forall n procs w1 w2, same_but_stdout w1 w2 ->
            fst (return_thread n procs w1) = fst (return_thread n procs w2) /\
            same_but_stdout (snd (return_thread n procs w1))
                            (snd (return_thread n procs w2))).
  { intros n. induction procs as [|[t r] procs IH]; intros w1 w2 Hw; simpl.
    - now split.
    - destruct (String.eqb (name t) n && negb r); simpl.
      + split; [reflexivity | now apply thread_body_same].
      + specialize (IH w1 w2 Hw).
        destruct (return_thread n procs w1), (return_thread n procs w2).
        simpl in *. destruct IH as [-> H]. now split. }
  induction ns as [|n ns IH]; intros procs w1 w2 Hw; simpl; [now split|].
  specialize (H1 n procs w1 w2 Hw).
  destruct (return_thread n procs w1) as [p1 v1],
           (return_thread n procs w2) as [p2 v2].
  simpl in H1. destruct H1 as [-> Hv]. now apply IH.
Qed.

Lemma run_iter_logging (env : schedule_step) (s : run_state) (w1 w2 : World) :
  same_but_stdout w1 w2 ->
  same_but_stdout (fst (run_iter sys1 env s w1)) (fst (run_iter sys2 env s w2))
  /\ snd (run_iter sys1 env s w1) = snd (run_iter sys2 env s w2).
Proof.
  intros Hw. unfold run_iter.
  destruct (queue s) as [|[task|] rest]; [now split | | now split].
  rewrite get_dependencies_logging.
  destruct (get_dependencies sys2 (name task)) as [deps| |];
    [| now split | now split].
  destruct (if negb (issubset deps (executed s)) then false
            else negb (existsb (fun p => conflicts task (fst p))
                         (processes s))).
  - assert (Hl : same_but_stdout (log sys1 task (emit (Start task) w1))
                                 (log sys2 task (emit (Start task) w2))).
    { apply log_same. destruct Hw as [Hs Ht]. split; simpl; congruence. }
    destruct (return_threads_logging (returning env)
                (processes s ++ [(task, false)]) _ _ Hl) as [Hp Hr].
    destruct (return_threads (returning env) (processes s ++ [(task, false)])
                (log sys1 task (emit (Start task) w1))) as [p1 v1].
    destruct (return_threads (returning env) (processes s ++ [(task, false)])
                (log sys2 task (emit (Start task) w2))) as [p2 v2].
    simpl in Hp, Hr. subst p2.
    destruct (reap (dead env) p1 (executed s)). now split.
  - destruct (return_threads_logging (returning env) (processes s) _ _ Hw)
      as [Hp Hr].
    destruct (return_threads (returning env) (processes s) w1) as [p1 v1].
    destruct (return_threads (returning env) (processes s) w2) as [p2 v2].
    simpl in Hp, Hr. subst p2.
    destruct (reap (dead env) p1 (executed s)). now split.
Qed.

Lemma run_loop_logging (envs : list schedule_step) :
  forall s w1 w2, same_but_stdout w1 w2 ->
  same_but_stdout (fst (run_loop sys1 envs s w1)) (fst (run_loop sys2 envs s w2))
  /\ snd (run_loop sys1 envs s w1) = snd (run_loop sys2 envs s w2).
Proof.
  assert (Hjoin : forall envs' procs w1 w2, same_but_stdout w1 w2 ->
            same_but_stdout (join_all envs' procs w1)
                            (join_all envs' procs w2)).
  { intros envs' procs w1 w2 Hw. unfold join_all.
    now apply return_threads_logging. }
  induction envs as [|env envs IH]; intros s w1 w2 Hw; simpl.
  - destruct (queue s); simpl; [|now split]. split; [now apply Hjoin|auto].
  - destruct (queue s) eqn:Eq; simpl; [split; [now apply Hjoin | auto]|].
    destruct (run_iter_logging env s w1 w2 Hw) as [Hi Hr].
    destruct (run_iter sys1 env s w1) as [v1 r1],
             (run_iter sys2 env s w2) as [v2 r2].
    simpl in Hi, Hr. subst r2.
    destruct r1 as [s1| |]; [now apply IH | now split | now split].
Qed.

End Logging.

(** ** What the runs print *)

Lemma logged_app (sys : TaskSystem) (l1 l2 : list Task) :
  logged sys (l1 ++ l2) = logged sys l1 ++ logged sys l2.
Proof.
  unfold logged. destruct (LOGING sys); [apply map_app | reflexivity].
Qed.

Lemma log_stdout (sys : TaskSystem) (t : Task) (w : World) :
  stdout (log sys t w) = stdout w ++ logged sys [t].
Proof.
  unfold log, logged. destruct (LOGING sys); simpl;
    [reflexivity | now rewrite app_nil_r].
Qed.

Lemma run_sequence_stdout (sys : TaskSystem) (order : list Task) :
  forall w w',
  run_sequence sys (map Some order) w = (w', Ok tt) ->
  stdout w' = stdout w ++ logged sys order.
Proof.
  induction order as [|t order IH]; intros w w' H; simpl in H.
  - injection H as <-. unfold logged.
    destruct (LOGING sys); simpl; now rewrite app_nil_r.
  - destruct (run t) as [action|]; [|discriminate].
    apply IH in H. simpl in H. rewrite H, log_stdout.
    change (t :: order) with ([t] ++ order).
    now rewrite logged_app, app_assoc.
Qed.

Lemma return_threads_stdout (ns : list string) :
  forall procs w procs' w',
  return_threads ns procs w = (procs', w') ->
  stdout w' = stdout w /\ started (trace w') = started (trace w).
Proof.
  induction ns as [|n ns IH]; intros procs w procs' w' H; simpl in H.
  - injection H as <- <-. now split.
  - destruct (return_thread n procs w) as [p1 w1] eqn:E.
    apply return_thread_spec in E.
    destruct E as [(-> & ->) | (l1 & t & l2 & -> & -> & ->)].
    + eapply IH; eassumption.
    + destruct (IH _ _ _ _ H) as [-> ->].
      rewrite thread_body_trace, started_snoc, app_nil_r.
      unfold thread_body. now destruct (run t).
Qed.

Lemma run_iter_stdout (sys : TaskSystem) (env : schedule_step)
    (s : run_state) (w w' : World) (r : result run_state) :
  run_iter sys env s w = (w', r) ->
  exists l, started (trace w') = started (trace w) ++ l /\
            stdout w' = stdout w ++ logged sys l.
Proof.
  intros H. unfold run_iter in H.
  assert (Hnil : exists l, started (trace w) = started (trace w) ++ l /\
                           stdout w = stdout w ++ logged sys l).
  { exists []. rewrite app_nil_r. unfold logged.
    destruct (LOGING sys); simpl; now rewrite app_nil_r. }
  destruct (queue s) as [|[task|] rest].
  - now injection H as <- <-.
  - destruct (get_dependencies sys (name task)) as [deps| |].
    2,3: now injection H as <- <-.
    destruct (if negb (issubset deps (executed s)) then false
              else negb (existsb (fun p => conflicts task (fst p))
                           (processes s))).
    + destruct (return_threads (returning env)
                  (processes s ++ [(task, false)])
                  (log sys task (emit (Start task) w)))
        as [procs2 w2] eqn:Er.
      destruct (reap (dead env) procs2 (executed s)) as [procs3 done].
      injection H as <- <-.
      apply return_threads_stdout in Er. destruct Er as [-> ->].
      exists [task]. rewrite log_stdout.
      destruct (log_trace sys task (emit (Start task) w)) as [-> _].
      simpl. now rewrite started_snoc.
    + destruct (return_threads (returning env) (processes s) w)
        as [procs2 w2] eqn:Er.
      destruct (reap (dead env) procs2 (executed s)) as [procs3 done].
      injection H as <- <-.
      apply return_threads_stdout in Er. destruct Er as [-> ->].
      exact Hnil.
  - now injection H as <- <-.
Qed.

Lemma run_loop_stdout (sys : TaskSystem) (envs : list schedule_step) :
  forall s w w' r,
  run_loop sys envs s w = (w', r) ->
  exists l, started (trace w') = started (trace w) ++ l /\
            stdout w' = stdout w ++ logged sys l.
Proof.
  assert (Hnil : forall w : World,
            exists l, started (trace w) = started (trace w) ++ l /\
                      stdout w = stdout w ++ logged sys l).
  { intros w. exists []. rewrite app_nil_r. unfold logged.
    destruct (LOGING sys); simpl; now rewrite app_nil_r. }
  assert (Hjoin : forall envs' procs w,
            exists l, started (trace (join_all envs' procs w)) =
                        started (trace w) ++ l /\
                      stdout (join_all envs' procs w) =
                        stdout w ++ logged sys l).
  { intros envs' procs w. unfold join_all.
    match goal with
    | |- context [return_threads ?ns ?p ?w0] =>
        destruct (return_threads ns p w0) as [procs' w1] eqn:Er
    end.
    apply return_threads_stdout in Er. destruct Er as [E1 E2]. simpl.
    rewrite E1, E2. apply Hnil. }
  induction envs as [|env envs IH]; intros s w w' r H; simpl in H.
  - destruct (queue s); injection H as <- <-; [apply Hjoin | apply Hnil].
  - destruct (queue s) eqn:Eq; [injection H as <- <-; apply Hjoin|].
    destruct (run_iter sys env s w) as [w1 r1] eqn:Ei.
    apply run_iter_stdout in Ei. destruct Ei as (l1 & H1 & H2).
    destruct r1 as [s1| |].
    + apply IH in H. destruct H as (l2 & H3 & H4).
      exists (l1 ++ l2). rewrite H3, H4, H1, H2, logged_app.
      now rewrite !app_assoc.
    + injection H as <- <-. eauto.
    + injection H as <- <-. eauto.
Qed.

(** [set_logging] changes what is printed and nothing else: whatever the
    logging state, [run_seq] and [run] give the same result, the same
    globals and the same events. [run] prints the name of every task it
    starts, in the order of the starts, when logging is enabled, and nothing
    when it is disabled; so does [run_seq] when it returns normally. *)
Theorem logging_changes_only_what_is_printed (sys : TaskSystem)
    (b1 b2 : bool) (envs : list schedule_step) (w : World) :
  (snd (run_seq (set_logging sys b1) w) = snd (run_seq (set_logging sys b2) w)
   /\ same_but_stdout (fst (run_seq (set_logging sys b1) w))
                      (fst (run_seq (set_logging sys b2) w)))
  /\
  (snd (parallel_run (set_logging sys b1) envs w) =
   snd (parallel_run (set_logging sys b2) envs w)
   /\ same_but_stdout (fst (parallel_run (set_logging sys b1) envs w))
                      (fst (parallel_run (set_logging sys b2) envs w)))
  /\
  (exists l,
     started (trace (fst (parallel_run (set_logging sys b1) envs w))) =
       started (trace w) ++ l /\
     stdout (fst (parallel_run (set_logging sys b1) envs w)) =
       stdout w ++ (if b1 then map name l else []))
  /\
  (snd (run_seq (set_logging sys b1) w) = Ok tt ->
   exists l,
     started (trace (fst (run_seq (set_logging sys b1) w))) =
       started (trace w) ++ l /\
     stdout (fst (run_seq (set_logging sys b1) w)) =
       stdout w ++ (if b1 then map name l else [])).
Proof.
  assert (Hw : same_but_stdout w w) by (split; reflexivity).
  assert (Hq : tasks_queue (set_logging sys b1) =
               tasks_queue (set_logging sys b2)).
  { now apply tasks_queue_logging. }
  split; [|split; [|split]].
  - unfold run_seq. rewrite Hq.
    destruct (tasks_queue (set_logging sys b2)) as [q| |];
      [| now split | now split].
    destruct (run_sequence_logging (set_logging sys b1) (set_logging sys b2)
                q w w Hw). now split.
  - unfold parallel_run. rewrite Hq.
    destruct (tasks_queue (set_logging sys b2)) as [q| |];
      [| now split | now split].
    destruct (run_loop_logging (set_logging sys b1) (set_logging sys b2)
                eq_refl envs (mkRunState q [] []) w w Hw). now split.
  - unfold parallel_run.
    destruct (tasks_queue (set_logging sys b1)) as [q| |].
    + destruct (run_loop (set_logging sys b1) envs (mkRunState q [] []) w)
        as [w' r] eqn:E.
      apply run_loop_stdout in E. exact E.
    + exists []. destruct b1; simpl; rewrite !app_nil_r; now split.
    + exists []. destruct b1; simpl; rewrite !app_nil_r; now split.
  - unfold run_seq.
    destruct (tasks_queue (set_logging sys b1)) as [q| |] eqn:Eq;
      [|discriminate..].
    intros Hr.
    destruct (run_sequence (set_logging sys b1) q w) as [w' r] eqn:E.
    simpl in Hr. subst r.
    assert (Hsome : exists order, q = map Some order).
    { clear - E. revert w E.
      induction q as [|[t|] q IH]; intros w E; simpl in E.
      - now exists [].
      - destruct (run t); [|discriminate].
        apply IH in E. destruct E as [order ->]. now exists (t :: order).
      - discriminate. }
    destruct Hsome as [order ->]. exists order. simpl. split.
    + destruct (run_sequence_all (set_logging sys b1) order w)
        as (w2 & H2 & Htr & _).
      * clear - E. revert w E.
        induction order as [|t order IH]; intros w E u Hu; [destruct Hu|].
        simpl in E. destruct (run t) eqn:Et; [|discriminate].
        destruct Hu as [<- | Hu]; [congruence|]. eapply IH; eassumption.
      * rewrite E in H2. injection H2 as <-. exact Htr.
    + apply run_sequence_stdout in E. exact E.
Qed.

(** * The two runs side by side *)

Lemma run_seq_valid (ts : list Task) (prec : precedence_dict)
    (logging : bool) (w : World) :
  valid_input ts prec -> (forall t, In t ts -> run t <> None) ->
  exists w' order,
    tasks_queue (mkTaskSystem (task_table ts) prec logging) =
      Ok (map Some order) /\
    Permutation order ts /\
    run_seq (mkTaskSystem (task_table ts) prec logging) w = (w', Ok tt) /\
    started (trace w') = started (trace w) ++ order /\
    store w' = run_actions order (store w).
Proof.
  intros Hv Hrun.
  destruct (tasks_queue_valid ts prec (mkTaskSystem (task_table ts) prec logging)
              Hv eq_refl eq_refl) as (order & Hq & Hperm & _).
  destruct (run_sequence_all (mkTaskSystem (task_table ts) prec logging)
              order w) as (w' & Hw & Htr & Hst).
  { intros t Ht. apply Hrun. eapply Permutation_in; eassumption. }
  exists w', order. unfold run_seq. rewrite Hq. auto.
Qed.

(** On a valid system whose tasks all have an action, when every thread
    returns before the next task is polled, [run] returns normally, having
    started the tasks in the very order of [run_seq], and leaves the very
    globals [run_seq] leaves, whatever the tasks declare. *)
Theorem run_without_overlap_is_run_seq (ts : list Task)
    (prec : precedence_dict) (sys0 : TaskSystem) (logging : bool)
    (w : World) :
  valid_input ts prec -> TaskSystem_init ts prec = Ok sys0 ->
  (forall t, In t ts -> run t <> None) ->
  exists w1 w2 order,
    run_seq (set_logging sys0 logging) w = (w1, Ok tt) /\
    parallel_run (set_logging sys0 logging)
      (repeat (eager_step ts) (length ts)) w = (w2, Ok tt) /\
    started (trace w1) = started (trace w) ++ order /\
    started (trace w2) = started (trace w) ++ order /\
    store w2 = store w1.
Proof.
  intros Hv Hinit Hrun.
  rewrite (constructed_system ts prec sys0 logging Hv Hinit).
  destruct (run_seq_valid ts prec logging w Hv Hrun)
    as (w1 & order & Hq & _ & Hs & Htr & Hst).
  destruct (parallel_run_eager ts prec logging w Hv)
    as (w2 & order2 & Hp & Hq2 & _ & Htr2 & Hst2).
  rewrite Hq in Hq2. injection Hq2 as Hq2.
  assert (E : order2 = order).
  { clear - Hq2. revert order2 Hq2.
    induction order as [|t order IH]; intros [|u l] H; try discriminate.
    - reflexivity.
    - injection H as -> H. f_equal. now apply IH. }
  subst order2. exists w1, w2, order. rewrite Hst, Hst2. auto.
Qed.

Lemma run_without_overlap_is_run_seq_witness :
  exists w1 w2 order,
    run_seq (set_logging Scenario.system false) Scenario.world0
      = (w1, Ok tt) /\
    parallel_run (set_logging Scenario.system false)
      (repeat (eager_step Scenario.all_tasks) (length Scenario.all_tasks))
      Scenario.world0 = (w2, Ok tt) /\
    started (trace w1) = started (trace Scenario.world0) ++ order /\
    started (trace w2) = started (trace Scenario.world0) ++ order /\
    store w2 = store w1.
Proof.
  apply (run_without_overlap_is_run_seq Scenario.all_tasks Scenario.prec
           Scenario.system false Scenario.world0 scenario_valid
           scenario_init).
  intros t Ht. simpl in Ht.
  repeat (destruct Ht as [<- | Ht]; [discriminate|]). destruct Ht.
Defined.

(** [par_cost] runs every task twice, the second time on the globals the
    first run left: on a valid system whose tasks all have an action and
    accurate declared sets, with interfering tasks ordered by the precedence
    dictionary, a [par_cost] that returns has started every task once in
    each run and leaves the globals of two sequential runs in a row. *)
Theorem par_cost_runs_every_task_twice (ts : list Task)
    (prec : precedence_dict) (sys0 : TaskSystem) (logging : bool)
    (envs : list schedule_step) (d1 d2 : string) (w w' : World) :
  valid_input ts prec -> TaskSystem_init ts prec = Ok sys0 ->
  (forall t, In t ts -> run t <> None) ->
  (forall t, In t ts -> accurate t) ->
  interference_ordered ts prec ->
  par_cost (set_logging sys0 logging) envs d1 d2 w = (w', Ok tt) ->
  exists first second,
    started (trace w') = started (trace w) ++ first ++ second /\
    Permutation first ts /\ Permutation second ts /\
    forall x, store w' x = run_actions first (run_actions first (store w)) x.
Proof.
  intros Hv Hinit Hrun Hacc Hio H.
  rewrite (constructed_system ts prec sys0 logging Hv Hinit) in H.
  unfold par_cost in H.
  set (sys := mkTaskSystem (task_table ts) prec logging) in *.
  set (w0 := print "[maxpar] Starting TaskSystem.run_seq()" w) in *.
  destruct (run_seq_valid ts prec logging w0 Hv Hrun)
    as (w1 & order & Hq & Hperm & Hs & Htr1 & Hst1).
  fold sys in Hs, Hq. rewrite Hs in H.
  set (w2 := print "[maxpar] Starting TaskSystem.run()"
               (print "" (print ("Execution time: " ++ d1 ++ " seconds") w1)))
    in *.
  destruct (parallel_run sys envs w2) as [w3 r] eqn:Ep.
  destruct r as [[]| |]; [|discriminate..]. injection H as <-.
  destruct (parallel_run_count ts prec logging envs w2 w3 (Ok tt) Hv Ep)
    as (tr & Htr & _ & _ & _ & _ & _ & Hok).
  destruct (Hok eq_refl) as [Hps _].
  pose proof (parallel_run_agrees ts prec logging envs w2 w3 Hv Hrun Hacc Hio
                Ep) as Hagree.
  destruct (run_seq_valid ts prec logging w2 Hv Hrun)
    as (w4 & order' & Hq' & _ & Hs' & _ & Hst4).
  fold sys in Hq', Hs'. rewrite Hq in Hq'. injection Hq' as Hq'.
  assert (E : order' = order).
  { clear - Hq'. revert order' Hq'.
    induction order as [|t order IH]; intros [|u l] H; try discriminate.
    - reflexivity.
    - injection H as -> H. f_equal. now apply IH. }
  subst order'. fold sys in Hagree. rewrite Hs' in Hagree. simpl in Hagree.
  exists order, (started tr). split; [|split; [|split]].
  - simpl. rewrite Htr, started_app. subst w2. simpl. rewrite Htr1.
    subst w0. simpl. now rewrite app_assoc.
  - assumption.
  - assumption.
  - intros x. simpl. rewrite (Hagree x), Hst4. subst w2. simpl.
    rewrite Hst1. subst w0. reflexivity.
Qed.

Lemma par_cost_runs_every_task_twice_witness :
  exists first second,
    started (trace (fst (par_cost (set_logging Scenario.system false)
                           Scenario.schedule "0.0" "0.0" Scenario.world0))) =
      started (trace Scenario.world0) ++ first ++ second /\
    Permutation first Scenario.all_tasks /\
    Permutation second Scenario.all_tasks /\
    forall x,
      store (fst (par_cost (set_logging Scenario.system false)
                    Scenario.schedule "0.0" "0.0" Scenario.world0)) x =
      run_actions first (run_actions first (store Scenario.world0)) x.
Proof.
  apply (par_cost_runs_every_task_twice Scenario.all_tasks Scenario.prec
           Scenario.system false Scenario.schedule "0.0" "0.0"
           Scenario.world0 _ scenario_valid scenario_init).
  - intros t Ht. simpl in Ht.
    repeat (destruct Ht as [<- | Ht]; [discriminate|]). destruct Ht.
  - exact scenario_accurate.
  - apply (interference_ordered_decide Scenario.all_tasks Scenario.prec true
             scenario_valid).
    reflexivity.
  - reflexivity.
Defined.

(** A task without an action makes [par_cost] raise [TypeError] in its
    sequential run: the parallel run, which would not fail, is never
    started. *)
Theorem par_cost_stops_at_run_seq (ts : list Task) (prec : precedence_dict)
    (sys0 : TaskSystem) (logging : bool) (envs : list schedule_step)
    (d1 d2 : string) (w : World) (t : Task) :
  valid_input ts prec -> TaskSystem_init ts prec = Ok sys0 ->
  In t ts -> run t = None ->
  par_cost (set_logging sys0 logging) envs d1 d2 w =
    run_seq (set_logging sys0 logging)
      (print "[maxpar] Starting TaskSystem.run_seq()" w)
  /\ snd (par_cost (set_logging sys0 logging) envs d1 d2 w) = Raise TypeError
  /\ forall u, In u (started (trace (fst (par_cost (set_logging sys0 logging)
                                            envs d1 d2 w)))) ->
               In u (started (trace w)) \/ run u <> None.
Proof.
  intros Hv Hinit Ht Hnone.
  rewrite (constructed_system ts prec sys0 logging Hv Hinit).
  set (sys := mkTaskSystem (task_table ts) prec logging).
  set (w0 := print "[maxpar] Starting TaskSystem.run_seq()" w).
  destruct (tasks_queue_valid ts prec sys Hv eq_refl eq_refl)
    as (order & Hq & Hperm & _).
  destruct (first_without_action order) as (pre & u & post & -> & Hu & Hpre).
  { exists t. split; [|assumption].
    eapply Permutation_in; [apply Permutation_sym|]; eassumption. }
  destruct (run_sequence_no_action sys pre u (map Some post) w0 Hpre Hu)
    as (w1 & Hw & Htr & _).
  assert (Hs : run_seq sys w0 = (w1, Raise TypeError)).
  { unfold run_seq. rewrite Hq, map_app. exact Hw. }
  unfold par_cost. fold w0. rewrite Hs. split; [reflexivity|].
  split; [reflexivity|]. simpl. intros v Hv'. rewrite Htr in Hv'.
  apply in_app_iff in Hv'. destruct Hv' as [Hv' | Hv']; [now left|].
  right. now apply Hpre.
Qed.

Lemma par_cost_stops_at_run_seq_witness :
  par_cost (set_logging (mkTaskSystem (task_table [Races.idle])
                           Races.idle_prec true) false)
    [mkStep [] []] "0.0" "0.0" Scenario.world0 =
    run_seq (set_logging (mkTaskSystem (task_table [Races.idle])
                            Races.idle_prec true) false)
      (print "[maxpar] Starting TaskSystem.run_seq()" Scenario.world0)
  /\ snd (par_cost (set_logging (mkTaskSystem (task_table [Races.idle])
                                   Races.idle_prec true) false)
            [mkStep [] []] "0.0" "0.0" Scenario.world0) = Raise TypeError
  /\ forall u,
       In u (started (trace (fst (par_cost
                 (set_logging (mkTaskSystem (task_table [Races.idle])
                                 Races.idle_prec true) false)
                 [mkStep [] []] "0.0" "0.0" Scenario.world0)))) ->
       In u (started (trace Scenario.world0)) \/ run u <> None.
Proof.
  apply (par_cost_stops_at_run_seq [Races.idle] Races.idle_prec _ false
           [mkStep [] []] "0.0" "0.0" Scenario.world0 Races.idle idle_valid
           eq_refl).
  - now left.
  - reflexivity.
Defined.
